(** * k8s-overcommit-operator: the equality kernel and the two reconcilers

    A shallow embedding of
    - [internal/utils/comparison.go] (tolerations equality),
    - the [envVarsEqual], [mapsEqual], [portsEqual], [slicesEqual] helpers of
      the controller packages,
    - the control flow of [OvercommitReconciler.Reconcile],
      [OvercommitClassReconciler.Reconcile] and
      [updateOvercommitStatusSafely],
    and the properties of them that the specification states. *)

From stdpp Require Import gmap strings list fin_maps.
From Stdlib Require Import ZArith.

(** ** Go slices and maps

    A Go slice is either [nil] or a (possibly empty) sequence; [len] and
    [range] do not tell the two apart, a comparison with [nil] does.  A Go
    map is either [nil] or a finite map; the same holds. *)

Definition slice (A : Type) : Type := option (list A).

Definition elems {A} (s : slice A) : list A := default [] s.

Definition len {A} (s : slice A) : nat := length (elems s).

Definition isNil {A} (s : option A) : bool :=
  match s with None => true | Some _ => false end.

Definition reverse_slice {A} (s : slice A) : slice A := reverse <$> s.

Definition gomap (V : Type) : Type := option (gmap string V).

Definition maplen {V} (m : gomap V) : nat := size (default ∅ m).

(** ** Kubernetes API types (the fields the operator reads) *)

Record Toleration := {
  Key : string;
  Operator : string;
  Value : string;
  Effect : string;
  TolerationSeconds : option Z
}.

Record EnvVar := {
  EnvName : string;
  EnvValue : string
}.

Record IntOrString := {
  IType : Z;
  IntVal : Z;
  StrVal : string
}.

Record ServicePort := {
  PortName : string;
  Protocol : string;
  Port : Z;
  TargetPort : IntOrString
}.

#[global] Instance Toleration_eq_dec : EqDecision Toleration.
Proof. solve_decision. Defined.
#[global] Instance EnvVar_eq_dec : EqDecision EnvVar.
Proof. solve_decision. Defined.
#[global] Instance IntOrString_eq_dec : EqDecision IntOrString.
Proof. solve_decision. Defined.
#[global] Instance ServicePort_eq_dec : EqDecision ServicePort.
Proof. solve_decision. Defined.

(** ** internal/utils/comparison.go *)

(** [strings.Join(parts, "-")] over the five parts. *)
Definition createTolerationKey (tol : Toleration) : string :=
  let parts := [Key tol; Operator tol; Value tol; Effect tol] in
  let parts :=
    parts ++ [if negb (isNil (TolerationSeconds tol))
              then "seconds-not-nil" else "seconds-nil"] in
  String.concat "-" parts.

(** The loop [for _, tol := range a { tolerationMapA[key] = tol }]. *)
Definition tolerationMap (a : list Toleration) : gmap string Toleration :=
  foldl (λ m tol, <[createTolerationKey tol := tol]> m) ∅ a.

Definition TolerationsEqual (a b : slice Toleration) : bool :=
  if isNil a && isNil b then true
  else if isNil a || isNil b then false
  else if negb (len a =? len b)%nat then false
  else
    let tolerationMapA := tolerationMap (elems a) in
    forallb (λ tol, bool_decide (is_Some (tolerationMapA !! createTolerationKey tol)))
            (elems b).

(** ** The comparison helpers of the controller packages *)

Definition envMap (a : list EnvVar) : gmap string string :=
  foldl (λ m env, <[EnvName env := EnvValue env]> m) ∅ a.

Definition envVarsEqual (a b : slice EnvVar) : bool :=
  if negb (len a =? len b)%nat then false
  else
    let mapA := envMap (elems a) in
    let mapB := envMap (elems b) in
    forallb (λ kv, match mapB !! kv.1 with
                   | Some valueB => bool_decide (kv.2 = valueB)
                   | None => false
                   end)
            (map_to_list mapA).

Definition mapsEqual (a b : gomap string) : bool :=
  if isNil a && isNil b then true
  else if isNil a || isNil b then false
  else if negb (maplen a =? maplen b)%nat then false
  else
    forallb (λ kv, match default ∅ b !! kv.1 with
                   | Some valueB => bool_decide (kv.2 = valueB)
                   | None => false
                   end)
            (map_to_list (default ∅ a)).

Definition portMap (a : list ServicePort) : gmap string ServicePort :=
  foldl (λ m port, <[PortName port := port]> m) ∅ a.

Definition portsEqual (a b : slice ServicePort) : bool :=
  if negb (len a =? len b)%nat then false
  else
    let mapA := portMap (elems a) in
    let mapB := portMap (elems b) in
    forallb (λ kv, match mapB !! kv.1 with
                   | Some portB =>
                       bool_decide (Port kv.2 = Port portB)
                       && bool_decide (TargetPort kv.2 = TargetPort portB)
                       && bool_decide (Protocol kv.2 = Protocol portB)
                   | None => false
                   end)
            (map_to_list mapA).

Definition stringSet (a : list string) : gmap string bool :=
  foldl (λ m item, <[item := true]> m) ∅ a.

(** [mapB[item]] on a [map[string]bool] is [false] for an absent key. *)
Definition slicesEqual (a b : slice string) : bool :=
  if negb (len a =? len b)%nat then false
  else
    let mapA := stringSet (elems a) in
    let mapB := stringSet (elems b) in
    forallb (λ kv, default false (mapB !! kv.1)) (map_to_list mapA).

(** Concrete values: the tolerations of [TestTolerationsEqual] and a few
    more inputs used in the checks below. *)

Definition tolNotReady : Toleration :=
  {| Key := "node.kubernetes.io/not-ready"; Operator := "Exists"; Value := "";
     Effect := "NoExecute"; TolerationSeconds := None |}.

Definition tolUnreachable : Toleration :=
  {| Key := "node.kubernetes.io/unreachable"; Operator := "Exists"; Value := "";
     Effect := "NoExecute"; TolerationSeconds := None |}.

Definition withSeconds (tol : Toleration) (seconds : option Z) : Toleration :=
  {| Key := Key tol; Operator := Operator tol; Value := Value tol;
     Effect := Effect tol; TolerationSeconds := seconds |}.

Definition tolNotReady30 : Toleration := withSeconds tolNotReady (Some 30%Z).
Definition tolNotReady60 : Toleration := withSeconds tolNotReady (Some 60%Z).

Definition envA1 : EnvVar := {| EnvName := "A"; EnvValue := "1" |}.
Definition envB2 : EnvVar := {| EnvName := "B"; EnvValue := "2" |}.

Definition portHttp : ServicePort :=
  {| PortName := "http"; Protocol := "TCP"; Port := 80;
     TargetPort := {| IType := 0; IntVal := 8080; StrVal := "" |} |}.
Definition portHttps : ServicePort :=
  {| PortName := "https"; Protocol := "TCP"; Port := 443;
     TargetPort := {| IType := 0; IntVal := 8443; StrVal := "" |} |}.

(** Equal on the five parts that the spec lists for the toleration key. *)
Definition sameTolerationTuple (x y : Toleration) : Prop :=
  Key x = Key y ∧ Operator x = Operator y ∧ Value x = Value y
  ∧ Effect x = Effect y
  ∧ isNil (TolerationSeconds x) = isNil (TolerationSeconds y).


(** * The reconcilers

    ** Errors, results and durations *)

(** The status reasons of [k8s.io/apimachinery/pkg/api/errors] that the
    operator tells apart. *)
Inductive StatusReason := ReasonNotFound | ReasonConflict | ReasonOther.

Record error := {
  errReason : StatusReason;
  errText : string
}.

#[global] Instance StatusReason_eq_dec : EqDecision StatusReason.
Proof. solve_decision. Defined.
#[global] Instance error_eq_dec : EqDecision error.
Proof. solve_decision. Defined.

Definition IsNotFound (err : error) : bool := bool_decide (errReason err = ReasonNotFound).
Definition IsConflict (err : error) : bool := bool_decide (errReason err = ReasonConflict).

(** [client.IgnoreNotFound]; [None] is Go's nil error. *)
Definition IgnoreNotFound (err : option error) : option error :=
  match err with
  | Some e => if IsNotFound e then None else Some e
  | None => None
  end.

(** [err != nil]. *)
Definition notNil (err : option error) : bool := negb (isNil err).

(** [fmt.Errorf(text)]. *)
Definition Errorf (text : string) : error :=
  {| errReason := ReasonOther; errText := text |}.

(** [time.Duration] counts nanoseconds. *)
Definition Millisecond : Z := 1000000.
Definition Second : Z := 1000 * Millisecond.

(** [ctrl.Result]. *)
Record Result := {
  Requeue : bool;
  RequeueAfter : Z
}.

Definition emptyResult : Result := {| Requeue := false; RequeueAfter := 0 |}.

#[global] Instance Result_eq_dec : EqDecision Result.
Proof. solve_decision. Defined.

(** ** Calls to the cluster

    A reconcile talks to the API server through the client; what each call
    answers is not the reconciler's to decide.  [Exec] threads the log of the
    calls made so far; each call appends itself and hands back the answer the
    surrounding world gives. *)

Section exec.
Context {Call : Type}.

Definition Exec (A : Type) : Type := list Call → list Call * A.

Definition exec_ret {A} (x : A) : Exec A := λ log, (log, x).

Definition exec_bind {A B} (f : A → Exec B) (c : Exec A) : Exec B :=
  λ log, let '(log', x) := c log in f x log'.

Definition call {A} (c : Call) (answer : A) : Exec A := λ log, (log ++ [c], answer).

Definition run {A} (c : Exec A) : list Call * A := c [].
End exec.

Arguments Exec Call A : clear implicits.

#[global] Instance Exec_ret {Call} : MRet (Exec Call) := @exec_ret Call.
#[global] Instance Exec_bind {Call} : MBind (Exec Call) := @exec_bind Call.

(** Controller-runtime's [controllerutil.ContainsFinalizer] and
    [controllerutil.RemoveFinalizer] on the finalizer list of an object:
    membership, and removal of every occurrence. *)
Definition ContainsFinalizer (finalizers : list string) (finalizer : string) : bool :=
  bool_decide (finalizer ∈ finalizers).

Definition RemoveFinalizer (finalizers : list string) (finalizer : string) : list string :=
  filter (λ f, f ≠ finalizer) finalizers.

Definition AddFinalizer (finalizers : list string) (finalizer : string) : list string :=
  if ContainsFinalizer finalizers finalizer then finalizers
  else finalizers ++ [finalizer].

(** The [Overcommit] singleton and an [OvercommitClass], as far as the
    reconcilers read them. *)
Record Overcommit := {
  OvercommitUID : string;
  OvercommitFinalizers : list string
}.

Record OwnerReference := {
  RefUID : string;
  RefKind : string
}.

Record OvercommitClass := {
  ClassName : string;
  DeletionTimestampIsZero : bool;
  ClassFinalizers : list string;
  ClassOwnerReferences : list OwnerReference
}.

#[global] Instance Overcommit_eq_dec : EqDecision Overcommit.
Proof. solve_decision. Defined.
#[global] Instance OwnerReference_eq_dec : EqDecision OwnerReference.
Proof. solve_decision. Defined.
#[global] Instance OvercommitClass_eq_dec : EqDecision OvercommitClass.
Proof. solve_decision. Defined.

(** ** The singleton reconciler: [OvercommitReconciler] *)

Module OvercommitReconciler.

(** The objects the singleton reconciler creates or updates, in the names
    of the variables that hold them. *)
Inductive Managed :=
| issuer
| overcommitClassCertificate
| overcommitClassDeployment
| overcommitClassService
| overcommitClassWebhook
| validatingpodCertificate
| validatingPodDeployment
| validatingPodService
| validatingPodWebhook
| occontroller.

#[global] Instance Managed_eq_dec : EqDecision Managed.
Proof. solve_decision. Defined.

Inductive Call :=
| GetOvercommitLabel                  (* utils.GetOvercommitLabel(ctx, r.Client) *)
| Get                                 (* r.Get(ctx, req.NamespacedName, overcommit) *)
| Update (finalizers : list string)   (* r.Update(ctx, overcommit), with its finalizers *)
| CreateOrUpdate (m : Managed)        (* controllerutil.CreateOrUpdate(ctx, r.Client, m, ...) *)
| GetCluster                          (* r.Get(ctx, clusterKey, freshOvercommit) *)
| UpdateOvercommitStatus              (* r.updateOvercommitStatus(ctx, freshOvercommit) *)
| Sleep (d : Z).                      (* time.Sleep(d) *)

#[global] Instance Call_eq_dec : EqDecision Call.
Proof. solve_decision. Defined.

(** What the cluster answers during one reconcile.  The status writer asks
    once per attempt, so its two answers are indexed by the attempt.
    [UpdateOvercommitStatus] stands for the whole of
    [updateOvercommitStatus]: its reads of the managed objects, which never
    fail it, and its [r.Status().Update], whose error is the one it returns.
    [issuerIsNil] stands for [resources.GenerateIssuer() == nil]. *)
Record World := {
  labelAnswer : error + string;
  getAnswer : error + Overcommit;
  updateAnswer : option error;
  issuerIsNil : bool;
  createOrUpdateAnswer : Managed → option error;
  freshAnswer : nat → error + Overcommit;
  statusAnswer : nat → option error
}.

Definition Outcome : Type := Result * option error.

(** *** utils.go: [updateOvercommitStatusSafely] *)

Definition maxRetries : nat := 5.

(** [time.Duration(1<<uint(attempt)) * 50 * time.Millisecond]. *)
Definition backoffDuration (attempt : nat) : Z :=
  Z.shiftl 1 (Z.of_nat attempt) * 50 * Millisecond.

(** The body of [for attempt := 0; attempt < maxRetries; attempt++], with
    [remaining = maxRetries - attempt] iterations still to run. *)
Fixpoint statusLoop (w : World) (remaining attempt : nat) : Exec Call (option error) :=
  match remaining with
  | O => mret (Some (Errorf "failed to update status after 5 attempts"))
  | S remaining =>
      fresh ← call GetCluster (freshAnswer w attempt);
      match fresh with
      | inl err =>
          if notNil (IgnoreNotFound (Some err)) then mret (Some err)
          else mret None
      | inr freshOvercommit =>
          err ← call UpdateOvercommitStatus (statusAnswer w attempt);
          match err with
          | Some e =>
              let isConflict := IsConflict e in
              let isLastAttempt := (attempt =? maxRetries - 1)%nat in
              if isLastAttempt then mret (Some e)
              else if isConflict then
                _ ← call (Sleep (backoffDuration attempt)) ();
                statusLoop w remaining (S attempt)
              else mret (Some e)
          | None => mret None
          end
      end
  end.

Definition updateOvercommitStatusSafely (w : World) : Exec Call (option error) :=
  statusLoop w maxRetries 0.

(** *** overcommit_controller.go: [Reconcile] *)

Definition legacyFinalizers : list string := ["overcommit.finalizer"; "webhook.finalizer"].

(** The migration loop: the finalizers left on the object, and
    [finalizerRemoved]. *)
Definition removeLegacyFinalizers (finalizers : list string) : list string * bool :=
  foldl (λ '(finalizers, finalizerRemoved) legacyFinalizer,
           if ContainsFinalizer finalizers legacyFinalizer
           then (RemoveFinalizer finalizers legacyFinalizer, true)
           else (finalizers, finalizerRemoved))
        (finalizers, false) legacyFinalizers.

Definition createOrUpdate (w : World) (m : Managed) : Exec Call (option error) :=
  call (CreateOrUpdate m) (createOrUpdateAnswer w m).

(** [if err != nil { return ctrl.Result{}, err }], then the rest. *)
Definition orReturn (err : option error) (rest : Exec Call Outcome) : Exec Call Outcome :=
  if notNil err then mret (emptyResult, err) else rest.

(** The part of [Reconcile] from "Reconcile Issuer" to its end. *)
Definition reconcileManaged (w : World) : Exec Call Outcome :=
  if issuerIsNil w then mret (emptyResult, Some (Errorf "generated issuer is nil")) else
  err ← createOrUpdate w issuer; orReturn err (
  err ← createOrUpdate w overcommitClassCertificate; orReturn err (
  err ← createOrUpdate w overcommitClassDeployment; orReturn err (
  err ← createOrUpdate w overcommitClassService; orReturn err (
  err ← createOrUpdate w overcommitClassWebhook; orReturn err (
  err ← createOrUpdate w validatingpodCertificate; orReturn err (
  err ← createOrUpdate w validatingPodDeployment; orReturn err (
  err ← createOrUpdate w validatingPodService; orReturn err (
  err ← createOrUpdate w validatingPodWebhook;
  let rest : Exec Call Outcome :=
    err ← createOrUpdate w occontroller; orReturn err (
    _ ← updateOvercommitStatusSafely w;
    mret ({| Requeue := false; RequeueAfter := Second * 10 |}, None)) in
  match err with
  | Some e => if IsConflict e then rest else mret (emptyResult, err)
  | None => rest
  end)))))))).

Definition Reconcile (w : World) : Exec Call Outcome :=
  label ← call GetOvercommitLabel (labelAnswer w);
  match label with
  | inl err => mret (emptyResult, Some err)
  | inr label =>
  got ← call Get (getAnswer w);
  match got with
  | inl err =>
      if notNil (IgnoreNotFound (Some err)) then mret (emptyResult, Some err)
      else mret (emptyResult, None)
  | inr overcommit =>
  let '(finalizers, finalizerRemoved) :=
    removeLegacyFinalizers (OvercommitFinalizers overcommit) in
  if finalizerRemoved then
    err ← call (Update finalizers) (updateAnswer w);
    orReturn err (mret ({| Requeue := false; RequeueAfter := Second * 1 |}, None))
  else
    reconcileManaged w
  end
  end.

(** The order in which [Reconcile] creates or updates the managed objects,
    and what lets it go on to the next one: a nil error, or a conflict on the
    pod webhook configuration. *)
Definition upsertOrder : list Managed :=
  [issuer; overcommitClassCertificate; overcommitClassDeployment;
   overcommitClassService; overcommitClassWebhook; validatingpodCertificate;
   validatingPodDeployment; validatingPodService; validatingPodWebhook;
   occontroller].

Fixpoint before (m : Managed) (order : list Managed) : list Managed :=
  match order with
  | [] => []
  | m' :: order => if decide (m' = m) then [] else m' :: before m order
  end.

Definition upsertsBefore (m : Managed) : list Managed := before m upsertOrder.

Definition passes (w : World) (m : Managed) : bool :=
  match createOrUpdateAnswer w m with
  | None => true
  | Some e => bool_decide (m = validatingPodWebhook) && IsConflict e
  end.

(** The tick gets as far as the managed objects: the label and the object
    are read, the object carries no legacy finalizer, the issuer is
    generated. *)
Definition reachesManaged (w : World) : Prop :=
  ∃ label overcommit,
    labelAnswer w = inr label
    ∧ getAnswer w = inr overcommit
    ∧ (∀ f, f ∈ legacyFinalizers → f ∉ OvercommitFinalizers overcommit)
    ∧ issuerIsNil w = false.

(** The calls of the status writer. *)
Definition isStatusCall (c : Call) : bool :=
  match c with
  | GetCluster | UpdateOvercommitStatus | Sleep _ => true
  | _ => false
  end.

(** A call is one of the create-or-update steps or a call of the status
    writer. *)
Definition upsertOrStatus (c : Call) : Prop :=
  (∃ m, c = CreateOrUpdate m) ∨ isStatusCall c = true.

(** A log of the status writer reads as attempts [attempt], [attempt+1], ...:
    each a fetch, then possibly a status update, and only after a status
    update possibly the sleep of that attempt followed by the next attempt;
    no attempt beyond [maxRetries]. *)
Fixpoint statusLog (remaining attempt : nat) (log : list Call) : bool :=
  match log with
  | [] => true
  | GetCluster :: log =>
      match remaining with
      | O => false
      | S remaining =>
          match log with
          | [] => true
          | [UpdateOvercommitStatus] => true
          | UpdateOvercommitStatus :: Sleep d :: log =>
              bool_decide (d = backoffDuration attempt)
              && negb (attempt =? maxRetries - 1)%nat
              && match log with
                 | [] => false
                 | _ => statusLog remaining (S attempt) log
                 end
          | _ => false
          end
      end
  | _ => false
  end.

(** Attempt [j] of the status writer fetches the object and meets a conflict
    on the status update. *)
Definition conflictAt (w : World) (j : nat) : Prop :=
  (∃ freshOvercommit, freshAnswer w j = inr freshOvercommit)
  ∧ ∃ e, statusAnswer w j = Some e ∧ IsConflict e = true.

(** The calls of [k] attempts in a row, from [attempt] on, that each meet a
    conflict and sleep. *)
Fixpoint retriedLog (attempt k : nat) : list Call :=
  match k with
  | O => []
  | S k =>
      [GetCluster; UpdateOvercommitStatus; Sleep (backoffDuration attempt)]
      ++ retriedLog (S attempt) k
  end.

Definition countCalls (c : Call) (log : list Call) : nat :=
  length (filter (λ c', c' = c) log).

End OvercommitReconciler.

(** ** The class reconciler: [OvercommitClassReconciler] *)

Module OvercommitClassReconciler.

Inductive Managed :=
| deployment
| service
| certificate
| webhookConfig.

#[global] Instance Managed_eq_dec : EqDecision Managed.
Proof. solve_decision. Defined.

Inductive Call :=
| GetOvercommitLabel                     (* utils.GetOvercommitLabel(ctx, r.Client) *)
| Get                                    (* r.Get(ctx, req.NamespacedName, overcommitClass) *)
| Delete (m : Managed)                   (* r.Delete(ctx, m) *)
| Update (class : OvercommitClass)       (* r.Update(ctx, overcommitClass) *)
| GetOvercommit                          (* utils.GetOvercommit(ctx, r.Client) *)
| SetControllerReference                 (* controllerutil.SetControllerReference(&overcommitResource, overcommitClass, ...) *)
| CreateOrUpdate (m : Managed)           (* controllerutil.CreateOrUpdate(ctx, r.Client, m, ...) *)
| GetTotalClasses                        (* getTotalClasses(ctx, r.Client) *)
| UpdateResourcesStatus.                 (* r.updateResourcesStatus(ctx, overcommitClass) *)

#[global] Instance Call_eq_dec : EqDecision Call.
Proof. solve_decision. Defined.

(** What the cluster answers during one reconcile.  [getTotalClasses] and
    [updateResourcesStatus] are defined outside the files at hand; only the
    error they return matters to [Reconcile]. *)
Record World := {
  labelAnswer : error + string;
  getAnswer : error + OvercommitClass;
  deleteAnswer : Managed → option error;
  cleanupLabelAnswer : error + string;
  updateAnswer : option error;
  overcommitAnswer : error + Overcommit;
  setControllerReferenceAnswer : error + list OwnerReference;
  createOrUpdateAnswer : Managed → option error;
  totalClassesAnswer : option error;
  resourcesStatusAnswer : option error
}.

Definition Outcome : Type := Result * option error.

(** [err := r.Delete(ctx, m); if err != nil && client.IgnoreNotFound(err) != nil
    { return err }], then the rest. *)
Definition deleteOrReturn (w : World) (m : Managed)
    (rest : Exec Call (option error)) : Exec Call (option error) :=
  err ← call (Delete m) (deleteAnswer w m);
  if notNil err && notNil (IgnoreNotFound err) then mret err else rest.

(** [cleanupResources]; the generators of [internal/resources] are taken to
    return non-nil objects. *)
Definition cleanupResources (w : World) : Exec Call (option error) :=
  deleteOrReturn w deployment (
  deleteOrReturn w service (
  deleteOrReturn w certificate (
  label ← call GetOvercommitLabel (cleanupLabelAnswer w);
  match label with
  | inl err => mret (Some err)
  | inr label =>
      deleteOrReturn w webhookConfig (mret None)
  end))).

Definition needsOwnerUpdate (ownerReferences : list OwnerReference)
    (overcommitResource : Overcommit) : bool :=
  if (length ownerReferences =? 0)%nat then true
  else
    let hasCorrectOwner :=
      existsb (λ ownerRef,
                 bool_decide (RefUID ownerRef = OvercommitUID overcommitResource)
                 && bool_decide (RefKind ownerRef = "Overcommit"))
              ownerReferences in
    negb hasCorrectOwner.

Definition withFinalizers (class : OvercommitClass) (finalizers : list string) : OvercommitClass :=
  {| ClassName := ClassName class;
     DeletionTimestampIsZero := DeletionTimestampIsZero class;
     ClassFinalizers := finalizers;
     ClassOwnerReferences := ClassOwnerReferences class |}.

Definition withOwnerReferences (class : OvercommitClass)
    (ownerReferences : list OwnerReference) : OvercommitClass :=
  {| ClassName := ClassName class;
     DeletionTimestampIsZero := DeletionTimestampIsZero class;
     ClassFinalizers := ClassFinalizers class;
     ClassOwnerReferences := ownerReferences |}.

Definition createOrUpdate (w : World) (m : Managed) : Exec Call (option error) :=
  call (CreateOrUpdate m) (createOrUpdateAnswer w m).

(** [Reconcile]; [err] is the one variable the Go function keeps assigning,
    and every [return ctrl.Result{}, err] returns what it holds then. *)
Definition Reconcile (w : World) : Exec Call Outcome :=
  label ← call GetOvercommitLabel (labelAnswer w);
  match label with
  | inl err => mret (emptyResult, Some err)
  | inr label =>
  got ← call Get (getAnswer w);
  match got with
  | inl err =>
      if notNil (IgnoreNotFound (Some err)) then mret (emptyResult, Some err)
      else mret (emptyResult, None)
  | inr overcommitClass =>
  if negb (DeletionTimestampIsZero overcommitClass) then
    err ← cleanupResources w;
    if notNil err then mret (emptyResult, err) else
    let overcommitClass :=
      withFinalizers overcommitClass
        (RemoveFinalizer (ClassFinalizers overcommitClass) "overcommitclass.finalizer") in
    err ← call (Update overcommitClass) (updateAnswer w);
    if notNil err then mret (emptyResult, err) else
    mret (emptyResult, None)
  else
  if negb (ContainsFinalizer (ClassFinalizers overcommitClass) "overcommitclass.finalizer") then
    let overcommitClass :=
      withFinalizers overcommitClass
        (AddFinalizer (ClassFinalizers overcommitClass) "overcommitclass.finalizer") in
    err ← call (Update overcommitClass) (updateAnswer w);
    if notNil err then mret (emptyResult, err) else
    mret (emptyResult, None)
  else
  overcommitResource ← call GetOvercommit (overcommitAnswer w);
  match overcommitResource with
  | inl err => mret (emptyResult, Some err)
  | inr overcommitResource =>
  if needsOwnerUpdate (ClassOwnerReferences overcommitClass) overcommitResource then
    owned ← call SetControllerReference (setControllerReferenceAnswer w);
    match owned with
    | inl err => mret (emptyResult, Some err)
    | inr ownerReferences =>
        let overcommitClass := withOwnerReferences overcommitClass ownerReferences in
        err ← call (Update overcommitClass) (updateAnswer w);
        if notNil err then mret (emptyResult, err) else
        mret (emptyResult, None)
    end
  else
  err ← createOrUpdate w deployment;
  if notNil err then mret (emptyResult, err) else
  err ← createOrUpdate w service;
  if notNil err then mret (emptyResult, err) else
  err ← createOrUpdate w certificate;
  if notNil err then mret (emptyResult, err) else
  err ← createOrUpdate w webhookConfig;
  if notNil err then mret (emptyResult, err) else
  metrics ← call GetTotalClasses (totalClassesAnswer w);
  if notNil metrics then mret (emptyResult, err) else
  statusErr ← call UpdateResourcesStatus (resourcesStatusAnswer w);
  if notNil statusErr then mret (emptyResult, statusErr) else
  mret ({| Requeue := false; RequeueAfter := 10 * Second |}, None)
  end
  end
  end.

(** The tick gets through the four managed objects: the class is read, is
    not being deleted, carries the finalizer and the right owner, and every
    create-or-update succeeds. *)
Definition convergesManaged (w : World) : Prop :=
  ∃ label overcommitClass overcommitResource,
    labelAnswer w = inr label
    ∧ getAnswer w = inr overcommitClass
    ∧ DeletionTimestampIsZero overcommitClass = true
    ∧ ContainsFinalizer (ClassFinalizers overcommitClass) "overcommitclass.finalizer" = true
    ∧ overcommitAnswer w = inr overcommitResource
    ∧ needsOwnerUpdate (ClassOwnerReferences overcommitClass) overcommitResource = false
    ∧ ∀ m, createOrUpdateAnswer w m = None.

Definition managedLog : list Call :=
  [GetOvercommitLabel; Get; GetOvercommit; CreateOrUpdate deployment;
   CreateOrUpdate service; CreateOrUpdate certificate; CreateOrUpdate webhookConfig].

End OvercommitClassReconciler.

(** ** The mutate functions the singleton reconciler hands to
    [controllerutil.CreateOrUpdate]

    [CreateOrUpdate] reads the object from the cluster into the variable the
    function closes over; when the object does not exist the variable keeps
    the generated object, whose creation timestamp is zero. *)

(** Object metadata and a spec of the kind's own type. *)
Record Object (S : Type) := {
  CreationTimestampIsZero : bool;
  OwnerReferences : list OwnerReference;
  Labels : gomap string;
  Annotations : gomap string;
  Spec : S
}.

Arguments CreationTimestampIsZero {S} _.
Arguments OwnerReferences {S} _.
Arguments Labels {S} _.
Arguments Annotations {S} _.
Arguments Spec {S} _.

Definition withOwnerReferences {S} (obj : Object S) (refs : list OwnerReference) : Object S :=
  {| CreationTimestampIsZero := CreationTimestampIsZero obj; OwnerReferences := refs;
     Labels := Labels obj; Annotations := Annotations obj; Spec := Spec obj |}.

Definition withLabels {S} (obj : Object S) (labels : gomap string) : Object S :=
  {| CreationTimestampIsZero := CreationTimestampIsZero obj;
     OwnerReferences := OwnerReferences obj;
     Labels := labels; Annotations := Annotations obj; Spec := Spec obj |}.

Definition withAnnotations {S} (obj : Object S) (annotations : gomap string) : Object S :=
  {| CreationTimestampIsZero := CreationTimestampIsZero obj;
     OwnerReferences := OwnerReferences obj;
     Labels := Labels obj; Annotations := annotations; Spec := Spec obj |}.

Definition withSpec {S} (obj : Object S) (spec : S) : Object S :=
  {| CreationTimestampIsZero := CreationTimestampIsZero obj;
     OwnerReferences := OwnerReferences obj;
     Labels := Labels obj; Annotations := Annotations obj; Spec := spec |}.

Record Container := {
  Image : string;
  Env : slice EnvVar
}.

(** [Spec] of a deployment: the replica count and, of [Spec.Template], the
    metadata and the pod spec fields the reconciler owns. *)
Record DeploymentSpec := {
  Replicas : option Z;
  TemplateAnnotations : gomap string;
  TemplateLabels : gomap string;
  NodeSelector : gomap string;
  Tolerations : slice Toleration;
  Containers : list Container
}.

Record ServiceSpec := {
  Selector : gomap string;
  Ports : slice ServicePort;
  ServiceType : string
}.

Record CertificateSpec := {
  DNSNames : slice string;
  IssuerRefName : string;
  IssuerRefKind : string;
  SecretName : string
}.

Record Webhook := {
  WebhookName : string;
  ClientConfigService : option (string * string);
  AdmissionReviewVersions : slice string
}.

Definition Deployment : Type := Object DeploymentSpec.
Definition Service : Type := Object ServiceSpec.
Definition Certificate : Type := Object CertificateSpec.
(** A webhook configuration has no [Spec]; its [Webhooks] stand in its place. *)
Definition WebhookConfiguration : Type := Object (slice Webhook).
Definition Issuer : Type := Object unit.

Definition Webhooks (obj : WebhookConfiguration) : slice Webhook := Spec obj.

Definition withContainers (spec : DeploymentSpec) (containers : list Container) : DeploymentSpec :=
  {| Replicas := Replicas spec; TemplateAnnotations := TemplateAnnotations spec;
     TemplateLabels := TemplateLabels spec; NodeSelector := NodeSelector spec;
     Tolerations := Tolerations spec; Containers := containers |}.

Definition withTemplateAnnotations (spec : DeploymentSpec) (m : gomap string) : DeploymentSpec :=
  {| Replicas := Replicas spec; TemplateAnnotations := m;
     TemplateLabels := TemplateLabels spec; NodeSelector := NodeSelector spec;
     Tolerations := Tolerations spec; Containers := Containers spec |}.

Definition withTemplateLabels (spec : DeploymentSpec) (m : gomap string) : DeploymentSpec :=
  {| Replicas := Replicas spec; TemplateAnnotations := TemplateAnnotations spec;
     TemplateLabels := m; NodeSelector := NodeSelector spec;
     Tolerations := Tolerations spec; Containers := Containers spec |}.

Definition withNodeSelector (spec : DeploymentSpec) (m : gomap string) : DeploymentSpec :=
  {| Replicas := Replicas spec; TemplateAnnotations := TemplateAnnotations spec;
     TemplateLabels := TemplateLabels spec; NodeSelector := m;
     Tolerations := Tolerations spec; Containers := Containers spec |}.

Definition withTolerations (spec : DeploymentSpec) (t : slice Toleration) : DeploymentSpec :=
  {| Replicas := Replicas spec; TemplateAnnotations := TemplateAnnotations spec;
     TemplateLabels := TemplateLabels spec; NodeSelector := NodeSelector spec;
     Tolerations := t; Containers := Containers spec |}.

(** [Containers[0]]; the callers test for an empty list first, where Go
    would panic. *)
Definition container0 (spec : DeploymentSpec) : Container :=
  hd {| Image := ""; Env := None |} (Containers spec).

(** [Containers[0].Image = image] and [Containers[0].Env = env]. *)
Definition setContainer0Image (spec : DeploymentSpec) (image : string) : DeploymentSpec :=
  withContainers spec
    ({| Image := image; Env := Env (container0 spec) |} :: tl (Containers spec)).

Definition setContainer0Env (spec : DeploymentSpec) (env : slice EnvVar) : DeploymentSpec :=
  withContainers spec
    ({| Image := Image (container0 spec); Env := env |} :: tl (Containers spec)).

(** What a mutate function leaves: the object as changed in place and a nil
    error, an error, or a panic on [Containers[0]] of an empty list. *)
Inductive Mutated (A : Type) :=
| Done (obj : A)
| Failed (err : error)
| Panicked.

Arguments Done {A} _.
Arguments Failed {A} _.
Arguments Panicked {A}.

Section upsert.
(** [ctrl.SetControllerReference(overcommit, obj, r.Scheme)] on the owner
    references of [obj]; controller-runtime's, so left open here. *)
Context (SetControllerReference :
           Overcommit → list OwnerReference → error + list OwnerReference).

Definition setControllerReference {S} (overcommit : Overcommit) (obj : Object S)
    : Mutated (Object S) :=
  match SetControllerReference overcommit (OwnerReferences obj) with
  | inl err => Failed err
  | inr refs => Done (withOwnerReferences obj refs)
  end.

(** The issuer: only the controller reference, and only when new. *)
Definition mutateIssuer (overcommit : Overcommit) (obj : Issuer) : Mutated Issuer :=
  if CreationTimestampIsZero obj then setControllerReference overcommit obj
  else Done obj.

(** The two certificates and the two services: [Spec] and the controller
    reference when new ("Only update spec if this is a new resource"). *)
Definition mutateCertificate (overcommit : Overcommit) (updatedCertificate obj : Certificate)
    : Mutated Certificate :=
  if CreationTimestampIsZero obj then
    let obj := withSpec obj (Spec updatedCertificate) in
    setControllerReference overcommit obj
  else Done obj.

Definition mutateService (overcommit : Overcommit) (updatedService obj : Service)
    : Mutated Service :=
  if CreationTimestampIsZero obj then
    let obj := withSpec obj (Spec updatedService) in
    setControllerReference overcommit obj
  else Done obj.

(** The OvercommitClass validating webhook configuration. *)
Definition mutateOvercommitClassWebhook (overcommit : Overcommit)
    (updatedWebhook obj : WebhookConfiguration) : Mutated WebhookConfiguration :=
  if CreationTimestampIsZero obj then
    let obj := withAnnotations obj (Annotations updatedWebhook) in
    let obj := withSpec obj (Webhooks updatedWebhook) in
    setControllerReference overcommit obj
  else Done obj.

(** The pod webhook configuration. *)
Definition mutateValidatingPodWebhook (overcommit : Overcommit)
    (updatedWebhook obj : WebhookConfiguration) : Mutated WebhookConfiguration :=
  if CreationTimestampIsZero obj then
    let obj := withSpec obj (Webhooks updatedWebhook) in
    setControllerReference overcommit obj
  else Done obj.

(** The three deployments share one function body.  [generated] is what the
    generator of [internal/resources] returns, [image] the string
    [IMAGE_REGISTRY + "/" + IMAGE_REPOSITORY + ":" + APP_VERSION]. *)
Definition mutateDeployment (overcommit : Overcommit) (generated : Deployment)
    (image : string) (obj : Deployment) : Mutated Deployment :=
  if bool_decide (Containers (Spec generated) = []) then Panicked else
  let updatedDeployment := withSpec generated (setContainer0Image (Spec generated) image) in
  if CreationTimestampIsZero obj then
    let obj := withSpec obj (Spec updatedDeployment) in
    let obj := withLabels obj (Labels updatedDeployment) in
    let obj := withAnnotations obj (Annotations updatedDeployment) in
    setControllerReference overcommit obj
  else
    if bool_decide (Containers (Spec obj) = []) then Panicked else
    let updated := false in
    let '(obj, updated) :=
      if bool_decide (Image (container0 (Spec updatedDeployment))
                      ≠ Image (container0 (Spec obj)))
      then (withSpec obj (setContainer0Image (Spec obj)
                            (Image (container0 (Spec updatedDeployment)))), true)
      else (obj, updated) in
    let '(obj, updated) :=
      if negb (envVarsEqual (Env (container0 (Spec updatedDeployment)))
                            (Env (container0 (Spec obj))))
      then (withSpec obj (setContainer0Env (Spec obj)
                            (Env (container0 (Spec updatedDeployment)))), true)
      else (obj, updated) in
    let '(obj, updated) :=
      if negb (mapsEqual (TemplateAnnotations (Spec updatedDeployment))
                         (TemplateAnnotations (Spec obj)))
      then (withSpec obj (withTemplateAnnotations (Spec obj)
                            (TemplateAnnotations (Spec updatedDeployment))), true)
      else (obj, updated) in
    let '(obj, updated) :=
      if negb (mapsEqual (TemplateLabels (Spec updatedDeployment))
                         (TemplateLabels (Spec obj)))
      then (withSpec obj (withTemplateLabels (Spec obj)
                            (TemplateLabels (Spec updatedDeployment))), true)
      else (obj, updated) in
    let '(obj, updated) :=
      if negb (mapsEqual (NodeSelector (Spec updatedDeployment))
                         (NodeSelector (Spec obj)))
      then (withSpec obj (withNodeSelector (Spec obj)
                            (NodeSelector (Spec updatedDeployment))), true)
      else (obj, updated) in
    let '(obj, updated) :=
      if negb (TolerationsEqual (Tolerations (Spec updatedDeployment))
                                (Tolerations (Spec obj)))
      then (withSpec obj (withTolerations (Spec obj)
                            (Tolerations (Spec updatedDeployment))), true)
      else (obj, updated) in
    if updated then setControllerReference overcommit obj
    else Done obj.

End upsert.

(** An owned attribute after the update of an existing object: the desired
    value when the comparison reports a difference, the observed one
    otherwise. *)
Definition patched {A} (equal : bool) (desired observed : A) : A :=
  if equal then observed else desired.

(** ** Concrete errors, objects and worlds used in the checks *)

Definition errConflict : error :=
  {| errReason := ReasonConflict; errText := "the object has been modified" |}.
Definition errNotFound : error :=
  {| errReason := ReasonNotFound; errText := "not found" |}.
Definition errTimeout : error :=
  {| errReason := ReasonOther; errText := "context deadline exceeded" |}.

Definition overcommitClean : Overcommit :=
  {| OvercommitUID := "uid-cluster"; OvercommitFinalizers := ["kept.finalizer"] |}.

Definition overcommitLegacy : Overcommit :=
  {| OvercommitUID := "uid-cluster";
     OvercommitFinalizers :=
       ["overcommit.finalizer"; "kept.finalizer"; "webhook.finalizer"] |}.

(** Everything succeeds. *)
Definition worldQuiet : OvercommitReconciler.World :=
  {| OvercommitReconciler.labelAnswer := inr "overcommit.inditex.dev/class";
     OvercommitReconciler.getAnswer := inr overcommitClean;
     OvercommitReconciler.updateAnswer := None;
     OvercommitReconciler.issuerIsNil := false;
     OvercommitReconciler.createOrUpdateAnswer := λ _, None;
     OvercommitReconciler.freshAnswer := λ _, inr overcommitClean;
     OvercommitReconciler.statusAnswer := λ _, None |}.

(** The managed objects converge; the status update times out. *)
Definition worldStatusFails : OvercommitReconciler.World :=
  {| OvercommitReconciler.labelAnswer := inr "overcommit.inditex.dev/class";
     OvercommitReconciler.getAnswer := inr overcommitClean;
     OvercommitReconciler.updateAnswer := None;
     OvercommitReconciler.issuerIsNil := false;
     OvercommitReconciler.createOrUpdateAnswer := λ _, None;
     OvercommitReconciler.freshAnswer := λ _, inr overcommitClean;
     OvercommitReconciler.statusAnswer := λ _, Some errTimeout |}.

(** The status update meets a conflict twice, then times out. *)
Definition worldStatusRetries : OvercommitReconciler.World :=
  {| OvercommitReconciler.labelAnswer := inr "overcommit.inditex.dev/class";
     OvercommitReconciler.getAnswer := inr overcommitClean;
     OvercommitReconciler.updateAnswer := None;
     OvercommitReconciler.issuerIsNil := false;
     OvercommitReconciler.createOrUpdateAnswer := λ _, None;
     OvercommitReconciler.freshAnswer := λ _, inr overcommitClean;
     OvercommitReconciler.statusAnswer :=
       λ attempt, if (attempt <? 2)%nat then Some errConflict else Some errTimeout |}.

(** Every status update meets a conflict. *)
Definition worldStatusConflicts : OvercommitReconciler.World :=
  {| OvercommitReconciler.labelAnswer := inr "overcommit.inditex.dev/class";
     OvercommitReconciler.getAnswer := inr overcommitClean;
     OvercommitReconciler.updateAnswer := None;
     OvercommitReconciler.issuerIsNil := false;
     OvercommitReconciler.createOrUpdateAnswer := λ _, None;
     OvercommitReconciler.freshAnswer := λ _, inr overcommitClean;
     OvercommitReconciler.statusAnswer := λ _, Some errConflict |}.

(** The object is gone when the status writer looks for it. *)
Definition worldGone : OvercommitReconciler.World :=
  {| OvercommitReconciler.labelAnswer := inr "overcommit.inditex.dev/class";
     OvercommitReconciler.getAnswer := inr overcommitClean;
     OvercommitReconciler.updateAnswer := None;
     OvercommitReconciler.issuerIsNil := false;
     OvercommitReconciler.createOrUpdateAnswer := λ _, None;
     OvercommitReconciler.freshAnswer := λ _, inl errNotFound;
     OvercommitReconciler.statusAnswer := λ _, None |}.

(** The object still carries the two legacy finalizers. *)
Definition worldLegacy : OvercommitReconciler.World :=
  {| OvercommitReconciler.labelAnswer := inr "overcommit.inditex.dev/class";
     OvercommitReconciler.getAnswer := inr overcommitLegacy;
     OvercommitReconciler.updateAnswer := None;
     OvercommitReconciler.issuerIsNil := false;
     OvercommitReconciler.createOrUpdateAnswer := λ _, None;
     OvercommitReconciler.freshAnswer := λ _, inr overcommitClean;
     OvercommitReconciler.statusAnswer := λ _, None |}.

(** A conflict on the create-or-update of [m], success elsewhere. *)
Definition worldConflictOn (m : OvercommitReconciler.Managed) : OvercommitReconciler.World :=
  {| OvercommitReconciler.labelAnswer := inr "overcommit.inditex.dev/class";
     OvercommitReconciler.getAnswer := inr overcommitClean;
     OvercommitReconciler.updateAnswer := None;
     OvercommitReconciler.issuerIsNil := false;
     OvercommitReconciler.createOrUpdateAnswer :=
       λ m', if decide (m' = m) then Some errConflict else None;
     OvercommitReconciler.freshAnswer := λ _, inr overcommitClean;
     OvercommitReconciler.statusAnswer := λ _, None |}.

Definition classReady : OvercommitClass :=
  {| ClassName := "gold";
     DeletionTimestampIsZero := true;
     ClassFinalizers := ["overcommitclass.finalizer"];
     ClassOwnerReferences := [{| RefUID := "uid-cluster"; RefKind := "Overcommit" |}] |}.

(** The class is settled and its four objects converge; [metrics] and
    [status] are what [getTotalClasses] and [updateResourcesStatus] return. *)
Definition classWorld (metrics status : option error) : OvercommitClassReconciler.World :=
  {| OvercommitClassReconciler.labelAnswer := inr "overcommit.inditex.dev/class";
     OvercommitClassReconciler.getAnswer := inr classReady;
     OvercommitClassReconciler.deleteAnswer := λ _, None;
     OvercommitClassReconciler.cleanupLabelAnswer := inr "overcommit.inditex.dev/class";
     OvercommitClassReconciler.updateAnswer := None;
     OvercommitClassReconciler.overcommitAnswer := inr overcommitClean;
     OvercommitClassReconciler.setControllerReferenceAnswer := inr [];
     OvercommitClassReconciler.createOrUpdateAnswer := λ _, None;
     OvercommitClassReconciler.totalClassesAnswer := metrics;
     OvercommitClassReconciler.resourcesStatusAnswer := status |}.

(** A controller reference as the samples set it: the owner's reference is
    appended. *)
Definition sampleSetControllerReference (overcommit : Overcommit)
    (refs : list OwnerReference) : error + list OwnerReference :=
  inr (refs ++ [{| RefUID := OvercommitUID overcommit; RefKind := "Overcommit" |}]).

Definition serviceDesired : Service :=
  {| CreationTimestampIsZero := true; OwnerReferences := [];
     Labels := None; Annotations := None;
     Spec := {| Selector := Some {[ "app" := "overcommit-webhook" ]};
                Ports := Some [portHttps]; ServiceType := "ClusterIP" |} |}.

(** The service as found in the cluster, with another selector. *)
Definition serviceObserved : Service :=
  {| CreationTimestampIsZero := false;
     OwnerReferences := [{| RefUID := "uid-cluster"; RefKind := "Overcommit" |}];
     Labels := None; Annotations := None;
     Spec := {| Selector := Some {[ "app" := "something-else" ]};
                Ports := Some [portHttps]; ServiceType := "ClusterIP" |} |}.

Definition deploymentGenerated : Deployment :=
  {| CreationTimestampIsZero := true; OwnerReferences := [];
     Labels := Some {[ "app" := "overcommit-webhook" ]}; Annotations := None;
     Spec := {| Replicas := Some 1%Z;
                TemplateAnnotations := None;
                TemplateLabels := Some {[ "app" := "overcommit-webhook" ]};
                NodeSelector := None;
                Tolerations := Some [tolNotReady30];
                Containers := [{| Image := "placeholder"; Env := Some [envA1] |}] |} |}.

(** The deployment as found in the cluster: an older image, a node
    selector nobody asked for, and 60 seconds where 30 are wanted. *)
Definition deploymentObserved : Deployment :=
  {| CreationTimestampIsZero := false;
     OwnerReferences := [{| RefUID := "uid-cluster"; RefKind := "Overcommit" |}];
     Labels := Some {[ "app" := "overcommit-webhook" ]}; Annotations := None;
     Spec := {| Replicas := Some 3%Z;
                TemplateAnnotations := None;
                TemplateLabels := Some {[ "app" := "overcommit-webhook" ]};
                NodeSelector := Some {[ "disk" := "ssd" ]};
                Tolerations := Some [tolNotReady60];
                Containers := [{| Image := "registry/operator:1.0.0"; Env := Some [envA1] |}] |} |}.

(** ** More of the equality kernel: views used to state what it decides *)

(** The (name, value) pairs of a slice of environment variables, the two
    fields [envVarsEqual] reads. *)
Definition envPairs (a : slice EnvVar) : list (string * string) :=
  (λ env, (EnvName env, EnvValue env)) <$> elems a.

(** Two tolerations differ in exactly one of the five parts of the key. *)
Definition differInOnePart (x y : Toleration) : Prop :=
  let sameKey := Key x = Key y in
  let sameOperator := Operator x = Operator y in
  let sameValue := Value x = Value y in
  let sameEffect := Effect x = Effect y in
  let sameSeconds := isNil (TolerationSeconds x) = isNil (TolerationSeconds y) in
  (¬ sameKey ∧ sameOperator ∧ sameValue ∧ sameEffect ∧ sameSeconds)
  ∨ (sameKey ∧ ¬ sameOperator ∧ sameValue ∧ sameEffect ∧ sameSeconds)
  ∨ (sameKey ∧ sameOperator ∧ ¬ sameValue ∧ sameEffect ∧ sameSeconds)
  ∨ (sameKey ∧ sameOperator ∧ sameValue ∧ ¬ sameEffect ∧ sameSeconds)
  ∨ (sameKey ∧ sameOperator ∧ sameValue ∧ sameEffect ∧ ¬ sameSeconds).

(** ** The class reconciler's utils.go: [webhookChanged] *)

(** [admissionregistration/v1]: the fields of a mutating webhook that the
    operator sets or reads. *)
Record RuleWithOperations := {
  Operations : slice string;
  APIGroups : slice string;
  APIVersions : slice string;
  Resources : slice string
}.

Record ServiceReference := {
  ServiceNamespace : string;
  ServiceName : string;
  ServicePath : option string
}.

Record MatchCondition := {
  MatchName : string;
  Expression : string
}.

Record MutatingWebhook := {
  MutatingWebhookName : string;
  ClientConfigServiceRef : option ServiceReference;
  Rules : slice RuleWithOperations;
  FailurePolicy : option string;
  WebhookAdmissionReviewVersions : slice string;
  MatchConditions : slice MatchCondition
}.

#[global] Instance RuleWithOperations_eq_dec : EqDecision RuleWithOperations.
Proof. solve_decision. Defined.
#[global] Instance ServiceReference_eq_dec : EqDecision ServiceReference.
Proof. solve_decision. Defined.
#[global] Instance MatchCondition_eq_dec : EqDecision MatchCondition.
Proof. solve_decision. Defined.
#[global] Instance MutatingWebhook_eq_dec : EqDecision MutatingWebhook.
Proof. solve_decision. Defined.

(** An [interface{}] argument: a [MutatingWebhook] value, or a value of
    another type, on which the type assertion fails. *)
Inductive AnyValue :=
| AMutatingWebhook (w : MutatingWebhook)
| AnotherValue.

(** [for i, x := range xs { if i >= len(ys) || differ(x, ys[i]) { return true } }],
    from index [i] on. *)
Fixpoint rangeDiffers {A} (differ : A → A → bool) (i : nat) (xs ys : list A) : bool :=
  match xs with
  | [] => false
  | x :: xs =>
      match ys !! i with
      | None => true
      | Some y => if differ x y then true else rangeDiffers differ (S i) xs ys
      end
  end.

Definition webhookChanged (updated current : AnyValue) : bool :=
  match updated, current with
  | AMutatingWebhook updatedWebhook, AMutatingWebhook currentWebhook =>
      if bool_decide (MutatingWebhookName updatedWebhook
                      ≠ MutatingWebhookName currentWebhook) then true
      else if negb (len (Rules updatedWebhook) =? len (Rules currentWebhook))%nat then true
      else if
        match ClientConfigServiceRef updatedWebhook,
              ClientConfigServiceRef currentWebhook with
        | Some updatedService, Some currentService =>
            bool_decide (ServiceName updatedService ≠ ServiceName currentService)
            || bool_decide (ServiceNamespace updatedService
                            ≠ ServiceNamespace currentService)
        | updatedService, currentService =>
            negb (eqb (isNil updatedService) (isNil currentService))
        end then true
      else if negb (len (WebhookAdmissionReviewVersions updatedWebhook)
                    =? len (WebhookAdmissionReviewVersions currentWebhook))%nat then true
      else if rangeDiffers (λ version current, bool_decide (version ≠ current)) 0
                (elems (WebhookAdmissionReviewVersions updatedWebhook))
                (elems (WebhookAdmissionReviewVersions currentWebhook)) then true
      else if negb (len (MatchConditions updatedWebhook)
                    =? len (MatchConditions currentWebhook))%nat then true
      else if rangeDiffers
                (λ updatedCondition currentCondition,
                   bool_decide (MatchName updatedCondition ≠ MatchName currentCondition)
                   || bool_decide (Expression updatedCondition
                                   ≠ Expression currentCondition)) 0
                (elems (MatchConditions updatedWebhook))
                (elems (MatchConditions currentWebhook)) then true
      else false
  | _, _ => true
  end.

(** The parts of a mutating webhook that [webhookChanged] compares: name,
    number of rules, name and namespace of the client-config service,
    admission review versions, and name and expression of each match
    condition. *)
Definition comparedParts (w : MutatingWebhook)
    : string * nat * option (string * string) * list string * list (string * string) :=
  (MutatingWebhookName w,
   len (Rules w),
   (λ s, (ServiceName s, ServiceNamespace s)) <$> ClientConfigServiceRef w,
   elems (WebhookAdmissionReviewVersions w),
   (λ c, (MatchName c, Expression c)) <$> elems (MatchConditions w)).

Definition webhookSample : MutatingWebhook :=
  {| MutatingWebhookName := "gold.overcommit.inditex.dev";
     ClientConfigServiceRef :=
       Some {| ServiceNamespace := "k8s-overcommit"; ServiceName := "gold-service";
               ServicePath := Some "/mutate--v1-pod" |};
     Rules := Some [{| Operations := Some ["CREATE"]; APIGroups := Some [""];
                       APIVersions := Some ["v1"]; Resources := Some ["pods"] |}];
     FailurePolicy := Some "Ignore";
     WebhookAdmissionReviewVersions := Some ["v1"];
     MatchConditions :=
       Some [{| MatchName := "exclude-namespaces";
                Expression := "!(request.namespace in ['kube-system'])" |}] |}.

(** The same webhook with other rules (same number), another failure
    policy and another service path. *)
Definition webhookSampleOtherRules : MutatingWebhook :=
  {| MutatingWebhookName := "gold.overcommit.inditex.dev";
     ClientConfigServiceRef :=
       Some {| ServiceNamespace := "k8s-overcommit"; ServiceName := "gold-service";
               ServicePath := Some "/other" |};
     Rules := Some [{| Operations := Some ["CREATE"; "UPDATE"]; APIGroups := Some [""];
                       APIVersions := Some ["v1"]; Resources := Some ["pods"] |}];
     FailurePolicy := Some "Fail";
     WebhookAdmissionReviewVersions := Some ["v1"];
     MatchConditions :=
       Some [{| MatchName := "exclude-namespaces";
                Expression := "!(request.namespace in ['kube-system'])" |}] |}.

(** [w] with other rules, another failure policy and another path of the
    client-config service (if it has one). *)
Definition withRuleContent (w : MutatingWebhook) (rules : slice RuleWithOperations)
    (failurePolicy path : option string) : MutatingWebhook :=
  {| MutatingWebhookName := MutatingWebhookName w;
     ClientConfigServiceRef :=
       (λ s, {| ServiceNamespace := ServiceNamespace s; ServiceName := ServiceName s;
                ServicePath := path |}) <$> ClientConfigServiceRef w;
     Rules := rules;
     FailurePolicy := failurePolicy;
     WebhookAdmissionReviewVersions := WebhookAdmissionReviewVersions w;
     MatchConditions := MatchConditions w |}.

(** ** The status of the Overcommit object: [setCondition] and
    [updateOvercommitStatus] *)

From stdpp Require Import pretty.

(** [metav1.Time]: the zero time ([None]) or a time. *)
Definition Time : Type := option Z.

Definition IsZero (t : Time) : bool := isNil t.

(** [metav1.Condition]; [ConditionStatus] is one of the strings "True",
    "False" and "Unknown". *)
Record Condition := {
  ConditionType : string;
  ConditionStatus : string;
  ConditionReason : string;
  ConditionMessage : string;
  LastTransitionTime : Time
}.

Record ResourceStatus := {
  ResourceName : string;
  Ready : bool
}.

Record OvercommitStatus := {
  StatusResources : slice ResourceStatus;
  StatusConditions : slice Condition
}.

#[global] Instance Condition_eq_dec : EqDecision Condition.
Proof. solve_decision. Defined.
#[global] Instance ResourceStatus_eq_dec : EqDecision ResourceStatus.
Proof. solve_decision. Defined.
#[global] Instance OvercommitStatus_eq_dec : EqDecision OvercommitStatus.
Proof. solve_decision. Defined.

Definition withLastTransitionTime (condition : Condition) (t : Time) : Condition :=
  {| ConditionType := ConditionType condition;
     ConditionStatus := ConditionStatus condition;
     ConditionReason := ConditionReason condition;
     ConditionMessage := ConditionMessage condition;
     LastTransitionTime := t |}.

Definition withConditions (status : OvercommitStatus) (conditions : slice Condition)
    : OvercommitStatus :=
  {| StatusResources := StatusResources status; StatusConditions := conditions |}.

Definition withResources (status : OvercommitStatus) (resources : slice ResourceStatus)
    : OvercommitStatus :=
  {| StatusResources := resources; StatusConditions := StatusConditions status |}.

(** [metav1.Now()]: the [tick]-th reading of the clock, which is never the
    zero time. *)
Definition Now (clock : nat → Z) (tick : nat) : nat * Time :=
  (S tick, Some (clock tick)).

(** The loop of [setCondition] over the conditions: [None] when it runs off
    the end, the conditions it leaves when it returns from inside. *)
Fixpoint setConditionRange (clock : nat → Z) (tick : nat) (newCondition : Condition)
    (conditions : list Condition) : option (nat * list Condition) :=
  match conditions with
  | [] => None
  | existingCondition :: conditions =>
      if bool_decide (ConditionType existingCondition = ConditionType newCondition) then
        if bool_decide (ConditionStatus existingCondition ≠ ConditionStatus newCondition)
           || bool_decide (ConditionReason existingCondition ≠ ConditionReason newCondition)
           || bool_decide (ConditionMessage existingCondition
                           ≠ ConditionMessage newCondition)
        then
          let '(tick, newCondition) :=
            if bool_decide (ConditionStatus existingCondition
                            ≠ ConditionStatus newCondition)
            then let '(tick, now) := Now clock tick in
                 (tick, withLastTransitionTime newCondition now)
            else (tick, withLastTransitionTime newCondition
                          (LastTransitionTime existingCondition)) in
          Some (tick, newCondition :: conditions)
        else Some (tick, existingCondition :: conditions)
      else
        '(tick, conditions) ← setConditionRange clock tick newCondition conditions;
        Some (tick, existingCondition :: conditions)
  end.

Definition setCondition (clock : nat → Z) (tick : nat) (status : OvercommitStatus)
    (newCondition : Condition) : nat * OvercommitStatus :=
  let '(tick, newCondition) :=
    if IsZero (LastTransitionTime newCondition)
    then let '(tick, now) := Now clock tick in
         (tick, withLastTransitionTime newCondition now)
    else (tick, newCondition) in
  match setConditionRange clock tick newCondition (elems (StatusConditions status)) with
  | Some (tick, conditions) => (tick, withConditions status (Some conditions))
  | None =>
      (tick, withConditions status
               (Some (elems (StatusConditions status) ++ [newCondition])))
  end.

(** What [setCondition] puts in the place of the first condition [existing]
    of the type of [newCondition]. *)
Definition mergedCondition (now : Time) (existing newCondition : Condition) : Condition :=
  if bool_decide (ConditionStatus existing = ConditionStatus newCondition) then
    if bool_decide (ConditionReason existing = ConditionReason newCondition)
       && bool_decide (ConditionMessage existing = ConditionMessage newCondition)
    then existing
    else withLastTransitionTime newCondition (LastTransitionTime existing)
  else withLastTransitionTime newCondition now.

(** Two conditions say the same: type, status, reason and message agree. *)
Definition sameContent (c c' : Condition) : Prop :=
  ConditionType c = ConditionType c'
  ∧ ConditionStatus c = ConditionStatus c'
  ∧ ConditionReason c = ConditionReason c'
  ∧ ConditionMessage c = ConditionMessage c'.

(** *** [updateOvercommitStatus] *)

(** What the cluster answers to a status update: the read of each managed
    object, the read of the label, the update of the status subresource,
    and the readings of the clock. *)
Record StatusWorld := {
  readAnswer : OvercommitReconciler.Managed → option error;
  statusLabelAnswer : error + string;
  statusUpdateAnswer : option error;
  clock : nat → Z
}.

(** [checkResourceStatus(name, resourceType, checkFunc)], with [err] what
    [checkFunc] returns. *)
Definition checkResourceStatus (resourceStatuses : gmap string ResourceStatus)
    (name resourceType : string) (err : option error) : gmap string ResourceStatus :=
  let ready := isNil err in
  <[resourceType := {| ResourceName := name; Ready := ready |}]> resourceStatuses.

Definition resourceTypes : list string :=
  ["issuer";
   "overcommitclass-deployment"; "overcommitclass-service";
   "overcommitclass-certificate"; "overcommitclass-webhook";
   "pod-deployment"; "pod-service"; "pod-certificate"; "pod-webhook";
   "overcommitclass-controller"].

(** The loop over [resourceTypes]: the slice of statuses, [allReady] and
    [readyCount]. *)
Definition collectStatuses (resourceStatuses : gmap string ResourceStatus)
    (resourceTypes : list string) : list ResourceStatus * bool * nat :=
  foldl (λ '(resourceStatusSlice, allReady, readyCount) resourceType,
           match resourceStatuses !! resourceType with
           | Some status =>
               if Ready status
               then (resourceStatusSlice ++ [status], allReady, S readyCount)
               else (resourceStatusSlice ++ [status], false, readyCount)
           | None => (resourceStatusSlice, allReady, readyCount)
           end)
        ([], true, 0) resourceTypes.

Section status.
Import OvercommitReconciler.
(** The names of the generated objects; the pod webhook configuration is
    generated from the label. *)
Context (names : Managed → string) (podWebhookName : string → string).

Definition updateOvercommitStatus (w : StatusWorld) (status : OvercommitStatus)
    : OvercommitStatus * option error :=
  let resourceStatuses : gmap string ResourceStatus := ∅ in
  let resourceStatuses :=
    checkResourceStatus resourceStatuses (names issuer) "issuer"
      (readAnswer w issuer) in
  let resourceStatuses :=
    checkResourceStatus resourceStatuses (names overcommitClassDeployment)
      "overcommitclass-deployment" (readAnswer w overcommitClassDeployment) in
  let resourceStatuses :=
    checkResourceStatus resourceStatuses (names overcommitClassService)
      "overcommitclass-service" (readAnswer w overcommitClassService) in
  let resourceStatuses :=
    checkResourceStatus resourceStatuses (names overcommitClassCertificate)
      "overcommitclass-certificate" (readAnswer w overcommitClassCertificate) in
  let resourceStatuses :=
    checkResourceStatus resourceStatuses (names overcommitClassWebhook)
      "overcommitclass-webhook" (readAnswer w overcommitClassWebhook) in
  let resourceStatuses :=
    checkResourceStatus resourceStatuses (names validatingPodDeployment)
      "pod-deployment" (readAnswer w validatingPodDeployment) in
  let resourceStatuses :=
    checkResourceStatus resourceStatuses (names validatingPodService)
      "pod-service" (readAnswer w validatingPodService) in
  let resourceStatuses :=
    checkResourceStatus resourceStatuses (names validatingpodCertificate)
      "pod-certificate" (readAnswer w validatingpodCertificate) in
  let label :=
    match statusLabelAnswer w with
    | inl err => "overcommit.inditex.dev/class"
    | inr label => label
    end in
  let resourceStatuses :=
    checkResourceStatus resourceStatuses (podWebhookName label)
      "pod-webhook" (readAnswer w validatingPodWebhook) in
  let resourceStatuses :=
    checkResourceStatus resourceStatuses (names occontroller)
      "overcommitclass-controller" (readAnswer w occontroller) in
  let '(resourceStatusSlice, allReady, readyCount) :=
    collectStatuses resourceStatuses resourceTypes in
  let status := withResources status (Some resourceStatusSlice) in
  let '(tick, now) := Now (clock w) 0 in
  let condition :=
    {| ConditionType := "ResourcesReady";
       ConditionStatus := "True";
       ConditionReason := "AllResourcesReady";
       ConditionMessage :=
         "All " +:+ pretty (length resourceStatusSlice) +:+ " managed resources are ready";
       LastTransitionTime := now |} in
  let condition :=
    if negb allReady then
      {| ConditionType := ConditionType condition;
         ConditionStatus := "False";
         ConditionReason := "ResourcesNotReady";
         ConditionMessage :=
           pretty readyCount +:+ " of " +:+ pretty (length resourceStatusSlice)
           +:+ " resources are ready";
         LastTransitionTime := LastTransitionTime condition |}
    else condition in
  let '(tick, status) := setCondition (clock w) tick status condition in
  (status, statusUpdateAnswer w).

(** The rows of the status, in the order of [resourceTypes]. *)
Definition statusOrder : list Managed :=
  [issuer; overcommitClassDeployment; overcommitClassService;
   overcommitClassCertificate; overcommitClassWebhook;
   validatingPodDeployment; validatingPodService; validatingpodCertificate;
   validatingPodWebhook; occontroller].

Definition statusRow (w : StatusWorld) (m : Managed) : ResourceStatus :=
  {| ResourceName :=
       match m with
       | validatingPodWebhook =>
           podWebhookName match statusLabelAnswer w with
                          | inl _ => "overcommit.inditex.dev/class"
                          | inr label => label
                          end
       | _ => names m
       end;
     Ready := isNil (readAnswer w m) |}.

(** The content of the "ResourcesReady" condition for [ready] ready rows
    out of [total]. *)
Definition readyCondition (ready total : nat) (t : Time) : Condition :=
  if (ready =? total)%nat then
    {| ConditionType := "ResourcesReady"; ConditionStatus := "True";
       ConditionReason := "AllResourcesReady";
       ConditionMessage := "All " +:+ pretty total +:+ " managed resources are ready";
       LastTransitionTime := t |}
  else
    {| ConditionType := "ResourcesReady"; ConditionStatus := "False";
       ConditionReason := "ResourcesNotReady";
       ConditionMessage :=
         pretty ready +:+ " of " +:+ pretty total +:+ " resources are ready";
       LastTransitionTime := t |}.

End status.

Definition sampleNames (m : OvercommitReconciler.Managed) : string :=
  match m with
  | OvercommitReconciler.issuer => "overcommit-issuer"
  | OvercommitReconciler.overcommitClassCertificate => "overcommitclass-validating-certificate"
  | OvercommitReconciler.overcommitClassDeployment => "overcommitclass-validating-webhook"
  | OvercommitReconciler.overcommitClassService => "overcommitclass-validating-service"
  | OvercommitReconciler.overcommitClassWebhook => "overcommitclass-validating-configuration"
  | OvercommitReconciler.validatingpodCertificate => "pod-validating-certificate"
  | OvercommitReconciler.validatingPodDeployment => "pod-validating-webhook"
  | OvercommitReconciler.validatingPodService => "pod-validating-service"
  | OvercommitReconciler.validatingPodWebhook => "pod-validating-configuration"
  | OvercommitReconciler.occontroller => "overcommitclass-controller"
  end.

(** The pod service is missing; everything else is read. *)
Definition statusWorldSample : StatusWorld :=
  {| readAnswer := λ m,
       if decide (m = OvercommitReconciler.validatingPodService)
       then Some errNotFound else None;
     statusLabelAnswer := inr "overcommit.inditex.dev/class";
     statusUpdateAnswer := None;
     clock := λ tick, (1700000000 + Z.of_nat tick)%Z |}.

Definition statusEmpty : OvercommitStatus :=
  {| StatusResources := None; StatusConditions := None |}.

(** The same answers an hour later; the update of the status meets a
    conflict. *)
Definition statusWorldLater : StatusWorld :=
  {| readAnswer := readAnswer statusWorldSample;
     statusLabelAnswer := statusLabelAnswer statusWorldSample;
     statusUpdateAnswer := Some errConflict;
     clock := λ tick, (1700003600 + Z.of_nat tick)%Z |}.

(** ** The mutate functions the class reconciler hands to
    [controllerutil.CreateOrUpdate] *)

Definition MutatingWebhookConfiguration : Type := Object (slice MutatingWebhook).

(** An error or a panic ends a mutate function. *)
Definition mutated_bind {A B} (f : A → Mutated B) (m : Mutated A) : Mutated B :=
  match m with
  | Done x => f x
  | Failed err => Failed err
  | Panicked => Panicked
  end.

#[global] Instance Mutated_ret : MRet Mutated := @Done.
#[global] Instance Mutated_bind : MBind Mutated := @mutated_bind.

(** [containers[0]]; a panic on an empty list. *)
Definition index0 (containers : list Container) : Mutated Container :=
  match containers with
  | container :: _ => Done container
  | [] => Panicked
  end.

Definition withSelector (spec : ServiceSpec) (selector : gomap string) : ServiceSpec :=
  {| Selector := selector; Ports := Ports spec; ServiceType := ServiceType spec |}.

Definition withPorts (spec : ServiceSpec) (ports : slice ServicePort) : ServiceSpec :=
  {| Selector := Selector spec; Ports := ports; ServiceType := ServiceType spec |}.

Definition withServiceType (spec : ServiceSpec) (type : string) : ServiceSpec :=
  {| Selector := Selector spec; Ports := Ports spec; ServiceType := type |}.

Definition withDNSNames (spec : CertificateSpec) (names : slice string) : CertificateSpec :=
  {| DNSNames := names; IssuerRefName := IssuerRefName spec;
     IssuerRefKind := IssuerRefKind spec; SecretName := SecretName spec |}.

(** [spec.IssuerRef = updated.IssuerRef]. *)
Definition withIssuerRef (spec updated : CertificateSpec) : CertificateSpec :=
  {| DNSNames := DNSNames spec; IssuerRefName := IssuerRefName updated;
     IssuerRefKind := IssuerRefKind updated; SecretName := SecretName spec |}.

Definition withSecretName (spec : CertificateSpec) (name : string) : CertificateSpec :=
  {| DNSNames := DNSNames spec; IssuerRefName := IssuerRefName spec;
     IssuerRefKind := IssuerRefKind spec; SecretName := name |}.

(** The loop over the webhooks of the regenerated configuration, from index
    [i] on: whether it finds a webhook that [webhookChanged] reports against
    the webhook at the same index of the current configuration. *)
Fixpoint anyWebhookChanged (i : nat) (updatedWebhooks currentWebhooks : list MutatingWebhook)
    : bool :=
  match updatedWebhooks with
  | [] => false
  | updatedWebhook :: updatedWebhooks =>
      match currentWebhooks !! i with
      | Some currentWebhook =>
          if webhookChanged (AMutatingWebhook updatedWebhook)
                            (AMutatingWebhook currentWebhook)
          then true
          else anyWebhookChanged (S i) updatedWebhooks currentWebhooks
      | None => anyWebhookChanged (S i) updatedWebhooks currentWebhooks
      end
  end.

Section class_upsert.
(** [controllerutil.SetControllerReference(overcommitClass, obj, r.Scheme)]
    on the owner references of [obj]. *)
Context (SetControllerReference :
           OvercommitClass → list OwnerReference → error + list OwnerReference).

Definition setClassControllerReference {S} (overcommitClass : OvercommitClass)
    (obj : Object S) : Mutated (Object S) :=
  match SetControllerReference overcommitClass (OwnerReferences obj) with
  | inl err => Failed err
  | inr refs => Done (withOwnerReferences obj refs)
  end.

(** The deployment; [updatedDeployment] is what [resources.CreateDeployment]
    returns for the class. *)
Definition mutateClassDeployment (overcommitClass : OvercommitClass)
    (updatedDeployment deployment : Deployment) : Mutated Deployment :=
  if CreationTimestampIsZero deployment then
    let deployment := withSpec deployment (Spec updatedDeployment) in
    let deployment := withLabels deployment (Labels updatedDeployment) in
    let deployment := withAnnotations deployment (Annotations updatedDeployment) in
    setClassControllerReference overcommitClass deployment
  else
    let updated := false in
    '(deployment, updated) ←
      (if (0 <? length (Containers (Spec updatedDeployment)))%nat
          && (0 <? length (Containers (Spec deployment)))%nat then
         updatedContainer ← index0 (Containers (Spec updatedDeployment));
         container ← index0 (Containers (Spec deployment));
         if bool_decide (Image updatedContainer ≠ Image container)
         then mret (withSpec deployment
                      (setContainer0Image (Spec deployment) (Image updatedContainer)),
                    true)
         else mret (deployment, updated)
       else mret (deployment, updated));
    '(deployment, updated) ←
      (if (0 <? length (Containers (Spec updatedDeployment)))%nat
          && (0 <? length (Containers (Spec deployment)))%nat then
         updatedContainer ← index0 (Containers (Spec updatedDeployment));
         container ← index0 (Containers (Spec deployment));
         if negb (envVarsEqual (Env updatedContainer) (Env container))
         then mret (withSpec deployment
                      (setContainer0Env (Spec deployment) (Env updatedContainer)),
                    true)
         else mret (deployment, updated)
       else mret (deployment, updated));
    let '(deployment, updated) :=
      if negb (mapsEqual (TemplateAnnotations (Spec updatedDeployment))
                         (TemplateAnnotations (Spec deployment)))
      then (withSpec deployment
              (withTemplateAnnotations (Spec deployment)
                 (TemplateAnnotations (Spec updatedDeployment))), true)
      else (deployment, updated) in
    let '(deployment, updated) :=
      if negb (mapsEqual (TemplateLabels (Spec updatedDeployment))
                         (TemplateLabels (Spec deployment)))
      then (withSpec deployment
              (withTemplateLabels (Spec deployment)
                 (TemplateLabels (Spec updatedDeployment))), true)
      else (deployment, updated) in
    let '(deployment, updated) :=
      if negb (mapsEqual (NodeSelector (Spec updatedDeployment))
                         (NodeSelector (Spec deployment)))
      then (withSpec deployment
              (withNodeSelector (Spec deployment)
                 (NodeSelector (Spec updatedDeployment))), true)
      else (deployment, updated) in
    let '(deployment, updated) :=
      if negb (TolerationsEqual (Tolerations (Spec updatedDeployment))
                                (Tolerations (Spec deployment)))
      then (withSpec deployment
              (withTolerations (Spec deployment)
                 (Tolerations (Spec updatedDeployment))), true)
      else (deployment, updated) in
    if updated then setClassControllerReference overcommitClass deployment
    else mret deployment.

(** The deployment in the earlier version of the controller
    ([overcommitclass_controller.go]): the node selector and the
    tolerations are not looked at. *)
Definition mutateClassDeploymentEarlier (overcommitClass : OvercommitClass)
    (updatedDeployment deployment : Deployment) : Mutated Deployment :=
  if CreationTimestampIsZero deployment then
    let deployment := withSpec deployment (Spec updatedDeployment) in
    let deployment := withLabels deployment (Labels updatedDeployment) in
    let deployment := withAnnotations deployment (Annotations updatedDeployment) in
    setClassControllerReference overcommitClass deployment
  else
    let updated := false in
    '(deployment, updated) ←
      (if (0 <? length (Containers (Spec updatedDeployment)))%nat
          && (0 <? length (Containers (Spec deployment)))%nat then
         updatedContainer ← index0 (Containers (Spec updatedDeployment));
         container ← index0 (Containers (Spec deployment));
         if bool_decide (Image updatedContainer ≠ Image container)
         then mret (withSpec deployment
                      (setContainer0Image (Spec deployment) (Image updatedContainer)),
                    true)
         else mret (deployment, updated)
       else mret (deployment, updated));
    '(deployment, updated) ←
      (if (0 <? length (Containers (Spec updatedDeployment)))%nat
          && (0 <? length (Containers (Spec deployment)))%nat then
         updatedContainer ← index0 (Containers (Spec updatedDeployment));
         container ← index0 (Containers (Spec deployment));
         if negb (envVarsEqual (Env updatedContainer) (Env container))
         then mret (withSpec deployment
                      (setContainer0Env (Spec deployment) (Env updatedContainer)),
                    true)
         else mret (deployment, updated)
       else mret (deployment, updated));
    let '(deployment, updated) :=
      if negb (mapsEqual (TemplateAnnotations (Spec updatedDeployment))
                         (TemplateAnnotations (Spec deployment)))
      then (withSpec deployment
              (withTemplateAnnotations (Spec deployment)
                 (TemplateAnnotations (Spec updatedDeployment))), true)
      else (deployment, updated) in
    let '(deployment, updated) :=
      if negb (mapsEqual (TemplateLabels (Spec updatedDeployment))
                         (TemplateLabels (Spec deployment)))
      then (withSpec deployment
              (withTemplateLabels (Spec deployment)
                 (TemplateLabels (Spec updatedDeployment))), true)
      else (deployment, updated) in
    if updated then setClassControllerReference overcommitClass deployment
    else mret deployment.

(** The service. *)
Definition mutateClassService (overcommitClass : OvercommitClass)
    (updatedService service : Service) : Mutated Service :=
  if CreationTimestampIsZero service then
    let service := withSpec service (Spec updatedService) in
    let service := withLabels service (Labels updatedService) in
    let service := withAnnotations service (Annotations updatedService) in
    setClassControllerReference overcommitClass service
  else
    let updated := false in
    let '(service, updated) :=
      if negb (mapsEqual (Selector (Spec updatedService)) (Selector (Spec service)))
      then (withSpec service (withSelector (Spec service) (Selector (Spec updatedService))),
            true)
      else (service, updated) in
    let '(service, updated) :=
      if negb (portsEqual (Ports (Spec updatedService)) (Ports (Spec service)))
      then (withSpec service (withPorts (Spec service) (Ports (Spec updatedService))), true)
      else (service, updated) in
    let '(service, updated) :=
      if bool_decide (ServiceType (Spec updatedService) ≠ ServiceType (Spec service))
      then (withSpec service
              (withServiceType (Spec service) (ServiceType (Spec updatedService))), true)
      else (service, updated) in
    let '(service, updated) :=
      if negb (mapsEqual (Annotations updatedService) (Annotations service))
      then (withAnnotations service (Annotations updatedService), true)
      else (service, updated) in
    let '(service, updated) :=
      if negb (mapsEqual (Labels updatedService) (Labels service))
      then (withLabels service (Labels updatedService), true)
      else (service, updated) in
    if updated then setClassControllerReference overcommitClass service
    else mret service.

(** The certificate. *)
Definition mutateClassCertificate (overcommitClass : OvercommitClass)
    (updatedCertificate certificate : Certificate) : Mutated Certificate :=
  if CreationTimestampIsZero certificate then
    let certificate := withSpec certificate (Spec updatedCertificate) in
    let certificate := withLabels certificate (Labels updatedCertificate) in
    let certificate := withAnnotations certificate (Annotations updatedCertificate) in
    setClassControllerReference overcommitClass certificate
  else
    let updated := false in
    let '(certificate, updated) :=
      if negb (slicesEqual (DNSNames (Spec updatedCertificate)) (DNSNames (Spec certificate)))
      then (withSpec certificate
              (withDNSNames (Spec certificate) (DNSNames (Spec updatedCertificate))), true)
      else (certificate, updated) in
    let '(certificate, updated) :=
      if bool_decide (IssuerRefName (Spec updatedCertificate)
                      ≠ IssuerRefName (Spec certificate))
         || bool_decide (IssuerRefKind (Spec updatedCertificate)
                         ≠ IssuerRefKind (Spec certificate))
      then (withSpec certificate
              (withIssuerRef (Spec certificate) (Spec updatedCertificate)), true)
      else (certificate, updated) in
    let '(certificate, updated) :=
      if bool_decide (SecretName (Spec updatedCertificate) ≠ SecretName (Spec certificate))
      then (withSpec certificate
              (withSecretName (Spec certificate) (SecretName (Spec updatedCertificate))),
            true)
      else (certificate, updated) in
    let '(certificate, updated) :=
      if negb (mapsEqual (Annotations updatedCertificate) (Annotations certificate))
      then (withAnnotations certificate (Annotations updatedCertificate), true)
      else (certificate, updated) in
    let '(certificate, updated) :=
      if negb (mapsEqual (Labels updatedCertificate) (Labels certificate))
      then (withLabels certificate (Labels updatedCertificate), true)
      else (certificate, updated) in
    if updated then setClassControllerReference overcommitClass certificate
    else mret certificate.

(** The mutating webhook configuration; its [Webhooks] stand in the place
    of a spec. *)
Definition mutateClassWebhookConfig (overcommitClass : OvercommitClass)
    (updatedWebhookConfig webhookConfig : MutatingWebhookConfiguration)
    : Mutated MutatingWebhookConfiguration :=
  if CreationTimestampIsZero webhookConfig then
    let webhookConfig := withAnnotations webhookConfig (Annotations updatedWebhookConfig) in
    let webhookConfig := withLabels webhookConfig (Labels updatedWebhookConfig) in
    let webhookConfig := withSpec webhookConfig (Spec updatedWebhookConfig) in
    setClassControllerReference overcommitClass webhookConfig
  else
    let updated := false in
    let '(webhookConfig, updated) :=
      if negb (mapsEqual (Annotations updatedWebhookConfig) (Annotations webhookConfig))
      then (withAnnotations webhookConfig (Annotations updatedWebhookConfig), true)
      else (webhookConfig, updated) in
    let '(webhookConfig, updated) :=
      if negb (mapsEqual (Labels updatedWebhookConfig) (Labels webhookConfig))
      then (withLabels webhookConfig (Labels updatedWebhookConfig), true)
      else (webhookConfig, updated) in
    let '(webhookConfig, updated) :=
      if negb (len (Spec updatedWebhookConfig) =? len (Spec webhookConfig))%nat
      then (withSpec webhookConfig (Spec updatedWebhookConfig), true)
      else
        if anyWebhookChanged 0 (elems (Spec updatedWebhookConfig))
             (elems (Spec webhookConfig))
        then (withSpec webhookConfig (Spec updatedWebhookConfig), true)
        else (webhookConfig, updated) in
    if updated then setClassControllerReference overcommitClass webhookConfig
    else mret webhookConfig.

End class_upsert.

(** What the mutate functions compare of an existing object against the
    regenerated one. *)
Definition deploymentInSync (updatedDeployment deployment : Deployment) : bool :=
  match Containers (Spec updatedDeployment), Containers (Spec deployment) with
  | updatedContainer :: _, container :: _ =>
      bool_decide (Image updatedContainer = Image container)
      && envVarsEqual (Env updatedContainer) (Env container)
  | _, _ => true
  end
  && mapsEqual (TemplateAnnotations (Spec updatedDeployment))
               (TemplateAnnotations (Spec deployment))
  && mapsEqual (TemplateLabels (Spec updatedDeployment)) (TemplateLabels (Spec deployment))
  && mapsEqual (NodeSelector (Spec updatedDeployment)) (NodeSelector (Spec deployment))
  && TolerationsEqual (Tolerations (Spec updatedDeployment)) (Tolerations (Spec deployment)).

Definition serviceInSync (updatedService service : Service) : bool :=
  mapsEqual (Selector (Spec updatedService)) (Selector (Spec service))
  && portsEqual (Ports (Spec updatedService)) (Ports (Spec service))
  && bool_decide (ServiceType (Spec updatedService) = ServiceType (Spec service))
  && mapsEqual (Annotations updatedService) (Annotations service)
  && mapsEqual (Labels updatedService) (Labels service).

Definition certificateInSync (updatedCertificate certificate : Certificate) : bool :=
  slicesEqual (DNSNames (Spec updatedCertificate)) (DNSNames (Spec certificate))
  && bool_decide (IssuerRefName (Spec updatedCertificate) = IssuerRefName (Spec certificate))
  && bool_decide (IssuerRefKind (Spec updatedCertificate) = IssuerRefKind (Spec certificate))
  && bool_decide (SecretName (Spec updatedCertificate) = SecretName (Spec certificate))
  && mapsEqual (Annotations updatedCertificate) (Annotations certificate)
  && mapsEqual (Labels updatedCertificate) (Labels certificate).

Definition webhookConfigInSync
    (updatedWebhookConfig webhookConfig : MutatingWebhookConfiguration) : bool :=
  mapsEqual (Annotations updatedWebhookConfig) (Annotations webhookConfig)
  && mapsEqual (Labels updatedWebhookConfig) (Labels webhookConfig)
  && (len (Spec updatedWebhookConfig) =? len (Spec webhookConfig))%nat
  && negb (anyWebhookChanged 0 (elems (Spec updatedWebhookConfig))
             (elems (Spec webhookConfig))).

(** A controller reference as the samples set it for a class: the class
    becomes the one owner. *)
Definition sampleSetClassControllerReference (overcommitClass : OvercommitClass)
    (refs : list OwnerReference) : error + list OwnerReference :=
  inr [{| RefUID := ClassName overcommitClass; RefKind := "OvercommitClass" |}].

Definition webhookConfigDesired : MutatingWebhookConfiguration :=
  {| CreationTimestampIsZero := true; OwnerReferences := [];
     Labels := Some {[ "app" := "overcommit-webhook" ]}; Annotations := None;
     Spec := Some [webhookSample] |}.

(** The configuration as found in the cluster: another match condition. *)
Definition webhookConfigObserved : MutatingWebhookConfiguration :=
  {| CreationTimestampIsZero := false; OwnerReferences := [];
     Labels := Some {[ "app" := "overcommit-webhook" ]}; Annotations := None;
     Spec := Some [{| MutatingWebhookName := MutatingWebhookName webhookSample;
                      ClientConfigServiceRef := ClientConfigServiceRef webhookSample;
                      Rules := Rules webhookSample;
                      FailurePolicy := FailurePolicy webhookSample;
                      WebhookAdmissionReviewVersions :=
                        WebhookAdmissionReviewVersions webhookSample;
                      MatchConditions := Some [] |}] |}.

Definition certificateDesired : Certificate :=
  {| CreationTimestampIsZero := true; OwnerReferences := [];
     Labels := None; Annotations := None;
     Spec := {| DNSNames := Some ["gold-service.k8s-overcommit.svc"];
                IssuerRefName := "overcommit-issuer"; IssuerRefKind := "Issuer";
                SecretName := "gold-tls" |} |}.

(** The certificate as found in the cluster: another DNS name and secret. *)
Definition certificateObserved : Certificate :=
  {| CreationTimestampIsZero := false; OwnerReferences := [];
     Labels := None; Annotations := None;
     Spec := {| DNSNames := Some ["silver-service.k8s-overcommit.svc"];
                IssuerRefName := "overcommit-issuer"; IssuerRefKind := "Issuer";
                SecretName := "silver-tls" |} |}.

(** ** What the calls of a tick of the singleton reconciler depend on *)

(** The first managed object, in the order of [Reconcile], whose
    create-or-update ends the tick. *)
Definition firstFailing (w : OvercommitReconciler.World)
    : option OvercommitReconciler.Managed :=
  find (λ m, negb (OvercommitReconciler.passes w m)) OvercommitReconciler.upsertOrder.

(** What has happened in the tick by the time it makes the call [c]. *)
Definition callNeeds (w : OvercommitReconciler.World) (c : OvercommitReconciler.Call)
    : Prop :=
  match c with
  | OvercommitReconciler.GetOvercommitLabel => True
  | OvercommitReconciler.Get =>
      ∃ label, OvercommitReconciler.labelAnswer w = inr label
  | OvercommitReconciler.Update finalizers =>
      ∃ label overcommit,
        OvercommitReconciler.labelAnswer w = inr label
        ∧ OvercommitReconciler.getAnswer w = inr overcommit
        ∧ (∃ f, f ∈ OvercommitReconciler.legacyFinalizers
                ∧ f ∈ OvercommitFinalizers overcommit)
        ∧ finalizers = filter (λ f, f ∉ OvercommitReconciler.legacyFinalizers)
                         (OvercommitFinalizers overcommit)
  | OvercommitReconciler.CreateOrUpdate m =>
      OvercommitReconciler.reachesManaged w
      ∧ Forall (λ m', OvercommitReconciler.passes w m' = true)
          (OvercommitReconciler.upsertsBefore m)
  | OvercommitReconciler.GetCluster
  | OvercommitReconciler.UpdateOvercommitStatus
  | OvercommitReconciler.Sleep _ =>
      OvercommitReconciler.reachesManaged w
      ∧ ∀ m, OvercommitReconciler.passes w m = true
  end.

(** ** What the calls of a tick of the class reconciler depend on *)

Section class_calls.
Import OvercommitClassReconciler.

(** The order of the deletes of [cleanupResources] and of the
    create-or-update steps of [Reconcile]. *)
Definition classOrder : list Managed := [deployment; service; certificate; webhookConfig].



Definition cleanupLog : list Call :=
  [Delete deployment; Delete service; Delete certificate; GetOvercommitLabel;
   Delete webhookConfig].

(** The tick gets as far as the four managed objects: the class is read,
    is not being deleted, carries the finalizer and the right owner. *)
Definition classReachesManaged (w : World) : Prop :=
  ∃ label overcommitClass overcommitResource,
    labelAnswer w = inr label
    ∧ getAnswer w = inr overcommitClass
    ∧ DeletionTimestampIsZero overcommitClass = true
    ∧ ContainsFinalizer (ClassFinalizers overcommitClass) "overcommitclass.finalizer" = true
    ∧ overcommitAnswer w = inr overcommitResource
    ∧ needsOwnerUpdate (ClassOwnerReferences overcommitClass) overcommitResource = false.



End class_calls.

(** ** More sample worlds *)

(** A class that is being deleted. *)
Definition classDeleting : OvercommitClass :=
  {| ClassName := "gold";
     DeletionTimestampIsZero := false;
     ClassFinalizers := ["kept.finalizer"; "overcommitclass.finalizer"];
     ClassOwnerReferences := [{| RefUID := "uid-cluster"; RefKind := "Overcommit" |}] |}.

(** The class is being deleted; each delete answers [deleted]. *)
Definition classWorldDeleting (deleted : option error) : OvercommitClassReconciler.World :=
  {| OvercommitClassReconciler.labelAnswer := inr "overcommit.inditex.dev/class";
     OvercommitClassReconciler.getAnswer := inr classDeleting;
     OvercommitClassReconciler.deleteAnswer := λ _, deleted;
     OvercommitClassReconciler.cleanupLabelAnswer := inr "overcommit.inditex.dev/class";
     OvercommitClassReconciler.updateAnswer := None;
     OvercommitClassReconciler.overcommitAnswer := inr overcommitClean;
     OvercommitClassReconciler.setControllerReferenceAnswer := inr [];
     OvercommitClassReconciler.createOrUpdateAnswer := λ _, None;
     OvercommitClassReconciler.totalClassesAnswer := None;
     OvercommitClassReconciler.resourcesStatusAnswer := None |}.
(** * Properties of the equality kernel *)

(** The cases of [TestTolerationsEqual]. *)

Example test_both_nil : TolerationsEqual None None = true.
Proof. reflexivity. Qed.

Example test_nil_vs_empty : TolerationsEqual None (Some []) = false.
Proof. reflexivity. Qed.

Example test_same : TolerationsEqual (Some [tolNotReady]) (Some [tolNotReady]) = true.
Proof. vm_compute. reflexivity. Qed.

Example test_different :
  TolerationsEqual (Some [tolNotReady]) (Some [tolUnreachable]) = false.
Proof. vm_compute. reflexivity. Qed.

Example test_lengths :
  TolerationsEqual (Some [tolNotReady]) (Some [tolNotReady; tolUnreachable]) = false.
Proof. vm_compute. reflexivity. Qed.

Example test_order :
  TolerationsEqual (Some [tolUnreachable; tolNotReady])
                   (Some [tolNotReady; tolUnreachable]) = true.
Proof. vm_compute. reflexivity. Qed.

Example test_key :
  createTolerationKey tolNotReady = "node.kubernetes.io/not-ready-Exists--NoExecute-seconds-nil".
Proof. reflexivity. Qed.

(** ** Facts about the maps the helpers build *)

Section built_maps.
Context {A V : Type} (key : A → string) (val : A → V).

Lemma foldl_insert_is_Some (l : list A) (m0 : gmap string V) (k : string) :
  is_Some (foldl (λ m x, <[key x := val x]> m) m0 l !! k)
  ↔ is_Some (m0 !! k) ∨ k ∈ key <$> l.
Proof.
  revert m0. induction l as [|x l IH]; intros m0; simpl.
  - split; [auto | intros [H|H]; [done | by apply elem_of_nil in H]].
  - rewrite IH, lookup_insert_is_Some, elem_of_cons.
    destruct (decide (key x = k)) as [Heq|Hne].
    { split; intros _; [by right; left | by left; left]. }
    split.
    + intros [[Heq|[_ H]]|H]; [by destruct Hne | by left | by right; right].
    + intros [H|[Heq|H]]; [by left; right | by destruct Hne | by right].
Qed.

Lemma foldl_insert_empty_is_Some (l : list A) (k : string) :
  is_Some (foldl (λ m x, <[key x := val x]> m) (∅ : gmap string V) l !! k)
  ↔ k ∈ key <$> l.
Proof.
  rewrite foldl_insert_is_Some, lookup_empty. split; [|auto].
  intros [H|H]; [by destruct H | done].
Qed.

Lemma foldl_insert_value (P : V → Prop) (l : list A) (m0 : gmap string V) :
  (∀ k v, m0 !! k = Some v → P v) → (∀ x, x ∈ l → P (val x)) →
  ∀ k v, foldl (λ m x, <[key x := val x]> m) m0 l !! k = Some v → P v.
Proof.
  revert m0. induction l as [|x l IH]; intros m0 H0 Hl k v; simpl; [by eauto|].
  apply IH.
  - intros k' v'. rewrite lookup_insert_Some.
    intros [[_ <-]|[_ ?]]; [apply Hl; left | eauto].
  - intros y Hy. apply Hl. by right.
Qed.
End built_maps.

Lemma forallb_map_to_list {V} (f : string * V → bool) (m : gmap string V) :
  forallb f (map_to_list m) = true ↔ ∀ k v, m !! k = Some v → f (k, v) = true.
Proof.
  rewrite forallb_forall. split.
  - intros H k v Hkv. apply H, list_elem_of_In. by apply elem_of_map_to_list.
  - intros H [k v] Hin. apply H. by apply elem_of_map_to_list, list_elem_of_In.
Qed.

(** ** What [TolerationsEqual] decides *)

Lemma TolerationsEqual_nonnil (a b : list Toleration) :
  TolerationsEqual (Some a) (Some b) = true
  ↔ length a = length b
    ∧ ∀ x, x ∈ b → createTolerationKey x ∈ createTolerationKey <$> a.
Proof.
  unfold TolerationsEqual, len, tolerationMap; simpl.
  destruct (Nat.eqb_spec (length a) (length b)) as [Hlen|Hlen]; simpl.
  - rewrite forallb_forall. split.
    + intros H. split; [done|]. intros x Hx.
      apply list_elem_of_In, H, bool_decide_eq_true in Hx.
      by apply (foldl_insert_empty_is_Some createTolerationKey id) in Hx.
    + intros [_ H] x Hx. apply bool_decide_eq_true.
      apply (foldl_insert_empty_is_Some createTolerationKey id).
      by apply H, list_elem_of_In.
  - split; [done | by intros [? _]].
Qed.

Lemma TolerationsEqual_refl (a : slice Toleration) : TolerationsEqual a a = true.
Proof.
  destruct a as [a|]; [|done].
  apply TolerationsEqual_nonnil. split; [done|].
  intros x Hx. by apply list_elem_of_fmap_2.
Qed.

(** ** What [mapsEqual] decides *)

Lemma mapsEqual_nonnil (a b : gmap string string) :
  mapsEqual (Some a) (Some b) = true ↔ a = b.
Proof.
  unfold mapsEqual, maplen; simpl.
  destruct (Nat.eqb_spec (size a) (size b)) as [Hsz|Hsz]; simpl.
  - rewrite forallb_map_to_list. split.
    + intros H. apply map_subseteq_size_eq; [|lia].
      apply map_subseteq_spec. intros k v Hkv.
      specialize (H k v Hkv). simpl in H.
      destruct (b !! k) as [vb|]; [|done].
      by apply bool_decide_eq_true in H as ->.
    + intros -> k v Hkv. simpl. rewrite Hkv. by apply bool_decide_eq_true.
  - split; [done | by intros ->].
Qed.

Lemma mapsEqual_refl (a : gomap string) : mapsEqual a a = true.
Proof. destruct a as [a|]; [by apply mapsEqual_nonnil | done]. Qed.

Lemma mapsEqual_sym (a b : gomap string) : mapsEqual a b = mapsEqual b a.
Proof.
  destruct a as [a|], b as [b|]; try done.
  destruct (mapsEqual (Some a) (Some b)) eqn:Hab, (mapsEqual (Some b) (Some a)) eqn:Hba;
    try done.
  - apply mapsEqual_nonnil in Hab as ->. by rewrite mapsEqual_refl in Hba.
  - apply mapsEqual_nonnil in Hba as ->. by rewrite mapsEqual_refl in Hab.
Qed.

(** ** Reflexivity of the slice helpers *)

Lemma envVarsEqual_refl (a : slice EnvVar) : envVarsEqual a a = true.
Proof.
  unfold envVarsEqual. rewrite Nat.eqb_refl; simpl.
  apply forallb_map_to_list. intros k v Hkv; simpl.
  rewrite Hkv. by apply bool_decide_eq_true.
Qed.

Lemma portsEqual_refl (a : slice ServicePort) : portsEqual a a = true.
Proof.
  unfold portsEqual. rewrite Nat.eqb_refl; simpl.
  apply forallb_map_to_list. intros k v Hkv; simpl.
  rewrite Hkv. by rewrite !bool_decide_eq_true_2.
Qed.

Lemma slicesEqual_refl (a : slice string) : slicesEqual a a = true.
Proof.
  unfold slicesEqual. rewrite Nat.eqb_refl; simpl.
  apply forallb_map_to_list. intros k v Hkv; simpl.
  rewrite Hkv; simpl.
  by apply (foldl_insert_value id (λ _, true) (λ v, v = true) (elems a) ∅) in Hkv.
Qed.

(** ** Symmetry: where it holds and where the slice helpers lose it *)

(** C2 (the code departs from the claim): every helper is reflexive, and
    [mapsEqual] is symmetric, but the four slice helpers compare the slice
    lengths and then test inclusion one way only, so on slices of equal
    length where one repeats a key they answer differently in the two
    directions. *)
Theorem C2_slice_helpers_not_symmetric :
  (TolerationsEqual (Some [tolNotReady; tolNotReady])
                    (Some [tolNotReady; tolUnreachable]) = false
   ∧ TolerationsEqual (Some [tolNotReady; tolUnreachable])
                      (Some [tolNotReady; tolNotReady]) = true)
  ∧ (envVarsEqual (Some [envA1; envA1]) (Some [envA1; envB2]) = true
     ∧ envVarsEqual (Some [envA1; envB2]) (Some [envA1; envA1]) = false)
  ∧ (portsEqual (Some [portHttp; portHttp]) (Some [portHttp; portHttps]) = true
     ∧ portsEqual (Some [portHttp; portHttps]) (Some [portHttp; portHttp]) = false)
  ∧ (slicesEqual (Some ["a"; "a"]) (Some ["a"; "b"]) = true
     ∧ slicesEqual (Some ["a"; "b"]) (Some ["a"; "a"]) = false).
Proof. vm_compute. repeat split. Qed.

(** ** tolerationSeconds *)

Lemma createTolerationKey_seconds (tol : Toleration) (s1 s2 : Z) :
  createTolerationKey (withSeconds tol (Some s1))
  = createTolerationKey (withSeconds tol (Some s2)).
Proof. reflexivity. Qed.

(** Changing only the number behind a non-nil [TolerationSeconds], anywhere
    in the list, is not seen by [TolerationsEqual]. *)
Lemma TolerationsEqual_seconds_blind (pre post : list Toleration)
    (tol : Toleration) (s1 s2 : Z) :
  TolerationsEqual (Some (pre ++ withSeconds tol (Some s1) :: post))
                   (Some (pre ++ withSeconds tol (Some s2) :: post)) = true.
Proof.
  apply TolerationsEqual_nonnil. split.
  - by rewrite !length_app.
  - intros x Hx. rewrite fmap_app, fmap_cons.
    rewrite (createTolerationKey_seconds tol s1 s2), <- fmap_cons, <- fmap_app.
    by apply list_elem_of_fmap_2.
Qed.

(** C3 (the code departs from the claim): two toleration lists that differ
    only in the number of a non-nil [tolerationSeconds] (30 against 60)
    compare as equal, because [createTolerationKey] keeps only whether the
    field is nil. *)
Theorem C3_tolerationSeconds_value_not_compared :
  Some [tolNotReady30] ≠ Some [tolNotReady60]
  ∧ TolerationsEqual (Some [tolNotReady30]) (Some [tolNotReady60]) = true.
Proof.
  split; [discriminate|].
  apply (TolerationsEqual_seconds_blind [] [] tolNotReady 30 60).
Qed.

(** ** Permutation invariance of [TolerationsEqual] *)

Lemma sameTolerationTuple_key (x y : Toleration) :
  sameTolerationTuple x y → createTolerationKey x = createTolerationKey y.
Proof.
  intros (HK & HO & HV & HE & HS). unfold createTolerationKey.
  by rewrite HK, HO, HV, HE, HS.
Qed.

Lemma TolerationsEqual_reverse (t : slice Toleration) :
  TolerationsEqual (reverse_slice t) t = true.
Proof.
  destruct t as [t|]; [|done]. simpl.
  apply TolerationsEqual_nonnil. split; [by rewrite length_reverse|].
  intros x Hx. apply list_elem_of_fmap_2. by apply elem_of_reverse.
Qed.

(** C8, as the claim states its general part: same length and every element
    of the second found in the first.  A nil and an empty slice meet both,
    and [TolerationsEqual] answers false on them (the second case of
    [TestTolerationsEqual]). *)
Lemma C8_general_part_fails_nil_vs_empty :
  ¬ (∀ a b : slice Toleration,
       len a = len b →
       (∀ x, x ∈ elems b → ∃ y, y ∈ elems a ∧ sameTolerationTuple x y) →
       TolerationsEqual a b = true).
Proof.
  intros H. specialize (H None (Some [])). simpl in H.
  discriminate H; [done|]. intros x Hx. by apply elem_of_nil in Hx.
Qed.

(** C8, amended: [TolerationsEqual (reverse t) t] holds for every slice, and
    [TolerationsEqual a b] holds whenever [a] and [b] are both nil or both
    non-nil, have the same length, and every element of [b] occurs in [a]
    under (key, operator, value, effect, tolerationSeconds-nil-bit). *)
Theorem C8_TolerationsEqual_permutation_invariant :
  (∀ t : slice Toleration, TolerationsEqual (reverse_slice t) t = true)
  ∧ (∀ a b : slice Toleration,
       isNil a = isNil b →
       len a = len b →
       (∀ x, x ∈ elems b → ∃ y, y ∈ elems a ∧ sameTolerationTuple x y) →
       TolerationsEqual a b = true).
Proof.
  split; [apply TolerationsEqual_reverse|].
  intros [a|] [b|] Hnil Hlen Hin; try done.
  apply TolerationsEqual_nonnil. split; [done|].
  intros x Hx. destruct (Hin x Hx) as (y & Hy & Hxy).
  rewrite (sameTolerationTuple_key x y Hxy). by apply list_elem_of_fmap_2.
Qed.

Lemma C8_witness :
  TolerationsEqual (Some [tolUnreachable; tolNotReady])
                   (Some [tolNotReady; tolUnreachable]) = true.
Proof.
  apply (proj2 C8_TolerationsEqual_permutation_invariant).
  - reflexivity.
  - reflexivity.
  - intros x Hx. simpl in Hx.
    apply elem_of_cons in Hx as [->|Hx];
      [|apply elem_of_cons in Hx as [->|Hx]; [|by apply elem_of_nil in Hx]].
    + exists tolNotReady. split; [simpl; by right; left | by repeat split].
    + exists tolUnreachable. split; [simpl; by left | by repeat split].
Defined.

(** ** String-map equality *)

(** C9: [mapsEqual] tells nil from empty, and on two non-nil maps it is true
    exactly when both have the same keys with the same values. *)
Theorem C9_mapsEqual_nil_empty_and_content :
  mapsEqual None (Some ∅) = false
  ∧ mapsEqual (Some ∅) None = false
  ∧ mapsEqual None None = true
  ∧ ∀ a b : gmap string string,
      mapsEqual (Some a) (Some b) = true
      ↔ dom a = dom b ∧ ∀ k va vb, a !! k = Some va → b !! k = Some vb → va = vb.
Proof.
  split; [done|]. split; [done|]. split; [done|].
  intros a b. split.
  - intros Heq. apply mapsEqual_nonnil in Heq as ->.
    split; [done|]. intros k va vb Ha Hb. congruence.
  - intros [Hdom Hval]. apply mapsEqual_nonnil, map_eq. intros k.
    destruct (a !! k) as [va|] eqn:Ha, (b !! k) as [vb|] eqn:Hb; try done.
    + f_equal. eauto.
    + assert (k ∈ dom a) as Hk by (apply elem_of_dom; eauto).
      rewrite Hdom in Hk. apply elem_of_dom in Hk as [? ?]. congruence.
    + assert (k ∈ dom b) as Hk by (apply elem_of_dom; eauto).
      rewrite <- Hdom in Hk. apply elem_of_dom in Hk as [? ?]. congruence.
Qed.

(** ** Symmetry of the slice helpers on slices without repeated keys

    When no key occurs twice, the maps the helpers build are as large as the
    slices, and inclusion one way between maps of the same size is inclusion
    both ways. *)

Section built_maps_nodup.
Context {A V : Type} (key : A → string) (val : A → V).

Lemma foldl_insert_dom (l : list A) (m0 : gmap string V) :
  dom (foldl (λ m x, <[key x := val x]> m) m0 l)
  =@{gset string} dom m0 ∪ list_to_set (key <$> l).
Proof.
  revert m0. induction l as [|x l IH]; intros m0; simpl.
  - by rewrite (right_id_L ∅ (∪)).
  - rewrite IH, dom_insert_L.
    by rewrite (comm_L (∪) {[key x]} (dom m0)), <- (assoc_L (∪)).
Qed.

Lemma foldl_insert_size (l : list A) :
  NoDup (key <$> l) →
  size (foldl (λ m x, <[key x := val x]> m) (∅ : gmap string V) l) = length l.
Proof.
  intros Hnodup.
  rewrite <- (size_dom (D := gset string)), foldl_insert_dom, dom_empty_L.
  rewrite (left_id_L ∅ (∪)), size_list_to_set by done. by rewrite length_fmap.
Qed.
End built_maps_nodup.

Lemma dom_included_sym {V W} (mA : gmap string V) (mB : gmap string W) :
  size mA = size mB → dom mA ⊆ dom mB → dom mB ⊆ dom mA.
Proof.
  intros Hsize Hsub.
  rewrite (set_subseteq_size_eq (dom mA) (dom mB)); [done | done |].
  rewrite !size_dom. lia.
Qed.

(** A check of every entry of [mA] against the entry of [mB] under the same
    key, by a symmetric test, passes the other way round too when the maps
    have the same size. *)
Lemma covered_sym {V} (test : V → V → bool) (mA mB : gmap string V) :
  (∀ x y, test x y = true → test y x = true) →
  size mA = size mB →
  forallb (λ kv, match mB !! kv.1 with
                 | Some v' => test kv.2 v'
                 | None => false
                 end) (map_to_list mA) = true →
  forallb (λ kv, match mA !! kv.1 with
                 | Some v' => test kv.2 v'
                 | None => false
                 end) (map_to_list mB) = true.
Proof.
  intros Hsym Hsize. rewrite !forallb_map_to_list. intros Hcov k vb Hb; simpl.
  assert (k ∈ dom mA) as [va Ha]%elem_of_dom.
  { apply (dom_included_sym mA mB Hsize); [|apply elem_of_dom; eauto].
    intros k' [v' Hk']%elem_of_dom. specialize (Hcov k' v' Hk'); simpl in Hcov.
    apply elem_of_dom. destruct (mB !! k'); [eauto | done]. }
  rewrite Ha. specialize (Hcov k va Ha); simpl in Hcov. rewrite Hb in Hcov.
  by apply Hsym.
Qed.

Lemma envVarsEqual_sym_nodup (a b : slice EnvVar) :
  NoDup (EnvName <$> elems a) → NoDup (EnvName <$> elems b) →
  envVarsEqual a b = envVarsEqual b a.
Proof.
  intros Ha Hb.
  assert (Hone : ∀ a b : slice EnvVar,
            NoDup (EnvName <$> elems a) → NoDup (EnvName <$> elems b) →
            envVarsEqual a b = true → envVarsEqual b a = true).
  { clear. intros a b Ha Hb. unfold envVarsEqual, len.
    destruct (Nat.eqb_spec (length (elems a)) (length (elems b))) as [Hlen|]; [|done].
    rewrite Hlen, Nat.eqb_refl; simpl.
    pose proof (covered_sym (λ v v' : string, bool_decide (v = v'))) as Hsym.
    apply Hsym; clear Hsym.
    - intros x y Hxy. apply bool_decide_eq_true in Hxy. by apply bool_decide_eq_true.
    - unfold envMap. by rewrite !foldl_insert_size. }
  destruct (envVarsEqual a b) eqn:Hab, (envVarsEqual b a) eqn:Hba; try done.
  - by rewrite (Hone a b Ha Hb Hab) in Hba.
  - by rewrite (Hone b a Hb Ha Hba) in Hab.
Qed.

Lemma portsEqual_sym_nodup (a b : slice ServicePort) :
  NoDup (PortName <$> elems a) → NoDup (PortName <$> elems b) →
  portsEqual a b = portsEqual b a.
Proof.
  intros Ha Hb.
  assert (Hone : ∀ a b : slice ServicePort,
            NoDup (PortName <$> elems a) → NoDup (PortName <$> elems b) →
            portsEqual a b = true → portsEqual b a = true).
  { clear. intros a b Ha Hb. unfold portsEqual, len.
    destruct (Nat.eqb_spec (length (elems a)) (length (elems b))) as [Hlen|]; [|done].
    rewrite Hlen, Nat.eqb_refl; simpl.
    pose proof (covered_sym (λ p p' : ServicePort,
                               bool_decide (Port p = Port p')
                               && bool_decide (TargetPort p = TargetPort p')
                               && bool_decide (Protocol p = Protocol p'))) as Hsym.
    apply Hsym; clear Hsym.
    - intros x y Hxy.
      apply andb_prop in Hxy as [[H1 H2]%andb_prop H3].
      apply bool_decide_eq_true in H1, H2, H3.
      by rewrite !bool_decide_eq_true_2.
    - unfold portMap. by rewrite !foldl_insert_size. }
  destruct (portsEqual a b) eqn:Hab, (portsEqual b a) eqn:Hba; try done.
  - by rewrite (Hone a b Ha Hb Hab) in Hba.
  - by rewrite (Hone b a Hb Ha Hba) in Hab.
Qed.

Lemma stringSet_true (a : list string) (k : string) (v : bool) :
  stringSet a !! k = Some v → v = true.
Proof.
  by apply (foldl_insert_value id (λ _, true) (λ v, v = true) a ∅).
Qed.

Lemma slicesEqual_sym_nodup (a b : slice string) :
  NoDup (elems a) → NoDup (elems b) → slicesEqual a b = slicesEqual b a.
Proof.
  intros Ha Hb.
  assert (Hone : ∀ a b : slice string,
            NoDup (elems a) → NoDup (elems b) →
            slicesEqual a b = true → slicesEqual b a = true).
  { clear. intros a b Ha Hb. unfold slicesEqual, len.
    destruct (Nat.eqb_spec (length (elems a)) (length (elems b))) as [Hlen|]; [|done].
    rewrite Hlen, Nat.eqb_refl; simpl.
    rewrite !forallb_map_to_list. intros Hcov k vb Hkb; simpl.
    assert (k ∈ dom (stringSet (elems a))) as [va Hka]%elem_of_dom.
    { apply (dom_included_sym (stringSet (elems a)) (stringSet (elems b))).
      - unfold stringSet.
        rewrite !(foldl_insert_size id (λ _, true)) by (by rewrite list_fmap_id).
        done.
      - intros k' [v' Hk']%elem_of_dom. specialize (Hcov k' v' Hk'); simpl in Hcov.
        apply elem_of_dom. destruct (stringSet (elems b) !! k'); [eauto | done].
      - apply elem_of_dom. eauto. }
    rewrite Hka; simpl. by apply (stringSet_true (elems a) k). }
  destruct (slicesEqual a b) eqn:Hab, (slicesEqual b a) eqn:Hba; try done.
  - by rewrite (Hone a b Ha Hb Hab) in Hba.
  - by rewrite (Hone b a Hb Ha Hba) in Hab.
Qed.

Lemma TolerationsEqual_sym_nodup (a b : slice Toleration) :
  NoDup (createTolerationKey <$> elems a) →
  NoDup (createTolerationKey <$> elems b) →
  TolerationsEqual a b = TolerationsEqual b a.
Proof.
  intros Ha Hb.
  assert (Hone : ∀ a b : list Toleration,
            NoDup (createTolerationKey <$> a) → NoDup (createTolerationKey <$> b) →
            TolerationsEqual (Some a) (Some b) = true →
            TolerationsEqual (Some b) (Some a) = true).
  { clear. intros a b Ha Hb. rewrite !TolerationsEqual_nonnil.
    intros [Hlen Hin]. split; [done|]. intros x Hx.
    assert (Hdom : dom (tolerationMap a) ⊆ dom (tolerationMap b)).
    { apply dom_included_sym.
      - unfold tolerationMap.
        by rewrite !(foldl_insert_size createTolerationKey id).
      - intros k [v Hk]%elem_of_dom.
        apply mk_is_Some, (foldl_insert_empty_is_Some createTolerationKey id) in Hk.
        apply list_elem_of_fmap in Hk as (y & -> & Hy).
        apply elem_of_dom, (foldl_insert_empty_is_Some createTolerationKey id).
        by apply Hin. }
    apply (foldl_insert_empty_is_Some createTolerationKey id b), elem_of_dom, Hdom.
    apply elem_of_dom, (foldl_insert_empty_is_Some createTolerationKey id).
    by apply list_elem_of_fmap_2. }
  destruct a as [a|], b as [b|]; try done. simpl in Ha, Hb.
  destruct (TolerationsEqual (Some a) (Some b)) eqn:Hab,
           (TolerationsEqual (Some b) (Some a)) eqn:Hba; try done.
  - by rewrite (Hone a b Ha Hb Hab) in Hba.
  - by rewrite (Hone b a Hb Ha Hba) in Hab.
Qed.

(** * Properties of the singleton reconciler *)

Import OvercommitReconciler.

(** Unfolds the plumbing of [Exec]. *)
Ltac exec_unfold :=
  unfold run, call, mbind, mret, Exec_bind, Exec_ret, exec_bind, exec_ret in *.

(** ** The safe status writer *)

Example status_always_conflict :
  run (updateOvercommitStatusSafely worldStatusConflicts)
  = ([GetCluster; UpdateOvercommitStatus; Sleep (50 * Millisecond);
      GetCluster; UpdateOvercommitStatus; Sleep (100 * Millisecond);
      GetCluster; UpdateOvercommitStatus; Sleep (200 * Millisecond);
      GetCluster; UpdateOvercommitStatus; Sleep (400 * Millisecond);
      GetCluster; UpdateOvercommitStatus], Some errConflict).
Proof. reflexivity. Qed.

Example status_object_gone :
  run (updateOvercommitStatusSafely worldGone) = ([GetCluster], None).
Proof. reflexivity. Qed.

Lemma backoffDuration_pow (k : nat) :
  backoffDuration k = (50 * 2 ^ Z.of_nat k * Millisecond)%Z.
Proof. unfold backoffDuration. rewrite Z.shiftl_1_l. lia. Qed.

Lemma statusLoop_conflict (w : World) (remaining attempt : nat) (log : list Call)
    (oc : Overcommit) (e : error) :
  freshAnswer w attempt = inr oc → statusAnswer w attempt = Some e →
  IsConflict e = true → attempt ≠ 4 →
  statusLoop w (S remaining) attempt log
  = statusLoop w remaining (S attempt)
      (log ++ [GetCluster; UpdateOvercommitStatus; Sleep (backoffDuration attempt)]).
Proof.
  intros Hoc He Hce Hlast. simpl. exec_unfold. rewrite Hoc, He, Hce.
  rewrite (proj2 (Nat.eqb_neq attempt 4) Hlast). by rewrite <- !app_assoc.
Qed.

Lemma statusLoop_retry (w : World) (k : nat) :
  ∀ attempt remaining log,
    attempt + k < maxRetries →
    (∀ j, attempt ≤ j < attempt + k → conflictAt w j) →
    statusLoop w (k + remaining) attempt log
    = statusLoop w remaining (attempt + k) (log ++ retriedLog attempt k).
Proof.
  induction k as [|k IH]; intros attempt remaining log Hlt Hconf.
  - simpl. by rewrite Nat.add_0_r, app_nil_r.
  - destruct (Hconf attempt ltac:(lia)) as [[oc Hoc] (e & He & Hce)].
    simpl. exec_unfold. rewrite Hoc, He, Hce.
    destruct (Nat.eqb_spec attempt 4) as [->|_]; [unfold maxRetries in *; lia|].
    rewrite (IH (S attempt) remaining) by (intros; try apply Hconf; lia).
    f_equal; [lia|]. by rewrite <- !app_assoc.
Qed.

Lemma statusLoop_log (w : World) (remaining : nat) :
  ∀ attempt log,
    remaining + attempt = maxRetries →
    ∃ log', (statusLoop w remaining attempt log).1 = log ++ log'
            ∧ statusLog remaining attempt log' = true
            ∧ (0 < remaining → log' ≠ []).
Proof.
  induction remaining as [|remaining IH]; intros attempt log Hsum.
  - exists []. simpl. rewrite app_nil_r. split; [done|]. split; [done|lia].
  - assert (Hstop : ∀ r : option error,
              ∃ log', ((log ++ [GetCluster]) ++ [UpdateOvercommitStatus], r).1
                      = log ++ log'
                      ∧ statusLog (S remaining) attempt log' = true
                      ∧ (0 < S remaining → log' ≠ [])).
    { intros r. exists [GetCluster; UpdateOvercommitStatus].
      simpl. rewrite <- app_assoc. by repeat split. }
    simpl statusLoop. exec_unfold.
    destruct (freshAnswer w attempt) as [err|oc].
    { exists [GetCluster]. split; [by destruct (notNil _)|]. by split. }
    destruct (statusAnswer w attempt) as [e|];
      [|by apply Hstop].
    destruct (Nat.eqb_spec attempt 4) as [Hlast|Hlast];
      [by apply Hstop|].
    destruct (IsConflict e); [|by apply Hstop].
    destruct (IH (S attempt)
                 (((log ++ [GetCluster]) ++ [UpdateOvercommitStatus])
                    ++ [Sleep (backoffDuration attempt)]))
      as (log' & Hlog & Hok & Hne); [lia|].
    exists (GetCluster :: UpdateOvercommitStatus :: Sleep (backoffDuration attempt) :: log').
    split; [by rewrite Hlog, <- !app_assoc|]. split; [|done].
    simpl. rewrite bool_decide_eq_true_2 by done.
    rewrite (proj2 (Nat.eqb_neq attempt 4) Hlast). simpl.
    destruct log' as [|c log']; [|done].
    exfalso. apply Hne; [unfold maxRetries in *; lia | done].
Qed.

Lemma statusLog_counts (remaining : nat) :
  ∀ attempt log,
    statusLog remaining attempt log = true →
    countCalls GetCluster log ≤ remaining
    ∧ countCalls UpdateOvercommitStatus log ≤ countCalls GetCluster log.
Proof.
  unfold countCalls.
  induction remaining as [|remaining IH]; intros attempt log Hok.
  - destruct log as [|[] ?]; try done; simpl; lia.
  - destruct log as [|[] log]; try done; try (simpl; lia).
    destruct log as [|[] log]; try done; try (simpl; lia).
    destruct log as [|[] log]; try done; try (simpl; lia).
    simpl in Hok. apply andb_prop in Hok as [_ Hok].
    destruct log as [|c log]; [done|].
    apply IH in Hok as [H1 H2].
    rewrite !filter_cons in *. repeat case_decide; try done; simpl in *; lia.
Qed.

(** C6: the safe status writer.  Its calls read as at most 5 attempts, each
    starting with a fetch of the latest object and each status update coming
    right after such a fetch; a non-conflict error on attempt [k] is returned
    at once; a conflict on attempt [k < 4] is followed by a sleep of
    50·2^k ms and the fetch of attempt [k+1]; an error on the last attempt is
    returned; a not-found on the fetch returns nil without a status update,
    and any other error of the fetch is returned. *)
Theorem C6_status_writer_retry :
  (∀ w, let log := (run (updateOvercommitStatusSafely w)).1 in
        statusLog maxRetries 0 log = true
        ∧ countCalls GetCluster log ≤ 5
        ∧ countCalls UpdateOvercommitStatus log ≤ countCalls GetCluster log)
  ∧ (∀ w k oc e,
       k < 5 → (∀ j, j < k → conflictAt w j) →
       freshAnswer w k = inr oc → statusAnswer w k = Some e →
       IsConflict e = false →
       run (updateOvercommitStatusSafely w)
       = (retriedLog 0 k ++ [GetCluster; UpdateOvercommitStatus], Some e))
  ∧ (∀ w k oc e,
       k < 4 → (∀ j, j < k → conflictAt w j) →
       freshAnswer w k = inr oc → statusAnswer w k = Some e →
       IsConflict e = true →
       ∃ rest,
         (run (updateOvercommitStatusSafely w)).1
         = retriedLog 0 k
           ++ [GetCluster; UpdateOvercommitStatus;
               Sleep (50 * 2 ^ Z.of_nat k * Millisecond); GetCluster]
           ++ rest)
  ∧ (∀ w oc e,
       (∀ j, j < 4 → conflictAt w j) →
       freshAnswer w 4 = inr oc → statusAnswer w 4 = Some e →
       run (updateOvercommitStatusSafely w)
       = (retriedLog 0 4 ++ [GetCluster; UpdateOvercommitStatus], Some e))
  ∧ (∀ w k e,
       k < 5 → (∀ j, j < k → conflictAt w j) →
       freshAnswer w k = inl e → IsNotFound e = true →
       run (updateOvercommitStatusSafely w) = (retriedLog 0 k ++ [GetCluster], None))
  ∧ (∀ w k e,
       k < 5 → (∀ j, j < k → conflictAt w j) →
       freshAnswer w k = inl e → IsNotFound e = false →
       run (updateOvercommitStatusSafely w) = (retriedLog 0 k ++ [GetCluster], Some e)).
Proof.
  unfold updateOvercommitStatusSafely, run.
  assert (Hsplit : ∀ w k, k < 5 → (∀ j, j < k → conflictAt w j) →
            statusLoop w maxRetries 0 []
            = statusLoop w (S (4 - k)) k (retriedLog 0 k)).
  { intros w k Hk Hconf.
    replace maxRetries with (k + S (4 - k)) by (unfold maxRetries; lia).
    rewrite (statusLoop_retry w k 0) by (unfold maxRetries; intros; try apply Hconf; lia).
    done. }
  repeat split.
  - destruct (statusLoop_log w maxRetries 0 [] eq_refl) as (log' & Hlog & Hok & _).
    by rewrite Hlog.
  - destruct (statusLoop_log w maxRetries 0 [] eq_refl) as (log' & Hlog & Hok & _).
    rewrite Hlog. by apply statusLog_counts in Hok as [? _].
  - destruct (statusLoop_log w maxRetries 0 [] eq_refl) as (log' & Hlog & Hok & _).
    rewrite Hlog. by apply statusLog_counts in Hok as [_ ?].
  - intros w k oc e Hk Hconf Hoc He Hce. rewrite (Hsplit w k Hk Hconf).
    simpl. exec_unfold. rewrite Hoc, He, Hce. simpl.
    rewrite <- app_assoc. by destruct (_ =? _)%nat.
  - intros w k oc e Hk Hconf Hoc He Hce.
    rewrite (Hsplit w k ltac:(lia) Hconf).
    rewrite (statusLoop_conflict w (4 - k) k _ oc e Hoc He Hce) by lia.
    rewrite backoffDuration_pow.
    destruct (statusLoop_log w (4 - k) (S k)
                (retriedLog 0 k
                   ++ [GetCluster; UpdateOvercommitStatus;
                       Sleep (50 * 2 ^ Z.of_nat k * Millisecond)]))
      as (log' & Hlog & Hok & Hne); [unfold maxRetries; lia|].
    rewrite Hlog. destruct log' as [|c rest]; [by destruct Hne; [lia|]|].
    replace (4 - k) with (S (3 - k)) in Hok by lia.
    destruct c; try (simpl in Hok; done).
    exists rest. by rewrite <- app_assoc.
  - intros w oc e Hconf Hoc He. rewrite (Hsplit w 4 ltac:(lia) Hconf).
    simpl. exec_unfold. by rewrite Hoc, He.
  - intros w k e Hk Hconf He Hnf. rewrite (Hsplit w k Hk Hconf).
    simpl. exec_unfold. rewrite He. unfold notNil, IgnoreNotFound. by rewrite Hnf.
  - intros w k e Hk Hconf He Hnf. rewrite (Hsplit w k Hk Hconf).
    simpl. exec_unfold. rewrite He. unfold notNil, IgnoreNotFound. by rewrite Hnf.
Qed.

Lemma C6_witness :
  run (updateOvercommitStatusSafely worldStatusRetries)
  = ([GetCluster; UpdateOvercommitStatus; Sleep 50000000;
      GetCluster; UpdateOvercommitStatus; Sleep 100000000;
      GetCluster; UpdateOvercommitStatus], Some errTimeout).
Proof.
  apply (proj1 (proj2 C6_status_writer_retry) worldStatusRetries 2 overcommitClean errTimeout).
  - lia.
  - intros j Hj. split; [by eexists|]. exists errConflict.
    destruct j as [|[|j]]; [done | done | lia].
  - reflexivity.
  - reflexivity.
  - reflexivity.
Defined.

(** ** [Reconcile] on concrete worlds *)

Example reconcile_quiet :
  run (Reconcile worldQuiet)
  = ([GetOvercommitLabel; Get; CreateOrUpdate issuer;
      CreateOrUpdate overcommitClassCertificate;
      CreateOrUpdate overcommitClassDeployment;
      CreateOrUpdate overcommitClassService;
      CreateOrUpdate overcommitClassWebhook;
      CreateOrUpdate validatingpodCertificate;
      CreateOrUpdate validatingPodDeployment;
      CreateOrUpdate validatingPodService;
      CreateOrUpdate validatingPodWebhook;
      CreateOrUpdate occontroller;
      GetCluster; UpdateOvercommitStatus],
     ({| Requeue := false; RequeueAfter := 10 * Second |}, None)).
Proof. vm_compute. reflexivity. Qed.

Example reconcile_legacy :
  run (Reconcile worldLegacy)
  = ([GetOvercommitLabel; Get; Update ["kept.finalizer"]],
     ({| Requeue := false; RequeueAfter := Second |}, None)).
Proof. vm_compute. reflexivity. Qed.

(** ** The legacy-finalizer migration *)

Lemma filter_ne_absent (finalizer : string) (finalizers : list string) :
  finalizer ∉ finalizers → filter (λ f, f ≠ finalizer) finalizers = finalizers.
Proof.
  induction finalizers as [|f fs IH]; [done|].
  rewrite not_elem_of_cons. intros [Hne Hfs].
  rewrite filter_cons_True by done. by rewrite IH.
Qed.

Lemma removeLegacyFinalizers_spec (finalizers : list string) :
  removeLegacyFinalizers finalizers
  = (filter (λ f, f ∉ legacyFinalizers) finalizers,
     bool_decide (Exists (λ f, f ∈ finalizers) legacyFinalizers)).
Proof.
  assert (Hlist : filter (λ f, f ∉ legacyFinalizers) finalizers
            = filter (λ f, f ≠ "webhook.finalizer")
                (filter (λ f, f ≠ "overcommit.finalizer") finalizers)).
  { rewrite list_filter_filter. apply list_filter_iff. intros f.
    unfold legacyFinalizers. rewrite !not_elem_of_cons, elem_of_nil. tauto. }
  assert (Hin : "webhook.finalizer"
                  ∈ filter (λ f, f ≠ "overcommit.finalizer") finalizers
                ↔ "webhook.finalizer" ∈ finalizers).
  { rewrite list_elem_of_filter. split; [by intros [_ ?]|by split]. }
  rewrite Hlist. unfold removeLegacyFinalizers, legacyFinalizers; simpl.
  unfold ContainsFinalizer, RemoveFinalizer.
  destruct (decide ("overcommit.finalizer" ∈ finalizers)) as [H1|H1];
    [rewrite (bool_decide_eq_true_2 _ H1) | rewrite (bool_decide_eq_false_2 _ H1)].
  - destruct (decide ("webhook.finalizer" ∈ finalizers)) as [H2|H2].
    + rewrite (bool_decide_eq_true_2 _ (proj2 Hin H2)).
      f_equal. symmetry. apply bool_decide_eq_true. by left.
    + rewrite bool_decide_eq_false_2 by (by rewrite Hin).
      rewrite (filter_ne_absent "webhook.finalizer") by (by rewrite Hin).
      f_equal. symmetry. apply bool_decide_eq_true. by left.
  - rewrite (filter_ne_absent "overcommit.finalizer") by done.
    destruct (decide ("webhook.finalizer" ∈ finalizers)) as [H2|H2].
    + rewrite (bool_decide_eq_true_2 _ H2).
      f_equal. symmetry. apply bool_decide_eq_true. right. by left.
    + rewrite (bool_decide_eq_false_2 _ H2).
      rewrite (filter_ne_absent "webhook.finalizer") by done.
      f_equal. symmetry. apply bool_decide_eq_false.
      rewrite !Exists_cons, Exists_nil. tauto.
Qed.

(** ** The calls [reconcileManaged] makes *)

(** Closes [Forall upsertOrStatus l] for a list [l] that is written out,
    possibly up to a tail found among the hypotheses. *)
Ltac calls_ok :=
  repeat (apply List.Forall_cons;
          [unfold upsertOrStatus; first [(by right) | (left; by eexists)]|]);
  first [apply List.Forall_nil | assumption].

Lemma statusLoop_calls (w : World) (remaining : nat) :
  ∀ attempt log,
    ∃ log', (statusLoop w remaining attempt log).1 = log ++ log'
            ∧ Forall upsertOrStatus log'.
Proof.
  induction remaining as [|remaining IH]; intros attempt log.
  - exists []. simpl. by rewrite app_nil_r.
  - simpl. exec_unfold.
    destruct (freshAnswer w attempt) as [err|oc].
    { exists [GetCluster]. split; [by destruct (notNil _)|]. calls_ok. }
    assert (Hstop : ∀ r : option error,
              ∃ log', ((log ++ [GetCluster]) ++ [UpdateOvercommitStatus], r).1
                      = log ++ log' ∧ Forall upsertOrStatus log').
    { intros r. exists [GetCluster; UpdateOvercommitStatus].
      simpl. rewrite <- app_assoc. split; [done|]. calls_ok. }
    destruct (statusAnswer w attempt) as [e|]; [|by apply Hstop].
    destruct (attempt =? 4)%nat; [by apply Hstop|].
    destruct (IsConflict e); [|by apply Hstop].
    destruct (IH (S attempt)
                 (((log ++ [GetCluster]) ++ [UpdateOvercommitStatus])
                    ++ [Sleep (backoffDuration attempt)]))
      as (log' & Hlog & Hall).
    exists (GetCluster :: UpdateOvercommitStatus :: Sleep (backoffDuration attempt) :: log').
    split; [by rewrite Hlog, <- !app_assoc|]. calls_ok.
Qed.

(** Closes a goal [∃ log', (log ++ [c1]) ++ ... = log ++ log' ∧ Forall _ log']
    where every [ci] is a create-or-update. *)
Ltac upsert_log :=
  simpl; rewrite <- ?app_assoc; eexists; split; [reflexivity|]; calls_ok.

Lemma reconcileManaged_calls (w : World) (log : list Call) :
  ∃ log', (reconcileManaged w log).1 = log ++ log' ∧ Forall upsertOrStatus log'.
Proof.
  unfold reconcileManaged, createOrUpdate, orReturn. exec_unfold.
  destruct (issuerIsNil w); [by exists []; rewrite app_nil_r|].
  assert (Hrest : ∀ log0 log1, log0 = log ++ log1 → Forall upsertOrStatus log1 →
            ∃ log',
              ((if notNil (createOrUpdateAnswer w occontroller)
                then λ l, (l, (emptyResult, createOrUpdateAnswer w occontroller))
                else λ l,
                  let '(l', _) := updateOvercommitStatusSafely w l in
                  (l', ({| Requeue := false; RequeueAfter := Second * 10 |}, None)))
                 (log0 ++ [CreateOrUpdate occontroller])).1 = log ++ log'
              ∧ Forall upsertOrStatus log').
  { intros log0 log1 -> Hall.
    destruct (notNil (createOrUpdateAnswer w occontroller)).
    - exists (log1 ++ [CreateOrUpdate occontroller]). simpl.
      rewrite <- app_assoc. split; [done|].
      apply Forall_app. split; [done|]. calls_ok.
    - unfold updateOvercommitStatusSafely.
      destruct (statusLoop_calls w maxRetries 0
                  ((log ++ log1) ++ [CreateOrUpdate occontroller]))
        as (log' & Hlog & Hall').
      destruct (statusLoop w maxRetries 0 _) as [l' r] eqn:Hrun.
      simpl in *. subst l'.
      exists (log1 ++ [CreateOrUpdate occontroller] ++ log').
      rewrite <- !app_assoc. split; [done|].
      apply Forall_app. split; [done|]. calls_ok. }
  repeat match goal with
         | |- context [notNil (createOrUpdateAnswer w ?m)] =>
             lazymatch m with
             | occontroller => fail
             | _ => destruct (createOrUpdateAnswer w m) as [?|] eqn:?;
                    [by upsert_log|]; simpl
             end
         end.
  destruct (createOrUpdateAnswer w validatingPodWebhook) as [e|] eqn:Hpod.
  - destruct (IsConflict e); [|by upsert_log].
    eapply Hrest; [by rewrite <- !app_assoc|]. calls_ok.
  - eapply Hrest; [by rewrite <- !app_assoc|].
    repeat (constructor; [left; by eexists|]). done.
Qed.

Lemma filter_all {A} (P : A → Prop) `{∀ x, Decision (P x)} (l : list A) :
  (∀ x, x ∈ l → P x) → filter P l = l.
Proof.
  induction l as [|x l IH]; intros Hall; [done|].
  rewrite filter_cons_True by (apply Hall; by left).
  rewrite IH; [done|]. intros y Hy. apply Hall. by right.
Qed.

Lemma removeLegacyFinalizers_none (finalizers : list string) :
  (∀ f, f ∈ legacyFinalizers → f ∉ finalizers) →
  removeLegacyFinalizers finalizers = (finalizers, false).
Proof.
  intros Hnone. rewrite removeLegacyFinalizers_spec. f_equal.
  - apply filter_all. intros f Hf Hlegacy. by apply (Hnone f).
  - apply bool_decide_eq_false. rewrite Exists_exists.
    intros (f & Hlegacy & Hf). by apply (Hnone f).
Qed.

Lemma Reconcile_no_legacy (w : World) (label : string) (overcommit : Overcommit) :
  labelAnswer w = inr label → getAnswer w = inr overcommit →
  (∀ f, f ∈ legacyFinalizers → f ∉ OvercommitFinalizers overcommit) →
  run (Reconcile w) = reconcileManaged w [GetOvercommitLabel; Get].
Proof.
  intros Hlabel Hget Hnone.
  unfold Reconcile. exec_unfold. rewrite Hlabel, Hget; simpl.
  by rewrite (removeLegacyFinalizers_none _ Hnone).
Qed.

Lemma Reconcile_reachesManaged (w : World) :
  reachesManaged w →
  run (Reconcile w) = reconcileManaged w [GetOvercommitLabel; Get].
Proof.
  intros (label & overcommit & Hlabel & Hget & Hnone & _).
  by apply (Reconcile_no_legacy w label overcommit).
Qed.

(** C7: the legacy finalizers.  What [Reconcile] leaves on the object is
    its finalizers without the two legacy ones, the others kept in order.
    When one was present the only calls of the tick are the two reads and the
    update that persists the stripped list, and once that update succeeds
    the result asks for a requeue after one second.  When none was present
    the list is unchanged and the tick makes no update of the object; and on
    the stripped list the step finds nothing more to remove. *)
Theorem C7_legacy_finalizers_stripped (w : World) (label : string)
    (overcommit : Overcommit) :
  labelAnswer w = inr label → getAnswer w = inr overcommit →
  let finalizers := OvercommitFinalizers overcommit in
  let stripped := (removeLegacyFinalizers finalizers).1 in
  stripped = filter (λ f, f ∉ legacyFinalizers) finalizers
  ∧ ((∃ f, f ∈ legacyFinalizers ∧ f ∈ finalizers) →
       (run (Reconcile w)).1 = [GetOvercommitLabel; Get; Update stripped]
       ∧ (updateAnswer w = None →
            (run (Reconcile w)).2
            = ({| Requeue := false; RequeueAfter := 1000000000 |}, None))
       ∧ (∀ e, updateAnswer w = Some e →
            (run (Reconcile w)).2 = (emptyResult, Some e)))
  ∧ ((∀ f, f ∈ legacyFinalizers → f ∉ finalizers) →
       removeLegacyFinalizers finalizers = (finalizers, false)
       ∧ ∀ fs, Update fs ∉ (run (Reconcile w)).1)
  ∧ removeLegacyFinalizers stripped = (stripped, false).
Proof.
  intros Hlabel Hget finalizers stripped. subst stripped.
  split; [by rewrite removeLegacyFinalizers_spec|]. split; [|split].
  - intros (f & Hlegacy & Hf).
    assert (Hflag : bool_decide (Exists (λ f, f ∈ finalizers) legacyFinalizers) = true).
    { apply bool_decide_eq_true, Exists_exists. eauto. }
    unfold Reconcile, orReturn. exec_unfold. rewrite Hlabel, Hget; simpl.
    fold finalizers. rewrite removeLegacyFinalizers_spec, Hflag.
    destruct (updateAnswer w) as [e|]; simpl; repeat split; try done.
    intros e' [= <-]. done.
  - intros Hnone. split; [by apply removeLegacyFinalizers_none|].
    intros fs Hin.
    rewrite (Reconcile_no_legacy w label overcommit Hlabel Hget Hnone) in Hin.
    destruct (reconcileManaged_calls w [GetOvercommitLabel; Get])
      as (log' & Hlog & Hall).
    rewrite Hlog in Hin.
    apply elem_of_app in Hin as [Hin|Hin].
    + apply elem_of_cons in Hin as [?|Hin]; [done|].
      apply elem_of_cons in Hin as [?|Hin]; [done|]. by apply elem_of_nil in Hin.
    + rewrite Forall_forall in Hall. destruct (Hall _ Hin) as [[m ?]|?]; done.
  - apply removeLegacyFinalizers_none.
    intros f Hlegacy Hf. rewrite removeLegacyFinalizers_spec in Hf; simpl in Hf.
    apply list_elem_of_filter in Hf as [Hf _]. done.
Qed.

Lemma C7_witness :
  (run (Reconcile worldLegacy)).1
  = [GetOvercommitLabel; Get; Update ["kept.finalizer"]]
  ∧ (run (Reconcile worldLegacy)).2
    = ({| Requeue := false; RequeueAfter := 1000000000 |}, None).
Proof.
  pose proof (C7_legacy_finalizers_stripped worldLegacy
                "overcommit.inditex.dev/class" overcommitLegacy eq_refl eq_refl)
    as (_ & Hstrip & _).
  destruct Hstrip as (Hlog & Hok & _).
  - exists "overcommit.finalizer". split; [by left | by left].
  - split; [exact Hlog | exact (Hok eq_refl)].
Defined.

(** ** Errors of the create-or-update steps *)

(** Reads [Forall (λ m, passes w m = true) [m1; ...; mk]] off as the answers
    of the steps [m1], ..., [mk]. *)
Ltac read_passes H :=
  repeat match type of H with
         | Forall _ (_ :: _) =>
             let Hm := fresh "Hm" in
             apply Forall_cons in H as [Hm H];
             unfold passes in Hm;
             match type of Hm with
             | context [createOrUpdateAnswer ?w ?m] =>
                 let E := fresh "E" in
                 destruct (createOrUpdateAnswer w m) as [?e|] eqn:E;
                 [first [by vm_compute in Hm | simpl in Hm]|clear Hm]
             end
         end;
  clear H.

(** C5: a conflict on the create-or-update of the pod webhook configuration
    does not end the tick: the next call is the create-or-update of the class
    controller deployment, and the tick ends as that step and the status
    update make it end.  An error (a conflict included) on the
    create-or-update of any other managed object is returned at once, with
    an empty result and no further call. *)
Theorem C5_conflict_only_tolerated_on_pod_webhook :
  (∀ w e,
     reachesManaged w →
     Forall (λ m, passes w m = true) (upsertsBefore validatingPodWebhook) →
     createOrUpdateAnswer w validatingPodWebhook = Some e →
     IsConflict e = true →
     ∃ rest,
       (run (Reconcile w)).1
       = [GetOvercommitLabel; Get]
         ++ (CreateOrUpdate <$> upsertsBefore validatingPodWebhook)
         ++ [CreateOrUpdate validatingPodWebhook; CreateOrUpdate occontroller]
         ++ rest
       ∧ (createOrUpdateAnswer w occontroller = None →
            (run (Reconcile w)).2
            = ({| Requeue := false; RequeueAfter := 10000000000 |}, None))
       ∧ (∀ e', createOrUpdateAnswer w occontroller = Some e' →
            rest = [] ∧ (run (Reconcile w)).2 = (emptyResult, Some e')))
  ∧ (∀ w m e,
       m ≠ validatingPodWebhook →
       reachesManaged w →
       Forall (λ m', passes w m' = true) (upsertsBefore m) →
       createOrUpdateAnswer w m = Some e →
       run (Reconcile w)
       = ([GetOvercommitLabel; Get] ++ (CreateOrUpdate <$> upsertsBefore m ++ [m]),
          (emptyResult, Some e))).
Proof.
  split.
  - intros w e Hreach Hbefore Hpod Hconflict.
    rewrite (Reconcile_reachesManaged w Hreach).
    destruct Hreach as (_ & _ & _ & _ & _ & Hissuer).
    vm_compute upsertsBefore in Hbefore. read_passes Hbefore.
    unfold reconcileManaged, createOrUpdate, orReturn. exec_unfold.
    repeat match goal with E : createOrUpdateAnswer _ _ = _ |- _ => rewrite E end.
    rewrite Hissuer, Hconflict; simpl.
    destruct (createOrUpdateAnswer w occontroller) as [e'|] eqn:Hctl; simpl.
    + exists []. split; [done|]. split; [done|]. by intros e'' [= <-].
    + unfold updateOvercommitStatusSafely.
      destruct (statusLoop_calls w maxRetries 0
                  ([GetOvercommitLabel; Get; CreateOrUpdate issuer;
                    CreateOrUpdate overcommitClassCertificate;
                    CreateOrUpdate overcommitClassDeployment;
                    CreateOrUpdate overcommitClassService;
                    CreateOrUpdate overcommitClassWebhook;
                    CreateOrUpdate validatingpodCertificate;
                    CreateOrUpdate validatingPodDeployment;
                    CreateOrUpdate validatingPodService;
                    CreateOrUpdate validatingPodWebhook;
                    CreateOrUpdate occontroller]))
        as (log' & Hlog & _).
      destruct (statusLoop w maxRetries 0 _) as [l r]. simpl in Hlog. subst l.
      exists log'. split; [done|]. split; [done|]. by intros e''.
  - intros w m e Hm Hreach Hbefore Hfail.
    rewrite (Reconcile_reachesManaged w Hreach).
    destruct Hreach as (_ & _ & _ & _ & _ & Hissuer).
    destruct m; try done;
      vm_compute upsertsBefore in Hbefore; read_passes Hbefore;
      unfold reconcileManaged, createOrUpdate, orReturn; exec_unfold;
      repeat match goal with E : createOrUpdateAnswer _ _ = _ |- _ => rewrite E end;
      rewrite Hissuer; simpl; try done.
    match goal with H : IsConflict _ = true |- _ => by rewrite H end.
Qed.

Lemma overcommitClean_no_legacy (f : string) :
  f ∈ legacyFinalizers → f ∉ OvercommitFinalizers overcommitClean.
Proof.
  intros Hf Hin. apply elem_of_cons in Hin as [->|Hin]; [|by apply elem_of_nil in Hin].
  unfold legacyFinalizers in Hf.
  repeat (apply elem_of_cons in Hf as [Hf|Hf]; [discriminate|]).
  by apply elem_of_nil in Hf.
Qed.

Lemma C5_witness :
  run (Reconcile (worldConflictOn overcommitClassWebhook))
  = ([GetOvercommitLabel; Get; CreateOrUpdate issuer;
      CreateOrUpdate overcommitClassCertificate;
      CreateOrUpdate overcommitClassDeployment;
      CreateOrUpdate overcommitClassService;
      CreateOrUpdate overcommitClassWebhook],
     (emptyResult, Some errConflict))
  ∧ ∃ rest,
      (run (Reconcile (worldConflictOn validatingPodWebhook))).1
      = [GetOvercommitLabel; Get; CreateOrUpdate issuer;
         CreateOrUpdate overcommitClassCertificate;
         CreateOrUpdate overcommitClassDeployment;
         CreateOrUpdate overcommitClassService;
         CreateOrUpdate overcommitClassWebhook;
         CreateOrUpdate validatingpodCertificate;
         CreateOrUpdate validatingPodDeployment;
         CreateOrUpdate validatingPodService;
         CreateOrUpdate validatingPodWebhook;
         CreateOrUpdate occontroller] ++ rest
      ∧ (run (Reconcile (worldConflictOn validatingPodWebhook))).2
        = ({| Requeue := false; RequeueAfter := 10000000000 |}, None).
Proof.
  assert (Hreach : ∀ m, reachesManaged (worldConflictOn m)).
  { intros m. exists "overcommit.inditex.dev/class", overcommitClean.
    repeat split. apply overcommitClean_no_legacy. }
  split.
  - apply (proj2 C5_conflict_only_tolerated_on_pod_webhook
             (worldConflictOn overcommitClassWebhook) overcommitClassWebhook
             errConflict); [done | apply Hreach | | done].
    vm_compute. repeat constructor.
  - destruct (proj1 C5_conflict_only_tolerated_on_pod_webhook
                (worldConflictOn validatingPodWebhook) errConflict)
      as (rest & Hlog & Hok & _); [apply Hreach | | done | done |].
    + vm_compute. repeat constructor.
    + exists rest. split; [exact Hlog | exact (Hok eq_refl)].
Defined.

(** * Properties of the class reconciler, and of both on status updates *)

Lemma classReconcile_converged (w : OvercommitClassReconciler.World) :
  OvercommitClassReconciler.convergesManaged w →
  run (OvercommitClassReconciler.Reconcile w)
  = match OvercommitClassReconciler.totalClassesAnswer w with
    | Some _ =>
        (OvercommitClassReconciler.managedLog
           ++ [OvercommitClassReconciler.GetTotalClasses],
         (emptyResult,
          OvercommitClassReconciler.createOrUpdateAnswer w
            OvercommitClassReconciler.webhookConfig))
    | None =>
        (OvercommitClassReconciler.managedLog
           ++ [OvercommitClassReconciler.GetTotalClasses;
               OvercommitClassReconciler.UpdateResourcesStatus],
         match OvercommitClassReconciler.resourcesStatusAnswer w with
         | Some e => (emptyResult, Some e)
         | None => ({| Requeue := false; RequeueAfter := 10000000000 |}, None)
         end)
    end.
Proof.
  intros (label & class & oc & Hlabel & Hget & Hdel & Hfin & Hoc & Howner & Hall).
  unfold OvercommitClassReconciler.Reconcile,
    OvercommitClassReconciler.createOrUpdate.
  exec_unfold.
  rewrite Hlabel, Hget; simpl. rewrite Hdel, Hfin; simpl.
  rewrite Hoc, Howner, !Hall; simpl.
  destruct (OvercommitClassReconciler.totalClassesAnswer w); simpl; [done|].
  by destruct (OvercommitClassReconciler.resourcesStatusAnswer w).
Qed.

(** C10: when [getTotalClasses] fails after the four managed objects have
    converged, [Reconcile] returns the empty result with the error left by
    the create-or-update of the webhook configuration, which is nil; the
    last call of the tick is [getTotalClasses], so the status of the
    resources is not updated, and no requeue delay is set. *)
Theorem C10_metrics_failure_returns_stale_nil_error
    (w : OvercommitClassReconciler.World) (e : error) :
  OvercommitClassReconciler.convergesManaged w →
  OvercommitClassReconciler.totalClassesAnswer w = Some e →
  run (OvercommitClassReconciler.Reconcile w)
  = (OvercommitClassReconciler.managedLog
       ++ [OvercommitClassReconciler.GetTotalClasses],
     ({| Requeue := false; RequeueAfter := 0 |}, None))
  ∧ (run (OvercommitClassReconciler.Reconcile w)).2.2
    = OvercommitClassReconciler.createOrUpdateAnswer w
        OvercommitClassReconciler.webhookConfig.
Proof.
  intros Hconv Hmetrics.
  rewrite (classReconcile_converged w Hconv), Hmetrics.
  destruct Hconv as (_ & _ & _ & _ & _ & _ & _ & _ & _ & Hall).
  by rewrite Hall.
Qed.

Lemma classWorld_converges (metrics status : option error) :
  OvercommitClassReconciler.convergesManaged (classWorld metrics status).
Proof.
  exists "overcommit.inditex.dev/class", classReady, overcommitClean.
  repeat split.
Qed.

Lemma C10_witness :
  run (OvercommitClassReconciler.Reconcile (classWorld (Some errTimeout) None))
  = ([OvercommitClassReconciler.GetOvercommitLabel;
      OvercommitClassReconciler.Get;
      OvercommitClassReconciler.GetOvercommit;
      OvercommitClassReconciler.CreateOrUpdate OvercommitClassReconciler.deployment;
      OvercommitClassReconciler.CreateOrUpdate OvercommitClassReconciler.service;
      OvercommitClassReconciler.CreateOrUpdate OvercommitClassReconciler.certificate;
      OvercommitClassReconciler.CreateOrUpdate OvercommitClassReconciler.webhookConfig;
      OvercommitClassReconciler.GetTotalClasses],
     ({| Requeue := false; RequeueAfter := 0 |}, None)).
Proof.
  apply (C10_metrics_failure_returns_stale_nil_error
           (classWorld (Some errTimeout) None) errTimeout).
  - apply classWorld_converges.
  - reflexivity.
Defined.

(** ** Status-update failures *)

Lemma reconcileManaged_all_pass (w : World) (log : list Call) :
  issuerIsNil w = false → (∀ m, passes w m = true) →
  (reconcileManaged w log).2
  = ({| Requeue := false; RequeueAfter := 10000000000 |}, None).
Proof.
  intros Hissuer Hpass.
  assert (Hbefore : Forall (λ m, passes w m = true) upsertOrder)
    by (apply Forall_forall; auto).
  unfold upsertOrder in Hbefore. read_passes Hbefore.
  all: unfold reconcileManaged, createOrUpdate, orReturn; exec_unfold.
  all: repeat match goal with E : createOrUpdateAnswer _ _ = _ |- _ => rewrite E end.
  all: rewrite Hissuer; simpl.
  all: repeat match goal with H : IsConflict _ = true |- _ => rewrite H; clear H end.
  all: match goal with
       | |- context [updateOvercommitStatusSafely ?w' ?l] =>
           by destruct (updateOvercommitStatusSafely w' l)
       end.
Qed.

(** C1, as the claim states it for the class reconciler: a failing status
    update never yields an error.  [Reconcile] returns the error of
    [updateResourcesStatus]. *)
Lemma C1_class_reconciler_returns_status_error :
  ¬ (∀ (w : OvercommitClassReconciler.World) (e : error),
       OvercommitClassReconciler.convergesManaged w →
       OvercommitClassReconciler.totalClassesAnswer w = None →
       OvercommitClassReconciler.resourcesStatusAnswer w = Some e →
       (run (OvercommitClassReconciler.Reconcile w)).2
       = ({| Requeue := false; RequeueAfter := 10000000000 |}, None)).
Proof.
  intros H.
  specialize (H (classWorld None (Some errTimeout)) errTimeout
                (classWorld_converges _ _) eq_refl eq_refl).
  vm_compute in H. discriminate H.
Qed.

(** C1, amended: in the singleton reconciler, once the managed objects have
    converged the tick returns a nil error and a requeue after 10 seconds
    whatever the status writer meets; in the class reconciler a failure of
    [updateResourcesStatus] is returned by [Reconcile], with an empty
    result. *)
Theorem C1_status_update_failure :
  (∀ w : World,
     reachesManaged w → (∀ m, passes w m = true) →
     (run (Reconcile w)).2
     = ({| Requeue := false; RequeueAfter := 10000000000 |}, None))
  ∧ (∀ (w : OvercommitClassReconciler.World) (e : error),
       OvercommitClassReconciler.convergesManaged w →
       OvercommitClassReconciler.totalClassesAnswer w = None →
       OvercommitClassReconciler.resourcesStatusAnswer w = Some e →
       run (OvercommitClassReconciler.Reconcile w)
       = (OvercommitClassReconciler.managedLog
            ++ [OvercommitClassReconciler.GetTotalClasses;
                OvercommitClassReconciler.UpdateResourcesStatus],
          (emptyResult, Some e))).
Proof.
  split.
  - intros w Hreach Hpass. rewrite (Reconcile_reachesManaged w Hreach).
    destruct Hreach as (_ & _ & _ & _ & _ & Hissuer).
    by apply reconcileManaged_all_pass.
  - intros w e Hconv Hmetrics Hstatus.
    by rewrite (classReconcile_converged w Hconv), Hmetrics, Hstatus.
Qed.

Lemma C1_witness :
  (run (updateOvercommitStatusSafely worldStatusFails)).2 = Some errTimeout
  ∧ (run (Reconcile worldStatusFails)).2
    = ({| Requeue := false; RequeueAfter := 10000000000 |}, None)
  ∧ (run (OvercommitClassReconciler.Reconcile (classWorld None (Some errTimeout)))).2
    = (emptyResult, Some errTimeout).
Proof.
  split; [reflexivity|]. split.
  - apply (proj1 C1_status_update_failure worldStatusFails).
    + exists "overcommit.inditex.dev/class", overcommitClean.
      repeat split. apply overcommitClean_no_legacy.
    + intros m. reflexivity.
  - rewrite (proj2 C1_status_update_failure (classWorld None (Some errTimeout))
               errTimeout (classWorld_converges _ _) eq_refl eq_refl).
    reflexivity.
Defined.

(** * Properties of the singleton reconciler's mutate functions *)

(** C4, as the claim states it for a service: an existing service whose
    selector the equality kernel reports as unequal would get the desired
    selector.  [Reconcile] leaves an existing service as it is ("Only update
    spec if this is a new resource"). *)
Lemma C4_existing_service_left_unpatched :
  ¬ (∀ (SetControllerReference : Overcommit → list OwnerReference
                                  → error + list OwnerReference)
       (overcommit : Overcommit) (updatedService obj : Service),
       CreationTimestampIsZero obj = false →
       mapsEqual (Selector (Spec updatedService)) (Selector (Spec obj)) = false →
       ∃ obj',
         mutateService SetControllerReference overcommit updatedService obj = Done obj'
         ∧ Selector (Spec obj') = Selector (Spec updatedService)).
Proof.
  intros H.
  destruct (H sampleSetControllerReference overcommitClean
              serviceDesired serviceObserved eq_refl)
    as (obj' & Hdone & Hselector).
  - by vm_compute.
  - injection Hdone as <-. vm_compute in Hselector. discriminate Hselector.
Qed.

(** C4, amended.  New objects (creation timestamp zero): every mutate
    function installs the desired shape and sets the controller reference.
    Existing objects: the issuer, the certificates, the services and the
    webhook configurations are left as they are; of a deployment, each of
    image, env, template annotations, template labels, node selector and
    tolerations is set to the desired value when the kernel reports a
    difference and kept otherwise, nothing else is touched, and the
    controller reference is set exactly when one of them was changed. *)
Theorem C4_singleton_upsert
    (SetControllerReference : Overcommit → list OwnerReference
                              → error + list OwnerReference)
    (overcommit : Overcommit) :
  (∀ obj : Issuer,
     mutateIssuer SetControllerReference overcommit obj
     = if CreationTimestampIsZero obj
       then setControllerReference SetControllerReference overcommit obj
       else Done obj)
  ∧ (∀ updated obj : Certificate,
       mutateCertificate SetControllerReference overcommit updated obj
       = if CreationTimestampIsZero obj
         then setControllerReference SetControllerReference overcommit
                (withSpec obj (Spec updated))
         else Done obj)
  ∧ (∀ updated obj : Service,
       mutateService SetControllerReference overcommit updated obj
       = if CreationTimestampIsZero obj
         then setControllerReference SetControllerReference overcommit
                (withSpec obj (Spec updated))
         else Done obj)
  ∧ (∀ updated obj : WebhookConfiguration,
       mutateOvercommitClassWebhook SetControllerReference overcommit updated obj
       = if CreationTimestampIsZero obj
         then setControllerReference SetControllerReference overcommit
                (withSpec (withAnnotations obj (Annotations updated)) (Webhooks updated))
         else Done obj)
  ∧ (∀ updated obj : WebhookConfiguration,
       mutateValidatingPodWebhook SetControllerReference overcommit updated obj
       = if CreationTimestampIsZero obj
         then setControllerReference SetControllerReference overcommit
                (withSpec obj (Webhooks updated))
         else Done obj)
  ∧ (∀ (generated : Deployment) (image : string) (obj : Deployment),
       Containers (Spec generated) ≠ [] →
       CreationTimestampIsZero obj = true →
       mutateDeployment SetControllerReference overcommit generated image obj
       = setControllerReference SetControllerReference overcommit
           (withAnnotations
              (withLabels (withSpec obj (setContainer0Image (Spec generated) image))
                          (Labels generated))
              (Annotations generated)))
  ∧ (∀ (generated : Deployment) (image : string) (obj : Deployment),
       Containers (Spec generated) ≠ [] →
       Containers (Spec obj) ≠ [] →
       CreationTimestampIsZero obj = false →
       let desired := setContainer0Image (Spec generated) image in
       let sameImage := bool_decide (Image (container0 desired) = Image (container0 (Spec obj))) in
       let sameEnv := envVarsEqual (Env (container0 desired)) (Env (container0 (Spec obj))) in
       let sameAnnotations := mapsEqual (TemplateAnnotations desired) (TemplateAnnotations (Spec obj)) in
       let sameLabels := mapsEqual (TemplateLabels desired) (TemplateLabels (Spec obj)) in
       let sameSelector := mapsEqual (NodeSelector desired) (NodeSelector (Spec obj)) in
       let sameTolerations := TolerationsEqual (Tolerations desired) (Tolerations (Spec obj)) in
       ∃ new : Deployment,
         mutateDeployment SetControllerReference overcommit generated image obj
         = (if sameImage && sameEnv && sameAnnotations && sameLabels
               && sameSelector && sameTolerations
            then Done new
            else setControllerReference SetControllerReference overcommit new)
         ∧ Image (container0 (Spec new))
           = patched sameImage (Image (container0 desired)) (Image (container0 (Spec obj)))
         ∧ Env (container0 (Spec new))
           = patched sameEnv (Env (container0 desired)) (Env (container0 (Spec obj)))
         ∧ TemplateAnnotations (Spec new)
           = patched sameAnnotations (TemplateAnnotations desired)
               (TemplateAnnotations (Spec obj))
         ∧ TemplateLabels (Spec new)
           = patched sameLabels (TemplateLabels desired) (TemplateLabels (Spec obj))
         ∧ NodeSelector (Spec new)
           = patched sameSelector (NodeSelector desired) (NodeSelector (Spec obj))
         ∧ Tolerations (Spec new)
           = patched sameTolerations (Tolerations desired) (Tolerations (Spec obj))
         ∧ Replicas (Spec new) = Replicas (Spec obj)
         ∧ tail (Containers (Spec new)) = tail (Containers (Spec obj))
         ∧ Labels new = Labels obj
         ∧ Annotations new = Annotations obj
         ∧ OwnerReferences new = OwnerReferences obj
         ∧ CreationTimestampIsZero new = false).
Proof.
  repeat split; try done.
  - intros generated image obj Hgen Hzero. unfold mutateDeployment.
    by rewrite (bool_decide_eq_false_2 _ Hgen), Hzero.
  - intros generated image obj Hgen Hobj Hzero. unfold mutateDeployment.
    rewrite (bool_decide_eq_false_2 _ Hgen), Hzero, (bool_decide_eq_false_2 _ Hobj).
    destruct generated as [gz grefs glabels gannotations
                             [greplicas gta gtl gns gtol [|g0 gs]]]; [done|].
    destruct obj as [oz orefs olabels oannotations
                       [oreplicas ota otl ons otol [|o0 os]]]; [done|].
    simpl in Hzero. subst oz.
    unfold patched, setContainer0Image, setContainer0Env, withSpec,
      withContainers, withTemplateAnnotations, withTemplateLabels,
      withNodeSelector, withTolerations, container0; simpl.
    destruct (decide (image = Image o0)) as [Himg|Himg];
      [rewrite (bool_decide_eq_false_2 (image ≠ Image o0)) by tauto;
       rewrite (bool_decide_eq_true_2 (image = Image o0)) by done
      |rewrite (bool_decide_eq_true_2 (image ≠ Image o0)) by done;
       rewrite (bool_decide_eq_false_2 (image = Image o0)) by done];
      simpl;
      destruct (envVarsEqual (Env g0) (Env o0)); simpl;
      destruct (mapsEqual gta ota); simpl;
      destruct (mapsEqual gtl otl); simpl;
      destruct (mapsEqual gns ons); simpl;
      destruct (TolerationsEqual gtol otol); simpl;
      eexists; (split; [reflexivity|]); simpl; repeat split; done.
Qed.

Lemma C4_witness :
  ∃ new : Deployment,
    mutateDeployment sampleSetControllerReference overcommitClean
      deploymentGenerated "registry/operator:2.0.0" deploymentObserved
    = setControllerReference sampleSetControllerReference overcommitClean new
    ∧ Image (container0 (Spec new)) = "registry/operator:2.0.0"
    ∧ NodeSelector (Spec new) = None
    ∧ Tolerations (Spec new) = Some [tolNotReady60]
    ∧ Replicas (Spec new) = Some 3%Z.
Proof.
  destruct (proj2 (proj2 (proj2 (proj2 (proj2 (proj2
              (C4_singleton_upsert sampleSetControllerReference overcommitClean))))))
              deploymentGenerated "registry/operator:2.0.0" deploymentObserved)
    as (new & Hmutate & Himage & _ & _ & _ & Hselector & Htolerations & Hreplicas & _).
  - discriminate.
  - discriminate.
  - reflexivity.
  - exists new.
    match type of Hmutate with
    | _ = (if ?c then _ else _) =>
        let v := eval vm_compute in c in change c with v in Hmutate
    end.
    split; [exact Hmutate|]. split; [exact Himage|].
    split; [exact Hselector|]. split; [exact Htolerations | exact Hreplicas].
Defined.

(** * Further properties of the equality kernel *)

(** ** Reflexivity *)

(** Each of the five helpers answers true on two copies of the same value,
    a nil slice or map included; [mapsEqual] answers the same in both
    directions. *)
Theorem kernel_helpers_reflexive :
  (∀ a : slice Toleration, TolerationsEqual a a = true)
  ∧ (∀ a : slice EnvVar, envVarsEqual a a = true)
  ∧ (∀ a : slice ServicePort, portsEqual a a = true)
  ∧ (∀ a : slice string, slicesEqual a a = true)
  ∧ (∀ a : gomap string, mapsEqual a a = true)
  ∧ (∀ a b : gomap string, mapsEqual a b = mapsEqual b a).
Proof.
  split; [apply TolerationsEqual_refl|]. split; [apply envVarsEqual_refl|].
  split; [apply portsEqual_refl|]. split; [apply slicesEqual_refl|].
  split; [apply mapsEqual_refl | apply mapsEqual_sym].
Qed.

(** ** Symmetry without repeated keys *)

(** On two slices in which no key occurs twice (toleration key, variable
    name, port name, string), each slice helper answers the same in both
    directions. *)
Theorem slice_helpers_symmetric_without_repeats :
  (∀ a b : slice Toleration,
     NoDup (createTolerationKey <$> elems a) →
     NoDup (createTolerationKey <$> elems b) →
     TolerationsEqual a b = TolerationsEqual b a)
  ∧ (∀ a b : slice EnvVar,
       NoDup (EnvName <$> elems a) → NoDup (EnvName <$> elems b) →
       envVarsEqual a b = envVarsEqual b a)
  ∧ (∀ a b : slice ServicePort,
       NoDup (PortName <$> elems a) → NoDup (PortName <$> elems b) →
       portsEqual a b = portsEqual b a)
  ∧ (∀ a b : slice string,
       NoDup (elems a) → NoDup (elems b) →
       slicesEqual a b = slicesEqual b a).
Proof.
  split; [apply TolerationsEqual_sym_nodup|].
  split; [apply envVarsEqual_sym_nodup|].
  split; [apply portsEqual_sym_nodup | apply slicesEqual_sym_nodup].
Qed.

Lemma slice_helpers_symmetric_witness :
  envVarsEqual (Some [envA1; envB2]) (Some [envB2; envA1])
  = envVarsEqual (Some [envB2; envA1]) (Some [envA1; envB2])
  ∧ portsEqual (Some [portHttp; portHttps]) (Some [portHttps])
    = portsEqual (Some [portHttps]) (Some [portHttp; portHttps]).
Proof.
  split.
  - apply (proj1 (proj2 slice_helpers_symmetric_without_repeats));
      apply (bool_decide_unpack _); vm_compute; exact I.
  - apply (proj1 (proj2 (proj2 slice_helpers_symmetric_without_repeats)));
      apply (bool_decide_unpack _); vm_compute; exact I.
Defined.

(** ** What [slicesEqual] decides *)

Lemma stringSet_lookup (a : list string) (k : string) :
  default false (stringSet a !! k) = true ↔ k ∈ a.
Proof.
  assert (Hdom : is_Some (stringSet a !! k) ↔ k ∈ a).
  { rewrite <- (list_fmap_id a) at 2.
    apply (foldl_insert_empty_is_Some id (λ _ : string, true)). }
  rewrite <- Hdom. split.
  - intros H. destruct (stringSet a !! k); [by eexists | done].
  - intros [v Hv]. rewrite Hv. simpl. by apply (stringSet_true a k).
Qed.

(** [slicesEqual] is true exactly when the slices have the same length and
    every string of the first occurs in the second; order and how often a
    string is repeated play no part beyond the length. *)
Theorem slicesEqual_length_and_inclusion (a b : slice string) :
  slicesEqual a b = true
  ↔ len a = len b ∧ ∀ x, x ∈ elems a → x ∈ elems b.
Proof.
  unfold slicesEqual.
  destruct (Nat.eqb_spec (len a) (len b)) as [Hlen|Hlen]; simpl.
  - rewrite forallb_map_to_list; simpl. split.
    + intros Hcov. split; [done|]. intros x Hx.
      apply stringSet_lookup in Hx.
      destruct (stringSet (elems a) !! x) as [v|] eqn:Hv; [|done].
      apply stringSet_lookup. by apply (Hcov x v).
    + intros [_ Hin] k v Hk. apply stringSet_lookup, Hin, stringSet_lookup.
      by rewrite Hk, (stringSet_true _ _ _ Hk).
  - split; [done | by intros [? _]].
Qed.

(** ** What [envVarsEqual] decides without repeated names *)

Section built_maps_lookup.
Context {A V : Type} (key : A → string) (val : A → V).

Lemma foldl_insert_lookup_notin (l : list A) (m0 : gmap string V) (k : string) :
  k ∉ key <$> l → foldl (λ m x, <[key x := val x]> m) m0 l !! k = m0 !! k.
Proof.
  revert m0. induction l as [|x l IH]; intros m0 Hk; [done|].
  rewrite fmap_cons, not_elem_of_cons in Hk. destruct Hk as [Hne Hk].
  simpl. rewrite IH by done. by rewrite lookup_insert_ne.
Qed.

Lemma foldl_insert_lookup_nodup (l : list A) (m0 : gmap string V) (x : A) :
  NoDup (key <$> l) → x ∈ l →
  foldl (λ m x, <[key x := val x]> m) m0 l !! key x = Some (val x).
Proof.
  revert m0. induction l as [|y l IH]; intros m0 Hnodup Hx.
  { by apply elem_of_nil in Hx. }
  rewrite fmap_cons, NoDup_cons in Hnodup. destruct Hnodup as [Hy Hnodup].
  simpl. apply elem_of_cons in Hx as [->|Hx].
  - rewrite foldl_insert_lookup_notin by done. by rewrite lookup_insert_eq.
  - by apply IH.
Qed.

Lemma foldl_insert_lookup_inv (l : list A) (m0 : gmap string V) (k : string) (v : V) :
  foldl (λ m x, <[key x := val x]> m) m0 l !! k = Some v →
  m0 !! k = Some v ∨ ∃ x, x ∈ l ∧ key x = k ∧ val x = v.
Proof.
  revert m0. induction l as [|y l IH]; intros m0 Hk; [by left|].
  simpl in Hk. apply IH in Hk as [Hk|(x & Hx & Hkx & Hvx)].
  - apply lookup_insert_Some in Hk as [[<- <-]|[_ Hk]]; [|by left].
    right. exists y. split; [by left | done].
  - right. exists x. split; [by right | done].
Qed.
End built_maps_lookup.

Lemma envMap_lookup (a : list EnvVar) (k v : string) :
  NoDup (EnvName <$> a) →
  envMap a !! k = Some v ↔ (k, v) ∈ envPairs (Some a).
Proof.
  intros Hnodup. unfold envPairs, envMap; simpl. rewrite list_elem_of_fmap. split.
  - intros [Hk|(x & Hx & <- & <-)]%foldl_insert_lookup_inv; [done|]. by exists x.
  - intros (x & [= -> ->] & Hx).
    by apply (foldl_insert_lookup_nodup EnvName EnvValue).
Qed.

Lemma envVarsEqual_covered (a b : list EnvVar) :
  envVarsEqual (Some a) (Some b) = true
  ↔ length a = length b ∧ ∀ k v, envMap a !! k = Some v → envMap b !! k = Some v.
Proof.
  unfold envVarsEqual, len; simpl.
  destruct (Nat.eqb_spec (length a) (length b)) as [Hlen|Hlen]; simpl.
  - rewrite forallb_map_to_list; simpl. split.
    + intros Hcov. split; [done|]. intros k v Hk. specialize (Hcov k v Hk).
      destruct (envMap b !! k); [|done]. by apply bool_decide_eq_true in Hcov as ->.
    + intros [_ Hcov] k v Hk. rewrite (Hcov k v Hk). by apply bool_decide_eq_true.
  - split; [done | by intros [? _]].
Qed.

(** On slices without a repeated variable name, [envVarsEqual] is true
    exactly when the (name, value) pairs of one slice are a rearrangement of
    those of the other. *)
Theorem envVarsEqual_permutation_without_repeats (a b : slice EnvVar) :
  NoDup (EnvName <$> elems a) → NoDup (EnvName <$> elems b) →
  envVarsEqual a b = true ↔ envPairs a ≡ₚ envPairs b.
Proof.
  intros Ha Hb.
  assert (Hpairs : ∀ l : list EnvVar,
            NoDup (EnvName <$> l) → NoDup (envPairs (Some l))).
  { intros l Hl. apply (NoDup_fmap_1 fst). unfold envPairs; simpl.
    by rewrite <- list_fmap_compose. }
  assert (Hview : ∀ s : slice EnvVar, envPairs s = envPairs (Some (elems s)))
    by (by intros [l|]).
  assert (Hsame : ∀ s t : slice EnvVar,
            envVarsEqual s t = envVarsEqual (Some (elems s)) (Some (elems t)))
    by (by intros [?|] [?|]).
  rewrite (Hview a), (Hview b), (Hsame a b).
  split.
  - intros Hab.
    assert (Hba : envVarsEqual (Some (elems b)) (Some (elems a)) = true)
      by (by rewrite <- (envVarsEqual_sym_nodup (Some (elems a)) (Some (elems b)))).
    apply envVarsEqual_covered in Hab as [_ Hab], Hba as [_ Hba].
    apply NoDup_Permutation; [by apply Hpairs | by apply Hpairs |].
    intros [k v]. rewrite <- !envMap_lookup by done. split; auto.
  - intros Hperm. apply envVarsEqual_covered. split.
    + apply Permutation_length in Hperm. unfold envPairs in Hperm; simpl in Hperm.
      by rewrite !length_fmap in Hperm.
    + intros k v. rewrite !envMap_lookup by done. by rewrite Hperm.
Qed.

Lemma envVarsEqual_permutation_witness :
  envVarsEqual (Some [envA1; envB2]) (Some [envB2; envA1]) = true.
Proof.
  apply (envVarsEqual_permutation_without_repeats
           (Some [envA1; envB2]) (Some [envB2; envA1])).
  - apply (bool_decide_unpack _); vm_compute; exact I.
  - apply (bool_decide_unpack _); vm_compute; exact I.
  - apply Permutation_swap.
Defined.

(** ** How far the toleration key tells tolerations apart *)

Lemma string_app_cons (x : Ascii.ascii) (a b : string) :
  String.append (String x a) b = String x (String.append a b).
Proof. reflexivity. Qed.

Lemma string_app_nil (b : string) : String.append "" b = b.
Proof. reflexivity. Qed.

Lemma string_length_app (a b : string) :
  String.length (String.append a b) = String.length a + String.length b.
Proof.
  induction a as [|c a IH]; [done|].
  rewrite string_app_cons. simpl. by rewrite IH.
Qed.

Lemma string_app_assoc (a b c : string) :
  String.append (String.append a b) c = String.append a (String.append b c).
Proof.
  induction a as [|x a IH]; [done|]. by rewrite !string_app_cons, IH.
Qed.

Lemma string_app_inj_l (s a b : string) :
  String.append s a = String.append s b → a = b.
Proof.
  induction s as [|x s IH]; [done|].
  rewrite !string_app_cons. intros H. injection H as H. auto.
Qed.

Lemma string_app_inj_r (s a b : string) :
  String.append a s = String.append b s → a = b.
Proof.
  revert b. induction a as [|x a IH]; intros [|y b] H.
  - done.
  - apply (f_equal String.length) in H.
    rewrite string_app_nil, string_length_app in H. simpl in H. lia.
  - apply (f_equal String.length) in H.
    rewrite string_app_nil, string_length_app in H. simpl in H. lia.
  - rewrite !string_app_cons in H. injection H as -> H. by rewrite (IH b H).
Qed.

Lemma TolerationsEqual_singletons (x y : Toleration) :
  TolerationsEqual (Some [x]) (Some [y]) = true
  ↔ createTolerationKey x = createTolerationKey y.
Proof.
  rewrite TolerationsEqual_nonnil. simpl. split.
  - intros [_ H]. specialize (H y ltac:(by left)).
    apply elem_of_cons in H as [H|H]; [done | by apply elem_of_nil in H].
  - intros H. split; [done|]. intros z Hz.
    apply elem_of_cons in Hz as [->|Hz]; [|by apply elem_of_nil in Hz].
    rewrite H. by left.
Qed.

(** Two one-element toleration lists whose tolerations differ in exactly one
    of key, operator, value, effect and nil-ness of [TolerationSeconds]
    compare as unequal. *)
Theorem TolerationsEqual_sees_one_changed_part (x y : Toleration) :
  differInOnePart x y → TolerationsEqual (Some [x]) (Some [y]) = false.
Proof.
  intros Hdiff. apply not_true_is_false. rewrite TolerationsEqual_singletons.
  destruct x as [xk xo xv xe xs], y as [yk yo yv ye ys].
  unfold differInOnePart, createTolerationKey in *; simpl in *. intros Hkey.
  destruct Hdiff as [(Hne & -> & -> & -> & Hs)|[(-> & Hne & -> & -> & Hs)|
    [(-> & -> & Hne & -> & Hs)|[(-> & -> & -> & Hne & Hs)|(-> & -> & -> & -> & Hne)]]]].
  - rewrite Hs in Hkey. by apply string_app_inj_r in Hkey.
  - rewrite Hs in Hkey. do 2 apply string_app_inj_l in Hkey.
    by apply string_app_inj_r in Hkey.
  - rewrite Hs in Hkey. do 4 apply string_app_inj_l in Hkey.
    by apply string_app_inj_r in Hkey.
  - rewrite Hs in Hkey. do 6 apply string_app_inj_l in Hkey.
    by apply string_app_inj_r in Hkey.
  - do 8 apply string_app_inj_l in Hkey. by destruct xs, ys.
Qed.

Lemma TolerationsEqual_one_part_witness :
  TolerationsEqual (Some [tolNotReady]) (Some [tolUnreachable]) = false
  ∧ TolerationsEqual (Some [tolNotReady]) (Some [tolNotReady30]) = false.
Proof.
  split.
  - apply TolerationsEqual_sees_one_changed_part. left. by repeat split.
  - apply TolerationsEqual_sees_one_changed_part. do 4 right. by repeat split.
Defined.

(** The key joins its parts with "-" and the parts may hold a "-"
    themselves: moving the text [operator ++ "-"] from the end of the key
    field to the front of the value field leaves the joined key the same, so
    two such tolerations, with different key and value fields, compare as
    equal. *)
Theorem TolerationsEqual_joined_key_collision
    (key operator value effect : string) (seconds : option Z) :
  let x := {| Key := String.append key (String.append "-" operator);
              Operator := operator;
              Value := value; Effect := effect; TolerationSeconds := seconds |} in
  let y := {| Key := key; Operator := operator;
              Value := String.append operator (String.append "-" value);
              Effect := effect;
              TolerationSeconds := seconds |} in
  Key x ≠ Key y ∧ TolerationsEqual (Some [x]) (Some [y]) = true.
Proof.
  simpl. split.
  - intros H. apply (f_equal String.length) in H.
    rewrite !string_length_app in H. simpl in H. lia.
  - apply TolerationsEqual_singletons. unfold createTolerationKey; simpl.
    by rewrite !string_app_assoc.
Qed.

(** * Properties of [webhookChanged] *)

Lemma rangeDiffers_false {A B} (g : A → B) (differ : A → A → bool) :
  (∀ x y, differ x y = false ↔ g x = g y) →
  ∀ xs ys i,
    rangeDiffers differ i xs ys = false
    ↔ g <$> xs = g <$> take (length xs) (drop i ys).
Proof.
  intros Hdiffer. induction xs as [|x xs IH]; intros ys i; simpl; [done|].
  destruct (ys !! i) as [y|] eqn:Hy.
  - rewrite (drop_S _ _ _ Hy); simpl.
    destruct (differ x y) eqn:Hxy.
    + split; [done|]. intros [= Hg _]. apply Hdiffer in Hg. congruence.
    + rewrite IH. apply Hdiffer in Hxy. split.
      * intros Htail. by f_equal.
      * by intros [= _ Htail].
  - rewrite drop_ge by (by apply lookup_ge_None). done.
Qed.

Lemma rangeDiffers_same_length {A B} (g : A → B) (differ : A → A → bool)
    (xs ys : list A) :
  (∀ x y, differ x y = false ↔ g x = g y) →
  length xs = length ys →
  rangeDiffers differ 0 xs ys = false ↔ g <$> xs = g <$> ys.
Proof.
  intros Hdiffer Hlen. rewrite (rangeDiffers_false g differ Hdiffer).
  by rewrite drop_0, Hlen, firstn_all.
Qed.

Lemma orelse_false (b c : bool) :
  (if b then true else c) = false ↔ b = false ∧ c = false.
Proof. destruct b, c; split; (done || by intros [? ?]). Qed.

Lemma versionDiffers_false (x y : string) :
  bool_decide (x ≠ y) = false ↔ id x = id y.
Proof.
  rewrite bool_decide_eq_false. unfold id. split; [apply dec_stable|].
  intros Heq Hne. by apply Hne.
Qed.

Lemma conditionDiffers_false (x y : MatchCondition) :
  bool_decide (MatchName x ≠ MatchName y)
  || bool_decide (Expression x ≠ Expression y) = false
  ↔ (MatchName x, Expression x) = (MatchName y, Expression y).
Proof.
  rewrite orb_false_iff, !bool_decide_eq_false. split.
  - intros [H1 H2]. apply dec_stable in H1, H2. congruence.
  - intros [= -> ->]. split; by intros ?.
Qed.

Lemma webhookChanged_compares_parts (updated current : MutatingWebhook) :
  webhookChanged (AMutatingWebhook updated) (AMutatingWebhook current) = false
  ↔ comparedParts updated = comparedParts current.
Proof.
  unfold webhookChanged, comparedParts.
  rewrite !orelse_false, !negb_false_iff, bool_decide_eq_false, !Nat.eqb_eq.
  match goal with
  | |- _ ∧ _ ∧ ?differs = false ∧ _ ↔ _ =>
      assert (Hservice :
        differs = false
        ↔ (λ s, (ServiceName s, ServiceNamespace s)) <$> ClientConfigServiceRef updated
          = (λ s, (ServiceName s, ServiceNamespace s)) <$> ClientConfigServiceRef current)
  end.
  { destruct (ClientConfigServiceRef updated) as [u|],
             (ClientConfigServiceRef current) as [c|]; simpl; try done.
    rewrite orb_false_iff, !bool_decide_eq_false. split.
    - intros [H1 H2]. apply dec_stable in H1, H2. congruence.
    - intros [= -> ->]. split; by intros ?. }
  split.
  - intros (Hname & Hrules & Hs & Hlv & Hv & Hlc & Hc & _).
    apply dec_stable in Hname. apply Hservice in Hs.
    apply (rangeDiffers_same_length id) in Hv;
      [|apply versionDiffers_false|exact Hlv].
    rewrite !list_fmap_id in Hv.
    apply (rangeDiffers_same_length (λ c, (MatchName c, Expression c))) in Hc;
      [|apply conditionDiffers_false|exact Hlc].
    by rewrite Hname, Hrules, Hs, Hv, Hc.
  - intros [= Hname Hrules Hs Hv Hc].
    assert (Hlv : len (WebhookAdmissionReviewVersions updated)
                  = len (WebhookAdmissionReviewVersions current))
      by (unfold len; by rewrite Hv).
    assert (Hlc : len (MatchConditions updated) = len (MatchConditions current)).
    { unfold len. apply (f_equal length) in Hc. by rewrite !length_fmap in Hc. }
    repeat split; try done.
    + by intros ?.
    + by apply Hservice.
    + apply (rangeDiffers_same_length id);
        [apply versionDiffers_false|exact Hlv|by rewrite !list_fmap_id].
    + by apply (rangeDiffers_same_length (λ c, (MatchName c, Expression c)));
        [apply conditionDiffers_false|exact Hlc|].
Qed.

(** [webhookChanged] on two mutating webhooks is false exactly when they
    agree on name, number of rules, presence, name and namespace of the
    client-config service, admission review versions in order, and names
    and expressions of the match conditions in order.  Nothing else of a
    webhook is looked at, and a nil slice counts as an empty one. *)
Theorem webhookChanged_false_iff (updated current : MutatingWebhook) :
  webhookChanged (AMutatingWebhook updated) (AMutatingWebhook current) = false
  ↔ comparedParts updated = comparedParts current.
Proof.
  split.
  - intros Hsame. by apply webhookChanged_compares_parts.
  - intros Hparts. by apply webhookChanged_compares_parts.
Qed.

(** On mutating webhooks [webhookChanged] is false on two copies of the same
    webhook and answers the same in both directions; when either argument
    is not a [MutatingWebhook] it is true, even on two copies of one value. *)
Theorem webhookChanged_reflexive_symmetric :
  (∀ w : MutatingWebhook,
     webhookChanged (AMutatingWebhook w) (AMutatingWebhook w) = false)
  ∧ (∀ updated current : AnyValue,
       webhookChanged updated current = webhookChanged current updated)
  ∧ (∀ other : AnyValue,
       webhookChanged AnotherValue other = true
       ∧ webhookChanged other AnotherValue = true).
Proof.
  split; [by intros w; apply webhookChanged_compares_parts|]. split.
  - intros [u|] [c|]; try done.
    destruct (webhookChanged (AMutatingWebhook u) (AMutatingWebhook c)) eqn:Huc,
             (webhookChanged (AMutatingWebhook c) (AMutatingWebhook u)) eqn:Hcu;
      try done.
    + apply webhookChanged_compares_parts in Hcu.
      symmetry in Hcu. apply webhookChanged_compares_parts in Hcu. congruence.
    + apply webhookChanged_compares_parts in Huc.
      symmetry in Huc. apply webhookChanged_compares_parts in Huc. congruence.
  - intros [w|]; by split.
Qed.

(** A change of the rules that keeps their number, of the failure policy or
    of the path of the client-config service is not reported. *)
Theorem webhookChanged_blind_to_rule_content (w : MutatingWebhook)
    (rules : slice RuleWithOperations) (failurePolicy path : option string) :
  len rules = len (Rules w) →
  webhookChanged (AMutatingWebhook (withRuleContent w rules failurePolicy path))
                 (AMutatingWebhook w) = false.
Proof.
  intros Hlen. apply webhookChanged_compares_parts.
  unfold comparedParts, withRuleContent; simpl. rewrite Hlen.
  by destruct (ClientConfigServiceRef w).
Qed.

Lemma webhookChanged_blind_witness :
  withRuleContent webhookSample (Rules webhookSampleOtherRules) (Some "Fail")
    (Some "/other") = webhookSampleOtherRules
  ∧ webhookSampleOtherRules ≠ webhookSample
  ∧ webhookChanged (AMutatingWebhook webhookSampleOtherRules)
                   (AMutatingWebhook webhookSample) = false.
Proof.
  split; [reflexivity|]. split; [discriminate|].
  exact (webhookChanged_blind_to_rule_content webhookSample
           (Rules webhookSampleOtherRules) (Some "Fail") (Some "/other") eq_refl).
Defined.

(** * More on the singleton reconciler: what each call and each result
      depends on *)

Lemma find_before {f : Managed → bool} (order : list Managed) (m : Managed) :
  find f order = Some m →
  f m = true ∧ Forall (λ m', f m' = false) (before m order).
Proof.
  induction order as [|m' order IH]; [done|]. simpl.
  destruct (f m') eqn:Hm'.
  - intros [= ->]. split; [done|]. by rewrite decide_True.
  - intros Hfind. destruct (IH Hfind) as [Hm Hbefore]. split; [done|].
    destruct (decide (m' = m)) as [->|_]; [congruence|].
    by apply List.Forall_cons.
Qed.

Lemma firstFailing_Some (w : World) (m : Managed) :
  firstFailing w = Some m →
  passes w m = false ∧ Forall (λ m', passes w m' = true) (upsertsBefore m).
Proof.
  intros Hfind. apply find_before in Hfind as [Hm Hbefore].
  split; [by apply negb_true_iff|].
  eapply Forall_impl; [exact Hbefore|]. intros m'. apply negb_false_iff.
Qed.

Lemma firstFailing_None (w : World) :
  firstFailing w = None ↔ ∀ m, passes w m = true.
Proof.
  unfold firstFailing. split.
  - intros Hnone m. apply negb_false_iff.
    apply (find_none _ _ Hnone m). unfold upsertOrder.
    destruct m; simpl; tauto.
  - intros Hpass. destruct (find _ _) as [m|] eqn:Hfind; [|done].
    apply find_some in Hfind as [_ Hm]. by rewrite Hpass in Hm.
Qed.

Lemma statusLoop_status_calls (w : World) (remaining : nat) :
  ∀ attempt log,
    ∃ log', (statusLoop w remaining attempt log).1 = log ++ log'
            ∧ Forall (λ c, isStatusCall c = true) log'.
Proof.
  induction remaining as [|remaining IH]; intros attempt log.
  - exists []. simpl. by rewrite app_nil_r.
  - simpl. exec_unfold.
    destruct (freshAnswer w attempt) as [err|oc].
    { exists [GetCluster]. split; [by destruct (notNil _)|].
      by apply List.Forall_cons. }
    assert (Hstop : ∀ r : option error,
              ∃ log', ((log ++ [GetCluster]) ++ [UpdateOvercommitStatus], r).1
                      = log ++ log' ∧ Forall (λ c, isStatusCall c = true) log').
    { intros r. exists [GetCluster; UpdateOvercommitStatus].
      simpl. rewrite <- app_assoc. split; [done|].
      by repeat apply List.Forall_cons. }
    destruct (statusAnswer w attempt) as [e|]; [|by apply Hstop].
    destruct (attempt =? 4)%nat; [by apply Hstop|].
    destruct (IsConflict e); [|by apply Hstop].
    destruct (IH (S attempt)
                 (((log ++ [GetCluster]) ++ [UpdateOvercommitStatus])
                    ++ [Sleep (backoffDuration attempt)]))
      as (log' & Hlog & Hall).
    exists (GetCluster :: UpdateOvercommitStatus :: Sleep (backoffDuration attempt) :: log').
    split; [by rewrite Hlog, <- !app_assoc|].
    by repeat apply List.Forall_cons.
Qed.

(** [reconcileManaged] against the order of the managed objects: it stops
    at the first object whose create-or-update does not pass. *)
Lemma reconcileManaged_first_failing (w : World) (log : list Call) :
  issuerIsNil w = false →
  match firstFailing w with
  | Some m =>
      reconcileManaged w log
      = (log ++ (CreateOrUpdate <$> upsertsBefore m ++ [m]),
         (emptyResult, createOrUpdateAnswer w m))
  | None =>
      ∃ log',
        reconcileManaged w log
        = (log ++ (CreateOrUpdate <$> upsertOrder) ++ log',
           ({| Requeue := false; RequeueAfter := 10000000000 |}, None))
        ∧ Forall (λ c, isStatusCall c = true) log'
  end.
Proof.
  intros Hissuer.
  unfold firstFailing, upsertOrder, reconcileManaged, createOrUpdate, orReturn.
  exec_unfold. rewrite Hissuer. simpl find. unfold passes.
  repeat match goal with
         | |- context [createOrUpdateAnswer w ?m] =>
             lazymatch m with
             | validatingPodWebhook => fail
             | occontroller => fail
             | _ => let E := fresh "E" in
                    destruct (createOrUpdateAnswer w m) as [?|] eqn:E;
                    [simpl; rewrite E; by rewrite <- ?app_assoc|]; simpl
             end
         end.
  assert (Hrest : ∀ log0,
    log0 = log ++ (CreateOrUpdate <$> upsertsBefore occontroller) →
    match (if negb match createOrUpdateAnswer w occontroller with
                   | Some e => bool_decide (occontroller = validatingPodWebhook)
                               && IsConflict e
                   | None => true
                   end
           then Some occontroller else None) with
    | Some m =>
        (if notNil (createOrUpdateAnswer w occontroller)
         then λ l, (l, (emptyResult, createOrUpdateAnswer w occontroller))
         else λ l,
           let '(l', _) := updateOvercommitStatusSafely w l in
           (l', ({| Requeue := false; RequeueAfter := Second * 10 |}, None)))
          (log0 ++ [CreateOrUpdate occontroller])
        = (log ++ (CreateOrUpdate <$> upsertsBefore m ++ [m]),
           (emptyResult, createOrUpdateAnswer w m))
    | None =>
        ∃ log',
          (if notNil (createOrUpdateAnswer w occontroller)
           then λ l, (l, (emptyResult, createOrUpdateAnswer w occontroller))
           else λ l,
             let '(l', _) := updateOvercommitStatusSafely w l in
             (l', ({| Requeue := false; RequeueAfter := Second * 10 |}, None)))
            (log0 ++ [CreateOrUpdate occontroller])
          = (log ++ (CreateOrUpdate <$> upsertOrder) ++ log',
             ({| Requeue := false; RequeueAfter := 10000000000 |}, None))
          ∧ Forall (λ c, isStatusCall c = true) log'
    end).
  { intros log0 ->.
    destruct (createOrUpdateAnswer w occontroller) as [e|] eqn:Hctl; simpl.
    - by rewrite Hctl, <- !app_assoc.
    - unfold updateOvercommitStatusSafely.
      destruct (statusLoop_status_calls w maxRetries 0
                  ((log ++ (CreateOrUpdate <$> upsertsBefore occontroller))
                     ++ [CreateOrUpdate occontroller]))
        as (log' & Hlog & Hall).
      destruct (statusLoop w maxRetries 0 _) as [l' r] eqn:Hrun.
      simpl in Hlog. subst l'. exists log'. split; [|done].
      by rewrite <- !app_assoc. }
  destruct (createOrUpdateAnswer w validatingPodWebhook) as [e|] eqn:Hpod; simpl.
  - destruct (IsConflict e) eqn:Hconflict; simpl.
    + apply Hrest. by rewrite <- !app_assoc.
    + by rewrite Hpod, <- !app_assoc.
  - apply Hrest. by rewrite <- !app_assoc.
Qed.

Lemma before_prefix (m m' : Managed) (order : list Managed) :
  m' ∈ before m order → ∃ rest, before m order = before m' order ++ rest.
Proof.
  induction order as [|x order IH]; simpl; [by intros ?%elem_of_nil|].
  destruct (decide (x = m)) as [->|Hx]; [by intros ?%elem_of_nil|].
  intros [->|Hin]%elem_of_cons.
  - rewrite decide_True by done. by eexists.
  - destruct (decide (x = m')) as [->|Hx']; [by eexists|].
    destruct (IH Hin) as [rest ->]. by exists rest.
Qed.

Lemma passes_before (w : World) (m m' : Managed) :
  Forall (λ x, passes w x = true) (upsertsBefore m) →
  m' ∈ upsertsBefore m ++ [m] →
  Forall (λ x, passes w x = true) (upsertsBefore m').
Proof.
  intros Hall [Hin|Hin]%elem_of_app.
  - destruct (before_prefix m m' upsertOrder Hin) as [rest Hrest].
    unfold upsertsBefore in *. rewrite Hrest in Hall.
    by apply Forall_app in Hall as [? _].
  - apply list_elem_of_singleton in Hin as ->. done.
Qed.

(** The five ways a tick of [Reconcile] goes. *)
Lemma Reconcile_cases (w : World) :
  (∃ err, labelAnswer w = inl err
          ∧ run (Reconcile w) = ([GetOvercommitLabel], (emptyResult, Some err)))
  ∨ (∃ label err,
       labelAnswer w = inr label ∧ getAnswer w = inl err
       ∧ run (Reconcile w)
         = ([GetOvercommitLabel; Get], (emptyResult, IgnoreNotFound (Some err))))
  ∨ (∃ label overcommit,
       labelAnswer w = inr label ∧ getAnswer w = inr overcommit
       ∧ (∃ f, f ∈ legacyFinalizers ∧ f ∈ OvercommitFinalizers overcommit)
       ∧ run (Reconcile w)
         = ([GetOvercommitLabel; Get;
             Update (filter (λ f, f ∉ legacyFinalizers) (OvercommitFinalizers overcommit))],
            match updateAnswer w with
            | Some e => (emptyResult, Some e)
            | None => ({| Requeue := false; RequeueAfter := 1000000000 |}, None)
            end))
  ∨ (∃ label overcommit,
       labelAnswer w = inr label ∧ getAnswer w = inr overcommit
       ∧ (∀ f, f ∈ legacyFinalizers → f ∉ OvercommitFinalizers overcommit)
       ∧ issuerIsNil w = true
       ∧ run (Reconcile w)
         = ([GetOvercommitLabel; Get],
            (emptyResult, Some (Errorf "generated issuer is nil"))))
  ∨ (reachesManaged w
     ∧ run (Reconcile w) = reconcileManaged w [GetOvercommitLabel; Get]).
Proof.
  destruct (labelAnswer w) as [err|label] eqn:Hlabel.
  { left. exists err. split; [done|].
    unfold Reconcile. exec_unfold. by rewrite Hlabel. }
  destruct (getAnswer w) as [err|overcommit] eqn:Hget.
  { right; left. exists label, err. split; [done|]. split; [done|].
    unfold Reconcile. exec_unfold. rewrite Hlabel, Hget; simpl.
    by destruct (IsNotFound err). }
  destruct (decide (Exists (λ f, f ∈ OvercommitFinalizers overcommit) legacyFinalizers))
    as [Hlegacy|Hnone].
  { right; right; left. exists label, overcommit.
    split; [done|]. split; [done|].
    split; [by apply Exists_exists in Hlegacy|].
    unfold Reconcile, orReturn. exec_unfold. rewrite Hlabel, Hget; simpl.
    rewrite removeLegacyFinalizers_spec, (bool_decide_eq_true_2 _ Hlegacy).
    by destruct (updateAnswer w). }
  assert (Hnone' : ∀ f, f ∈ legacyFinalizers → f ∉ OvercommitFinalizers overcommit).
  { intros f Hf Hin. apply Hnone, Exists_exists. eauto. }
  pose proof (Reconcile_no_legacy w label overcommit Hlabel Hget Hnone') as Hrun.
  destruct (issuerIsNil w) eqn:Hissuer.
  - right; right; right; left. exists label, overcommit.
    repeat (split; [done|]). rewrite Hrun.
    unfold reconcileManaged. by rewrite Hissuer.
  - right; right; right; right. split; [|done].
    by exists label, overcommit.
Qed.

Ltac in_log H :=
  repeat (apply elem_of_cons in H as [->|H]); [..|by apply elem_of_nil in H].

(** Every call a tick makes has its reasons: the object is read only after
    the label; it is updated only to drop a legacy finalizer it carries,
    and then with exactly the other finalizers; a managed object is created
    or updated only after both reads succeeded on an object without legacy
    finalizer, the issuer was generated and every earlier managed object
    passed; the status writer runs only after all ten passed. *)
Theorem Reconcile_calls_need (w : World) (c : Call) :
  c ∈ (run (Reconcile w)).1 → callNeeds w c.
Proof.
  intros Hin.
  destruct (Reconcile_cases w)
    as [(err & Hlabel & Hrun)
       |[(label & err & Hlabel & Hget & Hrun)
        |[(label & overcommit & Hlabel & Hget & Hlegacy & Hrun)
         |[(label & overcommit & Hlabel & Hget & Hnone & Hissuer & Hrun)
          |[Hreach Hrun]]]]];
    rewrite Hrun in Hin; simpl in Hin.
  - in_log Hin. done.
  - in_log Hin; simpl; eauto.
  - in_log Hin; simpl; eauto.
    exists label, overcommit. done.
  - in_log Hin; simpl; eauto.
  - assert (Hissuer : issuerIsNil w = false)
      by (by destruct Hreach as (? & ? & _ & _ & _ & ?)).
    assert (Hlabel : ∃ label, labelAnswer w = inr label)
      by (destruct Hreach as (label & ? & ? & _); eauto).
    pose proof (reconcileManaged_first_failing w [GetOvercommitLabel; Get] Hissuer)
      as Hmanaged.
    destruct (firstFailing w) as [m|] eqn:Hfirst.
    + rewrite Hmanaged in Hin; simpl in Hin.
      apply firstFailing_Some in Hfirst as [_ Hbefore].
      apply elem_of_cons in Hin as [->|Hin]; [done|].
      apply elem_of_cons in Hin as [->|Hin]; [done|].
      apply list_elem_of_fmap in Hin as (m' & -> & Hm'). simpl.
      split; [done|]. by apply (passes_before w m m').
    + destruct Hmanaged as (log' & Hmanaged & Hstatus).
      rewrite Hmanaged in Hin; simpl in Hin.
      pose proof (proj1 (firstFailing_None w) Hfirst) as Hpass.
      apply elem_of_cons in Hin as [->|Hin]; [done|].
      apply elem_of_cons in Hin as [->|Hin]; [done|].
      change (c ∈ (CreateOrUpdate <$> upsertOrder) ++ log') in Hin.
      apply elem_of_app in Hin as [Hin|Hin].
      * apply list_elem_of_fmap in Hin as (m' & -> & _). simpl.
        split; [done|]. apply Forall_forall. auto.
      * rewrite Forall_forall in Hstatus. specialize (Hstatus c Hin).
        destruct c; try done; by split.
Qed.

Lemma Reconcile_calls_need_witness :
  callNeeds worldQuiet UpdateOvercommitStatus
  ∧ callNeeds (worldConflictOn validatingPodWebhook) (CreateOrUpdate occontroller).
Proof.
  split.
  - apply (Reconcile_calls_need worldQuiet UpdateOvercommitStatus).
    apply (bool_decide_unpack _). vm_compute. exact I.
  - apply (Reconcile_calls_need (worldConflictOn validatingPodWebhook)
             (CreateOrUpdate occontroller)).
    apply (bool_decide_unpack _). vm_compute. exact I.
Defined.

(** A tick asks for the requeue after ten seconds exactly when both reads
    succeeded, the object carried no legacy finalizer, the issuer was
    generated and all ten managed objects passed; whether the status writer
    succeeds plays no part. *)
Theorem Reconcile_ten_second_requeue_iff (w : World) :
  (run (Reconcile w)).2 = ({| Requeue := false; RequeueAfter := 10 * Second |}, None)
  ↔ reachesManaged w ∧ ∀ m, passes w m = true.
Proof.
  split.
  - intros Hout.
    destruct (Reconcile_cases w)
      as [(err & Hlabel & Hrun)
         |[(label & err & Hlabel & Hget & Hrun)
          |[(label & overcommit & Hlabel & Hget & Hlegacy & Hrun)
           |[(label & overcommit & Hlabel & Hget & Hnone & Hissuer & Hrun)
            |[Hreach Hrun]]]]];
      rewrite Hrun in Hout; simpl in Hout; try discriminate Hout.
    + by destruct (updateAnswer w).
    + split; [done|].
      assert (Hissuer : issuerIsNil w = false)
        by (by destruct Hreach as (? & ? & _ & _ & _ & ?)).
      pose proof (reconcileManaged_first_failing w [GetOvercommitLabel; Get] Hissuer)
        as Hmanaged.
      destruct (firstFailing w) as [m|] eqn:Hfirst.
      * rewrite Hmanaged in Hout. discriminate Hout.
      * by apply firstFailing_None.
  - intros [Hreach Hpass]. rewrite (Reconcile_reachesManaged w Hreach).
    destruct Hreach as (_ & _ & _ & _ & _ & Hissuer).
    by apply reconcileManaged_all_pass.
Qed.

(** Whatever the cluster answers, a tick ends in one of three ways: with an
    empty result (and an error or none), with a requeue after one second and
    no error, or with a requeue after ten seconds and no error.  So an error
    never comes with a requeue delay, and [Requeue] is never set. *)
Theorem Reconcile_outcome_shapes (w : World) :
  (∃ err, (run (Reconcile w)).2 = (emptyResult, err))
  ∨ (run (Reconcile w)).2 = ({| Requeue := false; RequeueAfter := Second |}, None)
  ∨ (run (Reconcile w)).2 = ({| Requeue := false; RequeueAfter := 10 * Second |}, None).
Proof.
  destruct (Reconcile_cases w)
    as [(err & Hlabel & Hrun)
       |[(label & err & Hlabel & Hget & Hrun)
        |[(label & overcommit & Hlabel & Hget & Hlegacy & Hrun)
         |[(label & overcommit & Hlabel & Hget & Hnone & Hissuer & Hrun)
          |[Hreach Hrun]]]]];
    rewrite Hrun; simpl; eauto.
  - destruct (updateAnswer w); eauto.
  - assert (Hissuer : issuerIsNil w = false)
      by (by destruct Hreach as (? & ? & _ & _ & _ & ?)).
    pose proof (reconcileManaged_first_failing w [GetOvercommitLabel; Get] Hissuer)
      as Hmanaged.
    destruct (firstFailing w) as [m|].
    + rewrite Hmanaged. eauto.
    + destruct Hmanaged as (log' & -> & _). eauto.
Qed.

(** * More on the class reconciler *)

Section class_reconciler.
Import OvercommitClassReconciler.

(** ** [cleanupResources] *)

Lemma deleteOrReturn_spec (w : World) (m : Managed) (rest : Exec Call (option error))
    (log : list Call) :
  deleteOrReturn w m rest log
  = match IgnoreNotFound (deleteAnswer w m) with
    | Some e => (log ++ [Delete m], Some e)
    | None => rest (log ++ [Delete m])
    end.
Proof.
  unfold deleteOrReturn. exec_unfold.
  destruct (deleteAnswer w m) as [e|]; simpl; [|done].
  by destruct (IsNotFound e).
Qed.

Lemma cleanupResources_run (w : World) (log : list Call) :
  cleanupResources w log
  = match IgnoreNotFound (deleteAnswer w deployment) with
    | Some e => (log ++ [Delete deployment], Some e)
    | None =>
    match IgnoreNotFound (deleteAnswer w service) with
    | Some e => (log ++ [Delete deployment; Delete service], Some e)
    | None =>
    match IgnoreNotFound (deleteAnswer w certificate) with
    | Some e => (log ++ [Delete deployment; Delete service; Delete certificate], Some e)
    | None =>
    match cleanupLabelAnswer w with
    | inl err =>
        (log ++ [Delete deployment; Delete service; Delete certificate;
                 GetOvercommitLabel], Some err)
    | inr _ => (log ++ cleanupLog, IgnoreNotFound (deleteAnswer w webhookConfig))
    end end end end.
Proof.
  unfold cleanupResources. rewrite !deleteOrReturn_spec.
  destruct (IgnoreNotFound (deleteAnswer w deployment)); [done|].
  rewrite ?deleteOrReturn_spec.
  destruct (IgnoreNotFound (deleteAnswer w service)); [by rewrite <- app_assoc|].
  rewrite ?deleteOrReturn_spec.
  destruct (IgnoreNotFound (deleteAnswer w certificate)); [by rewrite <- !app_assoc|].
  exec_unfold.
  destruct (cleanupLabelAnswer w) as [err|label]; [by rewrite <- !app_assoc|].
  rewrite ?deleteOrReturn_spec. unfold cleanupLog.
  destruct (IgnoreNotFound (deleteAnswer w webhookConfig)); by rewrite <- !app_assoc.
Qed.


(** ** The owner check *)

(** The owner of a class needs no update exactly when one of its owner
    references has the UID of the Overcommit object and the kind
    "Overcommit"; the separate test for an empty list changes nothing. *)
Theorem needsOwnerUpdate_false_iff (ownerReferences : list OwnerReference)
    (overcommitResource : Overcommit) :
  needsOwnerUpdate ownerReferences overcommitResource = false
  ↔ ∃ ownerRef,
      ownerRef ∈ ownerReferences
      ∧ RefUID ownerRef = OvercommitUID overcommitResource
      ∧ RefKind ownerRef = "Overcommit".
Proof.
  unfold needsOwnerUpdate.
  destruct ownerReferences as [|r refs]; simpl length; simpl Nat.eqb; cbv iota.
  { split; [done|]. by intros (ownerRef & ?%elem_of_nil & _). }
  rewrite negb_false_iff, existsb_exists. split.
  - intros (ownerRef & Hin & Hok). exists ownerRef.
    apply andb_prop in Hok as [Huid Hkind].
    apply bool_decide_eq_true in Huid, Hkind.
    split; [by apply list_elem_of_In|done].
  - intros (ownerRef & Hin & Huid & Hkind). exists ownerRef.
    split; [by apply list_elem_of_In|].
    by rewrite !bool_decide_eq_true_2.
Qed.

(** ** The ways a tick of the class reconciler goes *)

Lemma classReconcile_cases (w : World) :
  (∃ err, labelAnswer w = inl err
          ∧ run (Reconcile w) = ([GetOvercommitLabel], (emptyResult, Some err)))
  ∨ (∃ label err,
       labelAnswer w = inr label ∧ getAnswer w = inl err
       ∧ run (Reconcile w)
         = ([GetOvercommitLabel; Get], (emptyResult, IgnoreNotFound (Some err))))
  ∨ (∃ label class,
       labelAnswer w = inr label ∧ getAnswer w = inr class
       ∧ DeletionTimestampIsZero class = false
       ∧ run (Reconcile w)
         = match cleanupResources w [GetOvercommitLabel; Get] with
           | (log, Some e) => (log, (emptyResult, Some e))
           | (log, None) =>
               (log ++ [Update (withFinalizers class
                                  (filter (λ f, f ≠ "overcommitclass.finalizer")
                                          (ClassFinalizers class)))],
                (emptyResult, updateAnswer w))
           end)
  ∨ (∃ label class,
       labelAnswer w = inr label ∧ getAnswer w = inr class
       ∧ DeletionTimestampIsZero class = true
       ∧ ("overcommitclass.finalizer" ∉ ClassFinalizers class)
       ∧ run (Reconcile w)
         = ([GetOvercommitLabel; Get;
             Update (withFinalizers class
                       (ClassFinalizers class ++ ["overcommitclass.finalizer"]))],
            (emptyResult, updateAnswer w)))
  ∨ (∃ label class err,
       labelAnswer w = inr label ∧ getAnswer w = inr class
       ∧ DeletionTimestampIsZero class = true
       ∧ "overcommitclass.finalizer" ∈ ClassFinalizers class
       ∧ overcommitAnswer w = inl err
       ∧ run (Reconcile w)
         = ([GetOvercommitLabel; Get; GetOvercommit], (emptyResult, Some err)))
  ∨ (∃ label class overcommitResource,
       labelAnswer w = inr label ∧ getAnswer w = inr class
       ∧ DeletionTimestampIsZero class = true
       ∧ "overcommitclass.finalizer" ∈ ClassFinalizers class
       ∧ overcommitAnswer w = inr overcommitResource
       ∧ needsOwnerUpdate (ClassOwnerReferences class) overcommitResource = true
       ∧ run (Reconcile w)
         = match setControllerReferenceAnswer w with
           | inl err =>
               ([GetOvercommitLabel; Get; GetOvercommit; SetControllerReference],
                (emptyResult, Some err))
           | inr ownerReferences =>
               ([GetOvercommitLabel; Get; GetOvercommit; SetControllerReference;
                 Update (withOwnerReferences class ownerReferences)],
                (emptyResult, updateAnswer w))
           end)
  ∨ (classReachesManaged w
     ∧ run (Reconcile w)
       = match createOrUpdateAnswer w deployment with
         | Some e =>
             ([GetOvercommitLabel; Get; GetOvercommit; CreateOrUpdate deployment],
              (emptyResult, Some e))
         | None =>
         match createOrUpdateAnswer w service with
         | Some e =>
             ([GetOvercommitLabel; Get; GetOvercommit; CreateOrUpdate deployment;
               CreateOrUpdate service], (emptyResult, Some e))
         | None =>
         match createOrUpdateAnswer w certificate with
         | Some e =>
             ([GetOvercommitLabel; Get; GetOvercommit; CreateOrUpdate deployment;
               CreateOrUpdate service; CreateOrUpdate certificate],
              (emptyResult, Some e))
         | None =>
         match createOrUpdateAnswer w webhookConfig with
         | Some e => (managedLog, (emptyResult, Some e))
         | None =>
         match totalClassesAnswer w with
         | Some _ => (managedLog ++ [GetTotalClasses], (emptyResult, None))
         | None =>
         match resourcesStatusAnswer w with
         | Some e =>
             (managedLog ++ [GetTotalClasses; UpdateResourcesStatus],
              (emptyResult, Some e))
         | None =>
             (managedLog ++ [GetTotalClasses; UpdateResourcesStatus],
              ({| Requeue := false; RequeueAfter := 10 * Second |}, None))
         end end end end end end).
Proof.
  destruct (labelAnswer w) as [err|label] eqn:Hlabel.
  { left. exists err. split; [done|].
    unfold Reconcile. exec_unfold. by rewrite Hlabel. }
  destruct (getAnswer w) as [err|class] eqn:Hget.
  { right; left. exists label, err. split; [done|]. split; [done|].
    unfold Reconcile. exec_unfold. rewrite Hlabel, Hget; simpl.
    by destruct (IsNotFound err). }
  destruct (DeletionTimestampIsZero class) eqn:Hzero.
  2:{ do 2 right; left. exists label, class. repeat (split; [done|]).
      unfold Reconcile. exec_unfold. rewrite Hlabel, Hget; simpl. rewrite Hzero; simpl.
      destruct (cleanupResources w _) as [log [e|]]; simpl; [done|].
      by destruct (updateAnswer w). }
  destruct (decide ("overcommitclass.finalizer" ∈ ClassFinalizers class)) as [Hfin|Hfin].
  2:{ do 3 right; left. exists label, class. repeat (split; [done|]).
      unfold Reconcile. exec_unfold. rewrite Hlabel, Hget; simpl. rewrite Hzero; simpl.
      unfold AddFinalizer, ContainsFinalizer.
      rewrite (bool_decide_eq_false_2 _ Hfin); simpl.
      by destruct (updateAnswer w). }
  destruct (overcommitAnswer w) as [err|overcommitResource] eqn:Hoc.
  { do 4 right; left. exists label, class, err. repeat (split; [done|]).
    unfold Reconcile. exec_unfold. rewrite Hlabel, Hget; simpl. rewrite Hzero; simpl.
    unfold ContainsFinalizer. rewrite (bool_decide_eq_true_2 _ Hfin); simpl.
    by rewrite Hoc. }
  destruct (needsOwnerUpdate (ClassOwnerReferences class) overcommitResource) eqn:Howner.
  { do 5 right; left. exists label, class, overcommitResource. repeat (split; [done|]).
    unfold Reconcile. exec_unfold. rewrite Hlabel, Hget; simpl. rewrite Hzero; simpl.
    unfold ContainsFinalizer. rewrite (bool_decide_eq_true_2 _ Hfin); simpl.
    rewrite Hoc, Howner.
    destruct (setControllerReferenceAnswer w) as [err|refs]; [done|].
    by destruct (updateAnswer w). }
  do 6 right. split.
  { exists label, class, overcommitResource. repeat (split; [done|]).
    split; [by apply bool_decide_eq_true|done]. }
  unfold Reconcile, createOrUpdate. exec_unfold.
  rewrite Hlabel, Hget; simpl. rewrite Hzero; simpl.
  unfold ContainsFinalizer. rewrite (bool_decide_eq_true_2 _ Hfin); simpl.
  rewrite Hoc, Howner.
  destruct (createOrUpdateAnswer w deployment); [done|]; simpl.
  destruct (createOrUpdateAnswer w service); [done|]; simpl.
  destruct (createOrUpdateAnswer w certificate); [done|]; simpl.
  destruct (createOrUpdateAnswer w webhookConfig); [done|]; simpl.
  destruct (totalClassesAnswer w); [done|]; simpl.
  by destruct (resourcesStatusAnswer w).
Qed.


Lemma classConverges (w : World) :
  classReachesManaged w → (∀ m, createOrUpdateAnswer w m = None) →
  convergesManaged w.
Proof.
  intros (label & class & oc & ?) Hall. exists label, class, oc.
  repeat split; tauto.
Qed.






(** A tick of the class reconciler returns the 10-second requeue exactly
    when the class is read, is not being deleted, carries the finalizer and
    the right owner, every create-or-update returned nil (a conflict is not
    tolerated here), and both [getTotalClasses] and [updateResourcesStatus]
    returned nil.  Every other tick returns the empty result. *)
Theorem classReconcile_ten_second_requeue_iff (w : World) :
  ((run (Reconcile w)).2 = ({| Requeue := false; RequeueAfter := 10 * Second |}, None)
   ↔ convergesManaged w
     ∧ totalClassesAnswer w = None ∧ resourcesStatusAnswer w = None)
  ∧ ((∃ err, (run (Reconcile w)).2 = (emptyResult, err))
     ∨ (run (Reconcile w)).2
       = ({| Requeue := false; RequeueAfter := 10 * Second |}, None)).
Proof.
  split; [split|].
  - intros Hout.
    destruct (classReconcile_cases w)
      as [(err & Hlabel & Hrun)
         |[(label & err & Hlabel & Hget & Hrun)
          |[(label & class & Hlabel & Hget & Hzero & Hrun)
           |[(label & class & Hlabel & Hget & Hzero & Hfin & Hrun)
            |[(label & class & err & Hlabel & Hget & Hzero & Hfin & Hoc & Hrun)
             |[(label & class & oc & Hlabel & Hget & Hzero & Hfin & Hoc & Howner & Hrun)
              |[Hreach Hrun]]]]]]];
      rewrite Hrun in Hout; clear Hrun; simpl in Hout; try discriminate Hout.
    + by destruct (cleanupResources w _) as [log [e|]].
    + by destruct (setControllerReferenceAnswer w).
    + destruct (createOrUpdateAnswer w deployment) eqn:H1; [done|].
      destruct (createOrUpdateAnswer w service) eqn:H2; [done|].
      destruct (createOrUpdateAnswer w certificate) eqn:H3; [done|].
      destruct (createOrUpdateAnswer w webhookConfig) eqn:H4; [done|].
      destruct (totalClassesAnswer w) eqn:H5; [done|].
      destruct (resourcesStatusAnswer w) eqn:H6; [done|].
      split; [|done]. apply classConverges; [done | by intros []].
  - intros (Hconv & Hmetrics & Hstatus).
    by rewrite (classReconcile_converged w Hconv), Hmetrics, Hstatus.
  - destruct (classReconcile_cases w)
      as [(err & Hlabel & Hrun)
         |[(label & err & Hlabel & Hget & Hrun)
          |[(label & class & Hlabel & Hget & Hzero & Hrun)
           |[(label & class & Hlabel & Hget & Hzero & Hfin & Hrun)
            |[(label & class & err & Hlabel & Hget & Hzero & Hfin & Hoc & Hrun)
             |[(label & class & oc & Hlabel & Hget & Hzero & Hfin & Hoc & Howner & Hrun)
              |[Hreach Hrun]]]]]]];
      rewrite Hrun; clear Hrun; simpl; eauto.
    + destruct (cleanupResources w _) as [log [e|]]; simpl; eauto.
    + destruct (setControllerReferenceAnswer w); simpl; eauto.
    + destruct (createOrUpdateAnswer w deployment); [simpl; eauto|].
      destruct (createOrUpdateAnswer w service); [simpl; eauto|].
      destruct (createOrUpdateAnswer w certificate); [simpl; eauto|].
      destruct (createOrUpdateAnswer w webhookConfig); [simpl; eauto|].
      destruct (totalClassesAnswer w); [simpl; eauto|].
      destruct (resourcesStatusAnswer w); simpl; eauto.
Qed.

(** Closes a goal with [H : c ∈ l] for a written-out [l] without [c]. *)
Ltac absent_call H :=
  exfalso; apply list_elem_of_In in H; simpl in H; intuition discriminate.

(** A tick that writes the class object ends with that write: the write is
    its last call, it creates or updates no managed object, and it returns
    the empty result with the error of the write, nil included. *)
Theorem classReconcile_update_ends_tick (w : World) (updated : OvercommitClass) :
  Update updated ∈ (run (Reconcile w)).1 →
  last (run (Reconcile w)).1 = Some (Update updated)
  ∧ (∀ m, CreateOrUpdate m ∉ (run (Reconcile w)).1)
  ∧ (run (Reconcile w)).2 = (emptyResult, updateAnswer w).
Proof.
  intros Hin.
  assert (Hclosed : ∀ (c : Call) (log : list Call),
            c ∈ log → bool_decide (c ∈ log) = false → False).
  { intros c log Hc Hno. by apply bool_decide_eq_false in Hno. }
  assert (Hnone : ∀ (log : list Call),
            forallb (λ c, match c with CreateOrUpdate _ => false | _ => true end) log = true →
            ∀ m, CreateOrUpdate m ∉ log).
  { intros log Hall m Hm. rewrite forallb_forall in Hall.
    by specialize (Hall _ (proj1 (list_elem_of_In _ _) Hm)). }
  destruct (classReconcile_cases w)
    as [(err & Hlabel & Hrun)
       |[(label & err & Hlabel & Hget & Hrun)
        |[(label & class & Hlabel & Hget & Hzero & Hrun)
         |[(label & class & Hlabel & Hget & Hzero & Hfin & Hrun)
          |[(label & class & err & Hlabel & Hget & Hzero & Hfin & Hoc & Hrun)
           |[(label & class & oc & Hlabel & Hget & Hzero & Hfin & Hoc & Howner & Hrun)
            |[Hreach Hrun]]]]]]];
    rewrite Hrun in *; clear Hrun.
  - absent_call Hin.
  - absent_call Hin.
  - rewrite cleanupResources_run in *.
    destruct (IgnoreNotFound (deleteAnswer w deployment));
      [simpl in Hin; absent_call Hin|].
    destruct (IgnoreNotFound (deleteAnswer w service));
      [simpl in Hin; absent_call Hin|].
    destruct (IgnoreNotFound (deleteAnswer w certificate));
      [simpl in Hin; absent_call Hin|].
    destruct (cleanupLabelAnswer w);
      [simpl in Hin; absent_call Hin|].
    destruct (IgnoreNotFound (deleteAnswer w webhookConfig));
      simpl in Hin; [absent_call Hin|].
    simpl. apply list_elem_of_In in Hin. simpl in Hin.
    destruct Hin as [?|[?|[?|[?|[?|[?|[?|[[= <-]|[]]]]]]]]]; try discriminate.
    split; [done|]. split; [by apply Hnone|done].
  - simpl. apply list_elem_of_In in Hin. simpl in Hin.
    destruct Hin as [?|[?|[[= <-]|[]]]]; try discriminate.
    split; [done|]. split; [by apply Hnone|done].
  - absent_call Hin.
  - destruct (setControllerReferenceAnswer w) as [err|refs];
      [absent_call Hin|].
    simpl. apply list_elem_of_In in Hin. simpl in Hin.
    destruct Hin as [?|[?|[?|[?|[[= <-]|[]]]]]]; try discriminate.
    split; [done|]. split; [by apply Hnone|done].
  - exfalso.
    destruct (createOrUpdateAnswer w deployment); [absent_call Hin|].
    destruct (createOrUpdateAnswer w service); [absent_call Hin|].
    destruct (createOrUpdateAnswer w certificate); [absent_call Hin|].
    destruct (createOrUpdateAnswer w webhookConfig);
      [unfold managedLog in Hin; absent_call Hin|].
    destruct (totalClassesAnswer w);
      [unfold managedLog in Hin; simpl in Hin; absent_call Hin|].
    destruct (resourcesStatusAnswer w);
      unfold managedLog in Hin; simpl in Hin; absent_call Hin.
Qed.

Lemma classReconcile_update_witness :
  last (run (Reconcile (classWorldDeleting (Some errNotFound)))).1
  = Some (Update (withFinalizers classDeleting ["kept.finalizer"]))
  ∧ (run (Reconcile (classWorldDeleting (Some errNotFound)))).2 = (emptyResult, None).
Proof.
  destruct (classReconcile_update_ends_tick (classWorldDeleting (Some errNotFound))
              (withFinalizers classDeleting ["kept.finalizer"]))
    as (Hlast & _ & Hout).
  - apply (bool_decide_unpack _). vm_compute. exact I.
  - split; [exact Hlast | exact Hout].
Defined.

End class_reconciler.

(** * Properties of the class reconciler's mutate functions *)

Section class_upsert_properties.
Context (SetControllerReference :
           OvercommitClass → list OwnerReference → error + list OwnerReference).

Ltac kernel_refl :=
  rewrite ?envVarsEqual_refl, ?mapsEqual_refl, ?portsEqual_refl, ?slicesEqual_refl,
    ?TolerationsEqual_refl.

(** Reads [negb (test a b) = false] and [bool_decide (a ≠ b) = false] among
    the hypotheses as [test a b = true] and [a = b]. *)
Ltac read_tests :=
  repeat match goal with
         | H : negb _ = false |- _ => apply negb_false_iff in H
         | H : negb _ = true |- _ => apply negb_true_iff in H
         | H : bool_decide (_ ≠ _) = false |- _ =>
             apply bool_decide_eq_false in H; apply dec_stable in H
         | H : bool_decide (_ ≠ _) = true |- _ => apply bool_decide_eq_true in H
         | H : _ || _ = false |- _ => apply orb_false_iff in H as [? ?]
         end.

(** Runs a mutate function on an object for which every test it makes,
    found among the hypotheses, says "equal". *)
Ltac in_sync :=
  repeat match goal with
         | H : bool_decide (_ = _) = true |- _ => apply bool_decide_eq_true in H
         end;
  repeat first
    [ progress simpl
    | match goal with
      | H : ?t = true |- context [?t] => rewrite H
      | H : ?t = false |- context [?t] => rewrite H
      | H : ?a = ?b |- context [bool_decide (?a ≠ ?b)] =>
          rewrite (bool_decide_eq_false_2 (a ≠ b)) by (by intros ?)
      end ];
  try done.

(** ** The service *)

Lemma mutateClassService_in_sync (overcommitClass : OvercommitClass)
    (updatedService service : Service) :
  CreationTimestampIsZero service = false →
  serviceInSync updatedService service = true →
  mutateClassService SetControllerReference overcommitClass updatedService service
  = Done service.
Proof.
  intros Hzero Hsync. unfold serviceInSync in Hsync.
  repeat (apply andb_prop in Hsync as [Hsync ?]).
  unfold mutateClassService. rewrite Hzero.
  destruct updatedService as [uz urefs ulabels uannotations [uselector uports utype]].
  destruct service as [z refs labels annotations [selector ports type]].
  simpl in *. in_sync.
Qed.

Lemma mutateClassService_done (overcommitClass : OvercommitClass)
    (updatedService service service' : Service) :
  CreationTimestampIsZero service = false →
  mutateClassService SetControllerReference overcommitClass updatedService service
  = Done service' →
  serviceInSync updatedService service' = true
  ∧ CreationTimestampIsZero service' = false.
Proof.
  intros Hzero. unfold mutateClassService, setClassControllerReference.
  rewrite Hzero.
  destruct updatedService as [uz urefs ulabels uannotations [uselector uports utype]].
  destruct service as [z refs labels annotations [selector ports type]].
  simpl in Hzero. subst z. simpl.
  destruct (negb (mapsEqual uselector selector)) eqn:H1; simpl;
    destruct (negb (portsEqual uports ports)) eqn:H2; simpl;
    destruct (bool_decide (utype ≠ type)) eqn:H3; simpl;
    destruct (negb (mapsEqual uannotations annotations)) eqn:H4; simpl;
    destruct (negb (mapsEqual ulabels labels)) eqn:H5; simpl;
    try destruct (SetControllerReference _ _) as [err|newRefs]; simpl;
    try discriminate;
    intros [= <-]; unfold serviceInSync; simpl; read_tests; subst; kernel_refl;
    repeat match goal with H : _ = true |- _ => rewrite H end;
    by rewrite ?bool_decide_eq_true_2.
Qed.

(** On an existing service the mutate function of the class reconciler
    leaves the service as it is, without asking for a controller reference,
    when selector, ports, type, annotations and labels compare as equal to
    the regenerated ones; and whatever it leaves, when it succeeds, compares
    as equal in all five, so that a second pass changes nothing. *)
Theorem mutateClassService_converges (overcommitClass : OvercommitClass)
    (updatedService service : Service) :
  CreationTimestampIsZero service = false →
  (serviceInSync updatedService service = true →
     mutateClassService SetControllerReference overcommitClass updatedService service
     = Done service)
  ∧ (∀ service',
       mutateClassService SetControllerReference overcommitClass updatedService service
       = Done service' →
       serviceInSync updatedService service' = true
       ∧ mutateClassService SetControllerReference overcommitClass updatedService service'
         = Done service').
Proof.
  intros Hzero. split; [by apply mutateClassService_in_sync|].
  intros service' Hdone.
  destruct (mutateClassService_done _ _ _ _ Hzero Hdone) as [Hsync Hzero'].
  split; [done|]. by apply mutateClassService_in_sync.
Qed.

(** ** The certificate *)

Lemma mutateClassCertificate_in_sync (overcommitClass : OvercommitClass)
    (updatedCertificate certificate : Certificate) :
  CreationTimestampIsZero certificate = false →
  certificateInSync updatedCertificate certificate = true →
  mutateClassCertificate SetControllerReference overcommitClass
    updatedCertificate certificate
  = Done certificate.
Proof.
  intros Hzero Hsync. unfold certificateInSync in Hsync.
  repeat (apply andb_prop in Hsync as [Hsync ?]).
  unfold mutateClassCertificate. rewrite Hzero.
  destruct updatedCertificate as [uz urefs ulabels uannotations [unames uname ukind usecret]].
  destruct certificate as [z refs labels annotations [names name kind secret]].
  simpl in *. in_sync.
Qed.

Lemma mutateClassCertificate_done (overcommitClass : OvercommitClass)
    (updatedCertificate certificate certificate' : Certificate) :
  CreationTimestampIsZero certificate = false →
  mutateClassCertificate SetControllerReference overcommitClass
    updatedCertificate certificate
  = Done certificate' →
  certificateInSync updatedCertificate certificate' = true
  ∧ CreationTimestampIsZero certificate' = false.
Proof.
  intros Hzero. unfold mutateClassCertificate, setClassControllerReference.
  rewrite Hzero.
  destruct updatedCertificate as [uz urefs ulabels uannotations [unames uname ukind usecret]].
  destruct certificate as [z refs labels annotations [names name kind secret]].
  simpl in Hzero. subst z. simpl.
  destruct (negb (slicesEqual unames names)) eqn:H1; simpl;
    destruct (bool_decide (uname ≠ name) || bool_decide (ukind ≠ kind)) eqn:H2; simpl;
    destruct (bool_decide (usecret ≠ secret)) eqn:H3; simpl;
    destruct (negb (mapsEqual uannotations annotations)) eqn:H4; simpl;
    destruct (negb (mapsEqual ulabels labels)) eqn:H5; simpl;
    try destruct (SetControllerReference _ _) as [err|newRefs]; simpl;
    try discriminate;
    intros [= <-]; unfold certificateInSync; simpl; read_tests; subst; kernel_refl;
    repeat match goal with H : _ = true |- _ => rewrite H end;
    by rewrite ?bool_decide_eq_true_2.
Qed.

(** On an existing certificate the mutate function of the class reconciler
    changes nothing when DNS names, issuer name and kind, secret name,
    annotations and labels compare as equal to the regenerated ones; and
    whatever it leaves, when it succeeds, compares as equal in all of them,
    so that a second pass changes nothing. *)
Theorem mutateClassCertificate_converges (overcommitClass : OvercommitClass)
    (updatedCertificate certificate : Certificate) :
  CreationTimestampIsZero certificate = false →
  (certificateInSync updatedCertificate certificate = true →
     mutateClassCertificate SetControllerReference overcommitClass
       updatedCertificate certificate
     = Done certificate)
  ∧ (∀ certificate',
       mutateClassCertificate SetControllerReference overcommitClass
         updatedCertificate certificate
       = Done certificate' →
       certificateInSync updatedCertificate certificate' = true
       ∧ mutateClassCertificate SetControllerReference overcommitClass
           updatedCertificate certificate'
         = Done certificate').
Proof.
  intros Hzero. split; [by apply mutateClassCertificate_in_sync|].
  intros certificate' Hdone.
  destruct (mutateClassCertificate_done _ _ _ _ Hzero Hdone) as [Hsync Hzero'].
  split; [done|]. by apply mutateClassCertificate_in_sync.
Qed.

(** ** The mutating webhook configuration *)

Lemma anyWebhookChanged_same (webhooks : list MutatingWebhook) :
  ∀ i rest, drop i webhooks = rest → anyWebhookChanged i rest webhooks = false.
Proof.
  intros i rest. revert i.
  induction rest as [|webhook rest IH]; intros i Hdrop; [done|].
  assert (Hi : webhooks !! i = Some webhook).
  { rewrite <- (Nat.add_0_r i), <- lookup_drop. by rewrite Hdrop. }
  change (match webhooks !! i with
          | Some currentWebhook =>
              if webhookChanged (AMutatingWebhook webhook)
                                (AMutatingWebhook currentWebhook)
              then true
              else anyWebhookChanged (S i) rest webhooks
          | None => anyWebhookChanged (S i) rest webhooks
          end = false).
  rewrite Hi.
  rewrite (proj2 (webhookChanged_compares_parts webhook webhook) eq_refl).
  apply IH. rewrite (drop_S _ _ _ Hi) in Hdrop. by injection Hdrop.
Qed.

Lemma mutateClassWebhookConfig_in_sync (overcommitClass : OvercommitClass)
    (updatedWebhookConfig webhookConfig : MutatingWebhookConfiguration) :
  CreationTimestampIsZero webhookConfig = false →
  webhookConfigInSync updatedWebhookConfig webhookConfig = true →
  mutateClassWebhookConfig SetControllerReference overcommitClass
    updatedWebhookConfig webhookConfig
  = Done webhookConfig.
Proof.
  intros Hzero Hsync. unfold webhookConfigInSync in Hsync.
  repeat (apply andb_prop in Hsync as [Hsync ?]).
  unfold mutateClassWebhookConfig. rewrite Hzero.
  destruct updatedWebhookConfig as [uz urefs ulabels uannotations uwebhooks].
  destruct webhookConfig as [z refs labels annotations webhooks].
  simpl in *. read_tests. in_sync.
Qed.

Lemma mutateClassWebhookConfig_done (overcommitClass : OvercommitClass)
    (updatedWebhookConfig webhookConfig webhookConfig' : MutatingWebhookConfiguration) :
  CreationTimestampIsZero webhookConfig = false →
  mutateClassWebhookConfig SetControllerReference overcommitClass
    updatedWebhookConfig webhookConfig
  = Done webhookConfig' →
  webhookConfigInSync updatedWebhookConfig webhookConfig' = true
  ∧ CreationTimestampIsZero webhookConfig' = false.
Proof.
  intros Hzero. unfold mutateClassWebhookConfig, setClassControllerReference.
  rewrite Hzero.
  destruct updatedWebhookConfig as [uz urefs ulabels uannotations uwebhooks].
  destruct webhookConfig as [z refs labels annotations webhooks].
  simpl in Hzero. subst z. simpl.
  pose proof (anyWebhookChanged_same (elems uwebhooks) 0 (elems uwebhooks) eq_refl)
    as Hsame.
  destruct (negb (mapsEqual uannotations annotations)) eqn:H1; simpl;
    destruct (negb (mapsEqual ulabels labels)) eqn:H2; simpl;
    destruct (negb (len uwebhooks =? len webhooks)%nat) eqn:H3; simpl;
    try destruct (anyWebhookChanged 0 (elems uwebhooks) (elems webhooks)) eqn:H4; simpl;
    try destruct (SetControllerReference _ _) as [err|newRefs]; simpl;
    try discriminate;
    intros [= <-]; unfold webhookConfigInSync; simpl; read_tests; kernel_refl;
    rewrite ?Nat.eqb_refl, ?Hsame;
    repeat match goal with H : _ = true |- _ => rewrite H end;
    repeat match goal with H : _ = false |- _ => rewrite H end;
    done.
Qed.

(** On an existing mutating webhook configuration the mutate function of
    the class reconciler changes nothing when annotations and labels compare
    as equal, the number of webhooks is the same and [webhookChanged] reports
    none of them; and whatever it leaves, when it succeeds, is in that
    state, so that a second pass changes nothing. *)
Theorem mutateClassWebhookConfig_converges (overcommitClass : OvercommitClass)
    (updatedWebhookConfig webhookConfig : MutatingWebhookConfiguration) :
  CreationTimestampIsZero webhookConfig = false →
  (webhookConfigInSync updatedWebhookConfig webhookConfig = true →
     mutateClassWebhookConfig SetControllerReference overcommitClass
       updatedWebhookConfig webhookConfig
     = Done webhookConfig)
  ∧ (∀ webhookConfig',
       mutateClassWebhookConfig SetControllerReference overcommitClass
         updatedWebhookConfig webhookConfig
       = Done webhookConfig' →
       webhookConfigInSync updatedWebhookConfig webhookConfig' = true
       ∧ mutateClassWebhookConfig SetControllerReference overcommitClass
           updatedWebhookConfig webhookConfig'
         = Done webhookConfig').
Proof.
  intros Hzero. split; [by apply mutateClassWebhookConfig_in_sync|].
  intros webhookConfig' Hdone.
  destruct (mutateClassWebhookConfig_done _ _ _ _ Hzero Hdone) as [Hsync Hzero'].
  split; [done|]. by apply mutateClassWebhookConfig_in_sync.
Qed.

(** ** The deployment *)

(** Splits on every test a mutate function makes. *)
Ltac split_tests :=
  repeat match goal with
         | |- context [if ?b then _ else _] => destruct b eqn:?; simpl
         end;
  try match goal with
      | |- context [SetControllerReference ?owner ?refs] =>
          destruct (SetControllerReference owner refs) as [?err|?newRefs]; simpl
      end.

Lemma mutateClassDeployment_in_sync (overcommitClass : OvercommitClass)
    (updatedDeployment deployment : Deployment) :
  CreationTimestampIsZero deployment = false →
  deploymentInSync updatedDeployment deployment = true →
  mutateClassDeployment SetControllerReference overcommitClass
    updatedDeployment deployment
  = Done deployment.
Proof.
  intros Hzero Hsync. unfold deploymentInSync in Hsync.
  repeat (apply andb_prop in Hsync as [Hsync ?]).
  unfold mutateClassDeployment. rewrite Hzero.
  destruct updatedDeployment
    as [uz urefs ulabels uannotations [ureplicas uta utl uns utol [|uc ucs]]];
    destruct deployment
      as [z refs labels annotations [replicas ta tl ns tol [|c cs]]];
    simpl in *; unfold mbind, mret, Mutated_bind, Mutated_ret; simpl;
    try (apply andb_prop in Hsync as [Hsync ?]); in_sync.
Qed.

Lemma mutateClassDeployment_done (overcommitClass : OvercommitClass)
    (updatedDeployment deployment deployment' : Deployment) :
  CreationTimestampIsZero deployment = false →
  mutateClassDeployment SetControllerReference overcommitClass
    updatedDeployment deployment
  = Done deployment' →
  deploymentInSync updatedDeployment deployment' = true
  ∧ CreationTimestampIsZero deployment' = false.
Proof.
  intros Hzero. unfold mutateClassDeployment, setClassControllerReference.
  rewrite Hzero.
  destruct updatedDeployment
    as [uz urefs ulabels uannotations [ureplicas uta utl uns utol [|uc ucs]]];
    destruct deployment
      as [z refs labels annotations [replicas ta tl ns tol [|c cs]]];
    simpl in Hzero; subst z;
    unfold mbind, mret, Mutated_bind, Mutated_ret; simpl;
    unfold container0; simpl;
    split_tests; try discriminate;
    intros [= <-]; unfold deploymentInSync; simpl; read_tests; kernel_refl;
    repeat match goal with H : _ = true |- _ => rewrite H end;
    by rewrite ?bool_decide_eq_true_2.
Qed.

(** On an existing deployment the mutate function of the class reconciler
    changes nothing when image and env of the first container (if both
    deployments have one), template annotations, template labels, node
    selector and tolerations compare as equal to the regenerated ones; and
    whatever it leaves, when it succeeds, compares as equal in all of them,
    so that a second pass changes nothing. *)
Theorem mutateClassDeployment_converges (overcommitClass : OvercommitClass)
    (updatedDeployment deployment : Deployment) :
  CreationTimestampIsZero deployment = false →
  (deploymentInSync updatedDeployment deployment = true →
     mutateClassDeployment SetControllerReference overcommitClass
       updatedDeployment deployment
     = Done deployment)
  ∧ (∀ deployment',
       mutateClassDeployment SetControllerReference overcommitClass
         updatedDeployment deployment
       = Done deployment' →
       deploymentInSync updatedDeployment deployment' = true
       ∧ mutateClassDeployment SetControllerReference overcommitClass
           updatedDeployment deployment'
         = Done deployment').
Proof.
  intros Hzero. split; [by apply mutateClassDeployment_in_sync|].
  intros deployment' Hdone.
  destruct (mutateClassDeployment_done _ _ _ _ Hzero Hdone) as [Hsync Hzero'].
  split; [done|]. by apply mutateClassDeployment_in_sync.
Qed.

(** The mutate function of the class reconciler for the deployment never
    panics: it reads [Containers[0]] only after it has found both container
    lists non-empty.  (The singleton reconciler reads it unguarded.) *)
Theorem mutateClassDeployment_never_panics (overcommitClass : OvercommitClass)
    (updatedDeployment deployment : Deployment) :
  mutateClassDeployment SetControllerReference overcommitClass
    updatedDeployment deployment ≠ Panicked
  ∧ mutateClassDeploymentEarlier SetControllerReference overcommitClass
      updatedDeployment deployment ≠ Panicked.
Proof.
  unfold mutateClassDeployment, mutateClassDeploymentEarlier,
    setClassControllerReference.
  destruct updatedDeployment
    as [uz urefs ulabels uannotations [ureplicas uta utl uns utol [|uc ucs]]];
    destruct deployment
      as [z refs labels annotations [replicas ta tl ns tol [|c cs]]];
    simpl; unfold mbind, mret, Mutated_bind, Mutated_ret; simpl;
    (split; split_tests; done).
Qed.

(** The earlier version of the class controller leaves node selector and
    tolerations of an existing deployment as they are; where those two
    compare as equal to the regenerated ones, and on a new deployment, the
    two versions do the same. *)
Theorem mutateClassDeployment_extends_earlier (overcommitClass : OvercommitClass)
    (updatedDeployment deployment : Deployment) :
  (∀ deployment',
     CreationTimestampIsZero deployment = false →
     mutateClassDeploymentEarlier SetControllerReference overcommitClass
       updatedDeployment deployment
     = Done deployment' →
     NodeSelector (Spec deployment') = NodeSelector (Spec deployment)
     ∧ Tolerations (Spec deployment') = Tolerations (Spec deployment))
  ∧ (CreationTimestampIsZero deployment = true
     ∨ (mapsEqual (NodeSelector (Spec updatedDeployment))
                  (NodeSelector (Spec deployment)) = true
        ∧ TolerationsEqual (Tolerations (Spec updatedDeployment))
                           (Tolerations (Spec deployment)) = true) →
     mutateClassDeployment SetControllerReference overcommitClass
       updatedDeployment deployment
     = mutateClassDeploymentEarlier SetControllerReference overcommitClass
         updatedDeployment deployment).
Proof.
  unfold mutateClassDeployment, mutateClassDeploymentEarlier,
    setClassControllerReference.
  split.
  - intros deployment' Hzero. rewrite Hzero.
    destruct updatedDeployment
      as [uz urefs ulabels uannotations [ureplicas uta utl uns utol [|uc ucs]]];
      destruct deployment
        as [z refs labels annotations [replicas ta tl ns tol [|c cs]]];
      simpl; unfold mbind, mret, Mutated_bind, Mutated_ret; simpl;
      split_tests; try discriminate; by intros [= <-].
  - intros [Hzero|[Hselector Htolerations]]; [by rewrite Hzero|].
    destruct (CreationTimestampIsZero deployment); [done|].
    destruct updatedDeployment
      as [uz urefs ulabels uannotations [ureplicas uta utl uns utol [|uc ucs]]];
      destruct deployment
        as [z refs labels annotations [replicas ta tl ns tol [|c cs]]];
      simpl in *; unfold mbind, mret, Mutated_bind, Mutated_ret; simpl;
      rewrite ?Hselector, ?Htolerations; simpl;
      repeat match goal with
             | |- context [if ?b then _ else _] =>
                 destruct b eqn:?; simpl; rewrite ?Hselector, ?Htolerations; simpl
             end; try done; read_tests; congruence.
Qed.

End class_upsert_properties.

Lemma mutateClassService_converges_witness :
  match mutateClassService sampleSetClassControllerReference classReady
          serviceDesired serviceObserved with
  | Done service' =>
      Selector (Spec service') = Selector (Spec serviceDesired)
      ∧ serviceInSync serviceDesired service' = true
      ∧ mutateClassService sampleSetClassControllerReference classReady
          serviceDesired service' = Done service'
  | _ => False
  end.
Proof.
  destruct (mutateClassService sampleSetClassControllerReference classReady
              serviceDesired serviceObserved) as [service'| |] eqn:Hdone;
    [|by vm_compute in Hdone..].
  split; [by vm_compute in Hdone; injection Hdone as <-|].
  exact (proj2 (mutateClassService_converges sampleSetClassControllerReference
                  classReady serviceDesired serviceObserved eq_refl) service' Hdone).
Defined.

Lemma mutateClassCertificate_converges_witness :
  match mutateClassCertificate sampleSetClassControllerReference classReady
          certificateDesired certificateObserved with
  | Done certificate' =>
      Spec certificate' = Spec certificateDesired
      ∧ certificateInSync certificateDesired certificate' = true
      ∧ mutateClassCertificate sampleSetClassControllerReference classReady
          certificateDesired certificate' = Done certificate'
  | _ => False
  end.
Proof.
  destruct (mutateClassCertificate sampleSetClassControllerReference classReady
              certificateDesired certificateObserved) as [certificate'| |] eqn:Hdone;
    [|by vm_compute in Hdone..].
  split; [by vm_compute in Hdone; injection Hdone as <-|].
  exact (proj2 (mutateClassCertificate_converges sampleSetClassControllerReference
                  classReady certificateDesired certificateObserved eq_refl)
           certificate' Hdone).
Defined.

Lemma mutateClassWebhookConfig_converges_witness :
  match mutateClassWebhookConfig sampleSetClassControllerReference classReady
          webhookConfigDesired webhookConfigObserved with
  | Done webhookConfig' =>
      Spec webhookConfig' = Some [webhookSample]
      ∧ webhookConfigInSync webhookConfigDesired webhookConfig' = true
      ∧ mutateClassWebhookConfig sampleSetClassControllerReference classReady
          webhookConfigDesired webhookConfig' = Done webhookConfig'
  | _ => False
  end.
Proof.
  destruct (mutateClassWebhookConfig sampleSetClassControllerReference classReady
              webhookConfigDesired webhookConfigObserved) as [webhookConfig'| |] eqn:Hdone;
    [|by vm_compute in Hdone..].
  split; [by vm_compute in Hdone; injection Hdone as <-|].
  exact (proj2 (mutateClassWebhookConfig_converges sampleSetClassControllerReference
                  classReady webhookConfigDesired webhookConfigObserved eq_refl)
           webhookConfig' Hdone).
Defined.

Lemma mutateClassDeployment_converges_witness :
  match mutateClassDeployment sampleSetClassControllerReference classReady
          deploymentGenerated deploymentObserved with
  | Done deployment' =>
      NodeSelector (Spec deployment') = None
      ∧ Tolerations (Spec deployment') = Some [tolNotReady60]
      ∧ deploymentInSync deploymentGenerated deployment' = true
      ∧ mutateClassDeployment sampleSetClassControllerReference classReady
          deploymentGenerated deployment' = Done deployment'
  | _ => False
  end.
Proof.
  destruct (mutateClassDeployment sampleSetClassControllerReference classReady
              deploymentGenerated deploymentObserved) as [deployment'| |] eqn:Hdone;
    [|by vm_compute in Hdone..].
  split; [by vm_compute in Hdone; injection Hdone as <-|].
  split; [by vm_compute in Hdone; injection Hdone as <-|].
  exact (proj2 (mutateClassDeployment_converges sampleSetClassControllerReference
                  classReady deploymentGenerated deploymentObserved eq_refl)
           deployment' Hdone).
Defined.

(** * The status of the Overcommit object *)

(** ** [setCondition] *)

Lemma mergedCondition_time (now now' : Time) (existing c : Condition) (t : Time) :
  ConditionStatus existing = ConditionStatus c →
  mergedCondition now existing (withLastTransitionTime c t)
  = mergedCondition now' existing c.
Proof.
  intros Hstatus. unfold mergedCondition; simpl.
  rewrite (bool_decide_eq_true_2 _ Hstatus).
  by destruct (_ && _).
Qed.

(** The loop of [setCondition] against the first condition of the type. *)
Lemma setConditionRange_spec (clock : nat → Z) (tick : nat) (c : Condition)
    (conditions : list Condition) :
  setConditionRange clock tick c conditions
  = match list_find (λ e, ConditionType e = ConditionType c) conditions with
    | Some (i, existing) =>
        Some (if bool_decide (ConditionStatus existing ≠ ConditionStatus c)
              then S tick else tick,
              <[i := mergedCondition (Some (clock tick)) existing c]> conditions)
    | None => None
    end.
Proof.
  induction conditions as [|e conditions IH]; [done|].
  cbn [setConditionRange list_find]. rewrite IH. clear IH.
  destruct (decide (ConditionType e = ConditionType c)) as [Htype|Htype].
  - rewrite (bool_decide_eq_true_2 _ Htype). simpl. unfold mergedCondition.
    destruct (decide (ConditionStatus e = ConditionStatus c)) as [Hs|Hs].
    + rewrite (bool_decide_eq_false_2 (ConditionStatus e ≠ ConditionStatus c))
        by (by intros ?).
      rewrite (bool_decide_eq_true_2 _ Hs). simpl.
      destruct (decide (ConditionReason e = ConditionReason c)) as [Hr|Hr].
      * rewrite (bool_decide_eq_false_2 (ConditionReason e ≠ ConditionReason c))
          by (by intros ?).
        rewrite (bool_decide_eq_true_2 _ Hr). simpl.
        destruct (decide (ConditionMessage e = ConditionMessage c)) as [Hm|Hm].
        -- rewrite (bool_decide_eq_false_2 (ConditionMessage e ≠ ConditionMessage c))
             by (by intros ?).
           by rewrite (bool_decide_eq_true_2 _ Hm).
        -- rewrite (bool_decide_eq_true_2 (ConditionMessage e ≠ ConditionMessage c))
             by done.
           by rewrite (bool_decide_eq_false_2 _ Hm).
      * rewrite (bool_decide_eq_true_2 (ConditionReason e ≠ ConditionReason c))
          by done.
        by rewrite (bool_decide_eq_false_2 _ Hr).
    + rewrite (bool_decide_eq_true_2 (ConditionStatus e ≠ ConditionStatus c))
        by done.
      by rewrite (bool_decide_eq_false_2 _ Hs).
  - rewrite (bool_decide_eq_false_2 _ Htype).
    by destruct (list_find _ conditions) as [[i existing]|].
Qed.

Lemma setCondition_conditions (clock : nat → Z) (tick : nat)
    (status : OvercommitStatus) (c : Condition) :
  (setCondition clock tick status c).2
  = withConditions status
      (Some match list_find (λ e, ConditionType e = ConditionType c)
                    (elems (StatusConditions status)) with
            | Some (i, existing) =>
                <[i := mergedCondition
                         (Some (clock (if IsZero (LastTransitionTime c)
                                       then S tick else tick)))
                         existing c]> (elems (StatusConditions status))
            | None =>
                elems (StatusConditions status)
                ++ [if IsZero (LastTransitionTime c)
                    then withLastTransitionTime c (Some (clock tick)) else c]
            end).
Proof.
  unfold setCondition.
  destruct (IsZero (LastTransitionTime c)); simpl;
    rewrite setConditionRange_spec; simpl;
    destruct (list_find _ _) as [[i existing]|]; try done; simpl.
Qed.

(** [setCondition] against the first condition of the type of the new one:
    without one, the new condition is appended (with a reading of the clock
    if it carries no time); with one, that condition alone is replaced, and
    only if status, reason or message differ; the replacement carries the
    old transition time unless the status differs, whatever time the new
    condition came with.  The resources of the status are not touched. *)
Theorem setCondition_first_of_type (clock : nat → Z) (tick : nat)
    (status : OvercommitStatus) (c : Condition) :
  let conditions := elems (StatusConditions status) in
  let status' := (setCondition clock tick status c).2 in
  StatusResources status' = StatusResources status
  ∧ match list_find (λ e, ConditionType e = ConditionType c) conditions with
    | None =>
        StatusConditions status'
        = Some (conditions
                ++ [if IsZero (LastTransitionTime c)
                    then withLastTransitionTime c (Some (clock tick)) else c])
    | Some (i, existing) =>
        ∃ now,
          StatusConditions status'
          = Some (<[i := if bool_decide (ConditionStatus existing = ConditionStatus c)
                         then if bool_decide (ConditionReason existing = ConditionReason c)
                                 && bool_decide (ConditionMessage existing
                                                 = ConditionMessage c)
                              then existing
                              else withLastTransitionTime c
                                     (LastTransitionTime existing)
                         else withLastTransitionTime c (Some (clock now))]> conditions)
    end.
Proof.
  simpl. rewrite setCondition_conditions. split; [done|].
  destruct (list_find _ _) as [[i existing]|]; [|done].
  by eexists.
Qed.

Lemma mergedCondition_content (now : Time) (existing c : Condition) :
  ConditionType existing = ConditionType c →
  sameContent (mergedCondition now existing c) c.
Proof.
  intros Htype. unfold mergedCondition, sameContent.
  destruct (bool_decide (ConditionStatus existing = ConditionStatus c)) eqn:Hs;
    [|done].
  destruct (bool_decide (ConditionReason existing = ConditionReason c)) eqn:Hr;
    destruct (bool_decide (ConditionMessage existing = ConditionMessage c)) eqn:Hm;
    simpl; try done.
  by apply bool_decide_eq_true in Hs, Hr, Hm.
Qed.

Lemma mergedCondition_same (now : Time) (existing c : Condition) :
  sameContent existing c → mergedCondition now existing c = existing.
Proof.
  intros (_ & Hs & Hr & Hm). unfold mergedCondition.
  by rewrite !bool_decide_eq_true_2.
Qed.

Lemma list_find_insert_first {A} (P : A → Prop) `{∀ x, Decision (P x)}
    (l : list A) (i : nat) (x y : A) :
  list_find P l = Some (i, x) → P y → list_find P (<[i := y]> l) = Some (i, y).
Proof.
  intros (Hi & Hx & Hbefore)%list_find_Some Hy. apply list_find_Some.
  split; [apply list_lookup_insert_eq; by eapply lookup_lt_Some|].
  split; [done|]. intros j z Hj Hlt.
  rewrite list_lookup_insert_ne in Hj by lia. by eapply Hbefore.
Qed.

(** After [setCondition] the first condition of the type of the new one says
    what the new one says. *)
Lemma setCondition_find (clock : nat → Z) (tick : nat) (status : OvercommitStatus)
    (c : Condition) :
  ∃ conditions i merged,
    (setCondition clock tick status c).2 = withConditions status (Some conditions)
    ∧ list_find (λ e, ConditionType e = ConditionType c) conditions = Some (i, merged)
    ∧ sameContent merged c.
Proof.
  rewrite setCondition_conditions.
  destruct (list_find (λ e, ConditionType e = ConditionType c)
              (elems (StatusConditions status))) as [[i existing]|] eqn:Hfirst.
  - pose proof Hfirst as (_ & Hexisting & _)%list_find_Some.
    eexists _, i, _. split; [done|].
    pose proof (mergedCondition_content
                  (Some (clock (if IsZero (LastTransitionTime c) then S tick else tick)))
                  existing c Hexisting) as Hcontent.
    split; [|exact Hcontent].
    apply (list_find_insert_first _ _ _ existing); [done|]. by destruct Hcontent.
  - eexists _, (length (elems (StatusConditions status))), _. split; [done|].
    rewrite list_find_app_r by done. cbn [list_find].
    assert (Hcontent : sameContent
              (if IsZero (LastTransitionTime c)
               then withLastTransitionTime c (Some (clock tick)) else c) c)
      by (by destruct (IsZero _)).
    rewrite decide_True by (by destruct Hcontent). simpl.
    split; [done | done].
Qed.

(** A second [setCondition] with a condition that says the same (type,
    status, reason, message) and carries a time changes nothing and reads no
    clock: the transition time of the first write stays. *)
Theorem setCondition_stable (clock clock' : nat → Z) (tick tick' : nat)
    (status : OvercommitStatus) (c c' : Condition) :
  sameContent c c' → LastTransitionTime c' ≠ None →
  setCondition clock' tick' (setCondition clock tick status c).2 c'
  = (tick', (setCondition clock tick status c).2).
Proof.
  intros (Htype & Hstatus & Hreason & Hmessage) Htime.
  destruct (setCondition_find clock tick status c)
    as (conditions & i & merged & -> & Hfind & (Hmt & Hms & Hmr & Hmm)).
  assert (Hsame : sameContent merged c') by (repeat split; congruence).
  unfold setCondition.
  destruct (LastTransitionTime c') as [t|]; [|done]. simpl.
  rewrite setConditionRange_spec.
  erewrite list_find_ext; [rewrite Hfind|by intros e; simpl; rewrite Htype].
  rewrite (bool_decide_eq_false_2 (ConditionStatus merged ≠ ConditionStatus c'))
    by (intros Hne; apply Hne; congruence).
  rewrite (mergedCondition_same _ _ _ Hsame).
  by rewrite list_insert_id by (by apply list_find_Some in Hfind as [? _]).
Qed.

Lemma setCondition_stable_witness :
  setCondition (λ _, 1800000000%Z) 5
    (setCondition (λ _, 1700000000%Z) 0 statusEmpty
       {| ConditionType := "ResourcesReady"; ConditionStatus := "True";
          ConditionReason := "AllResourcesReady"; ConditionMessage := "ok";
          LastTransitionTime := None |}).2
    {| ConditionType := "ResourcesReady"; ConditionStatus := "True";
       ConditionReason := "AllResourcesReady"; ConditionMessage := "ok";
       LastTransitionTime := Some 1800000000%Z |}
  = (5, (setCondition (λ _, 1700000000%Z) 0 statusEmpty
           {| ConditionType := "ResourcesReady"; ConditionStatus := "True";
              ConditionReason := "AllResourcesReady"; ConditionMessage := "ok";
              LastTransitionTime := None |}).2).
Proof.
  apply setCondition_stable; [by repeat split | discriminate].
Defined.

Lemma mergedCondition_type (now : Time) (existing c : Condition) :
  ConditionType existing = ConditionType c →
  ConditionType (mergedCondition now existing c) = ConditionType c.
Proof.
  intros Htype. unfold mergedCondition.
  destruct (bool_decide _); [destruct (_ && _)|]; done.
Qed.

(** [setCondition] leaves every condition of another type where it is,
    keeps the types of the conditions in their order, appends one type at
    most (that of the new condition, when no condition had it), and so
    keeps the types free of repeats if they were. *)
Theorem setCondition_keeps_others (clock : nat → Z) (tick : nat)
    (status : OvercommitStatus) (c : Condition) :
  let conditions := elems (StatusConditions status) in
  let conditions' := elems (StatusConditions (setCondition clock tick status c).2) in
  (∀ j e, conditions !! j = Some e → ConditionType e ≠ ConditionType c →
          conditions' !! j = Some e)
  ∧ ConditionType <$> conditions'
    = (ConditionType <$> conditions)
      ++ (if decide (ConditionType c ∈ ConditionType <$> conditions)
          then [] else [ConditionType c])
  ∧ (NoDup (ConditionType <$> conditions) → NoDup (ConditionType <$> conditions')).
Proof.
  simpl. rewrite setCondition_conditions; simpl.
  destruct (list_find (λ e, ConditionType e = ConditionType c)
              (elems (StatusConditions status))) as [[i existing]|] eqn:Hfind.
  - apply list_find_Some in Hfind as (Hi & Htype & _).
    assert (Htypes : ConditionType
                       <$> <[i := mergedCondition
                                    (Some (clock (if IsZero (LastTransitionTime c)
                                                  then S tick else tick)))
                                    existing c]> (elems (StatusConditions status))
                     = ConditionType <$> elems (StatusConditions status)).
    { rewrite list_fmap_insert, mergedCondition_type by done.
      apply list_insert_id. by rewrite list_lookup_fmap, Hi, <- Htype. }
    split; [|split].
    + intros j e Hj Hne. rewrite list_lookup_insert_ne; [done|].
      intros ->. rewrite Hi in Hj. by injection Hj as <-.
    + rewrite Htypes, decide_True; [by rewrite app_nil_r|].
      apply list_elem_of_fmap. exists existing. split; [done|].
      by eapply list_elem_of_lookup_2.
    + by rewrite Htypes.
  - apply list_find_None in Hfind.
    assert (Hnew : ConditionType c ∉ ConditionType <$> elems (StatusConditions status)).
    { intros (e & He & Hin)%list_elem_of_fmap. rewrite Forall_forall in Hfind.
      by apply (Hfind e Hin). }
    assert (Htype : ConditionType (if IsZero (LastTransitionTime c)
                                   then withLastTransitionTime c (Some (clock tick))
                                   else c) = ConditionType c)
      by (by destruct (IsZero _)).
    split; [|split].
    + intros j e Hj _. by apply lookup_app_l_Some.
    + by rewrite fmap_app, decide_False; simpl; rewrite ?Htype.
    + intros Hnodup. rewrite fmap_app; simpl. rewrite Htype.
      apply NoDup_app. split; [done|]. split; [|apply NoDup_singleton].
      intros x Hx ->%list_elem_of_singleton. done.
Qed.

(** ** [updateOvercommitStatus] *)

Lemma collectStatuses_fold (resourceStatuses : gmap string ResourceStatus)
    (types : list string) :
  ∀ (rows : list ResourceStatus) (allReady : bool) (readyCount : nat),
    foldl (λ '(resourceStatusSlice, allReady, readyCount) resourceType,
             match resourceStatuses !! resourceType with
             | Some status =>
                 if Ready status
                 then (resourceStatusSlice ++ [status], allReady, S readyCount)
                 else (resourceStatusSlice ++ [status], false, readyCount)
             | None => (resourceStatusSlice, allReady, readyCount)
             end)
          (rows, allReady, readyCount) types
    = (rows ++ omap (resourceStatuses !!.) types,
       allReady && forallb Ready (omap (resourceStatuses !!.) types),
       readyCount + length (filter (λ s, Ready s) (omap (resourceStatuses !!.) types))).
Proof.
  induction types as [|type types IH]; intros rows allReady readyCount; simpl.
  - by rewrite app_nil_r, andb_true_r, Nat.add_0_r.
  - destruct (resourceStatuses !! type) as [status|]; [|apply IH].
    destruct (Ready status) eqn:Hready; rewrite IH; simpl.
    + rewrite <- app_assoc, Hready, filter_cons_True by (by rewrite Hready).
      simpl. f_equal. symmetry. apply Nat.add_succ_r.
    + rewrite <- app_assoc, Hready, filter_cons_False by (rewrite Hready; exact id).
      by rewrite andb_false_r.
Qed.

Lemma collectStatuses_spec (resourceStatuses : gmap string ResourceStatus)
    (types : list string) :
  let rows := omap (resourceStatuses !!.) types in
  collectStatuses resourceStatuses types
  = (rows, forallb Ready rows, length (filter (λ s, Ready s) rows)).
Proof. unfold collectStatuses. by rewrite collectStatuses_fold. Qed.

Lemma forallb_count {A} (f : A → bool) (l : list A) :
  forallb f l = (length (filter (λ x, f x) l) =? length l)%nat.
Proof.
  induction l as [|x l IH]; [done|]. simpl.
  destruct (f x) eqn:Hx.
  - by rewrite filter_cons_True by (by rewrite Hx).
  - rewrite filter_cons_False by (rewrite Hx; exact id). simpl. symmetry.
    apply Nat.eqb_neq. pose proof (length_filter (λ x, f x) l). lia.
Qed.

Section status_properties.
Import OvercommitReconciler.
Context (names : Managed → string) (podWebhookName : string → string).

(** Runs [updateOvercommitStatus] up to its [setCondition]. *)
Lemma updateOvercommitStatus_run (w : StatusWorld) (status : OvercommitStatus) :
  let rows := statusRow names podWebhookName w <$> statusOrder in
  let ready := length (filter (λ m, isNil (readAnswer w m)) statusOrder) in
  updateOvercommitStatus names podWebhookName w status
  = ((setCondition (clock w) 1 (withResources status (Some rows))
        (readyCondition ready 10 (Some (clock w 0)))).2,
     statusUpdateAnswer w).
Proof.
  cbv zeta. unfold updateOvercommitStatus. rewrite collectStatuses_spec.
  assert (Hrows :
    omap ((checkResourceStatus
             (checkResourceStatus
                (checkResourceStatus
                   (checkResourceStatus
                      (checkResourceStatus
                         (checkResourceStatus
                            (checkResourceStatus
                               (checkResourceStatus
                                  (checkResourceStatus
                                     (checkResourceStatus ∅ (names issuer) "issuer"
                                        (readAnswer w issuer))
                                     (names overcommitClassDeployment)
                                     "overcommitclass-deployment"
                                     (readAnswer w overcommitClassDeployment))
                                  (names overcommitClassService) "overcommitclass-service"
                                  (readAnswer w overcommitClassService))
                               (names overcommitClassCertificate)
                               "overcommitclass-certificate"
                               (readAnswer w overcommitClassCertificate))
                            (names overcommitClassWebhook) "overcommitclass-webhook"
                            (readAnswer w overcommitClassWebhook))
                         (names validatingPodDeployment) "pod-deployment"
                         (readAnswer w validatingPodDeployment))
                      (names validatingPodService) "pod-service"
                      (readAnswer w validatingPodService))
                   (names validatingpodCertificate) "pod-certificate"
                   (readAnswer w validatingpodCertificate))
                (podWebhookName match statusLabelAnswer w with
                                | inl _ => "overcommit.inditex.dev/class"
                                | inr label => label
                                end) "pod-webhook"
                (readAnswer w validatingPodWebhook))
             (names occontroller) "overcommitclass-controller"
             (readAnswer w occontroller)) !!.) resourceTypes
    = statusRow names podWebhookName w <$> statusOrder).
  { vm_compute. reflexivity. }
  cbv zeta. rewrite Hrows. clear Hrows.
  set (rows := statusRow names podWebhookName w <$> statusOrder).
  assert (Hlen : length rows = 10) by done.
  assert (Hready : length (filter (λ s, Ready s) rows)
                   = length (filter (λ m, isNil (readAnswer w m)) statusOrder)).
  { unfold rows. clear. induction statusOrder as [|m order IH]; [done|].
    rewrite fmap_cons. destruct (isNil (readAnswer w m)) eqn:Hm.
    - rewrite !filter_cons_True by (by simpl; rewrite Hm). simpl. by rewrite IH.
    - rewrite !filter_cons_False by (simpl; rewrite Hm; exact id). done. }
  rewrite forallb_count, Hlen, Hready. unfold readyCondition, Now.
  destruct (_ =? 10)%nat; cbn [negb];
    match goal with
    | |- (let '(_, _) := ?p in _) = _ => rewrite (surjective_pairing p)
    end; reflexivity.
Qed.

(** [updateOvercommitStatus] writes one row per managed object, ten rows
    in the order of [resourceTypes], whatever the reads answer: a row is
    ready exactly when the read of its object returned nil, and the row of
    the pod webhook configuration is named after the label, or after the
    default label when the label cannot be read.  No failed read fails the
    function: the error it returns is that of the update of the status. *)
Theorem updateOvercommitStatus_rows (w : StatusWorld) (status : OvercommitStatus) :
  StatusResources (updateOvercommitStatus names podWebhookName w status).1
  = Some (statusRow names podWebhookName w <$> statusOrder)
  ∧ len (StatusResources (updateOvercommitStatus names podWebhookName w status).1) = 10
  ∧ (updateOvercommitStatus names podWebhookName w status).2 = statusUpdateAnswer w.
Proof.
  rewrite updateOvercommitStatus_run; cbn [fst snd].
  by rewrite setCondition_conditions.
Qed.

Lemma ready_all (w : StatusWorld) :
  length (filter (λ m, isNil (readAnswer w m)) statusOrder) = 10
  ↔ ∀ m, readAnswer w m = None.
Proof.
  change 10 with (length statusOrder).
  rewrite <- Nat.eqb_eq, <- forallb_count, forallb_forall. split.
  - intros Hall m. specialize (Hall m).
    destruct (readAnswer w m); [|done].
    assert (Hin : In m statusOrder) by (destruct m; simpl; tauto).
    by specialize (Hall Hin).
  - intros Hall m _. by rewrite Hall.
Qed.

(** After [updateOvercommitStatus] the first "ResourcesReady" condition of
    the status says how many of the ten objects were read: "True" and "All
    10 managed resources are ready" exactly when every read returned nil,
    "False" and "k of 10 resources are ready" otherwise, with k the number
    of reads that returned nil. *)
Theorem updateOvercommitStatus_condition (w : StatusWorld) (status : OvercommitStatus) :
  let ready := length (filter (λ m, isNil (readAnswer w m)) statusOrder) in
  ∃ i c,
    list_find (λ e, ConditionType e = "ResourcesReady")
      (elems (StatusConditions (updateOvercommitStatus names podWebhookName w status).1))
    = Some (i, c)
    ∧ ((∀ m, readAnswer w m = None) →
         ConditionStatus c = "True" ∧ ConditionReason c = "AllResourcesReady"
         ∧ ConditionMessage c = "All 10 managed resources are ready")
    ∧ (¬ (∀ m, readAnswer w m = None) →
         ConditionStatus c = "False" ∧ ConditionReason c = "ResourcesNotReady"
         ∧ ConditionMessage c = pretty ready +:+ " of 10 resources are ready"
         ∧ ready < 10).
Proof.
  cbv zeta. rewrite updateOvercommitStatus_run; cbn [fst snd].
  destruct (setCondition_find (clock w) 1
              (withResources status
                 (Some (statusRow names podWebhookName w <$> statusOrder)))
              (readyCondition
                 (length (filter (λ m, isNil (readAnswer w m)) statusOrder)) 10
                 (Some (clock w 0))))
    as (conditions & i & c & -> & Hfind & (Htype & Hstatus & Hreason & Hmessage)).
  exists i, c. simpl. split.
  { erewrite list_find_ext; [exact Hfind|]. intros e. simpl.
    unfold readyCondition. by destruct (_ =? 10)%nat. }
  pose proof (ready_all w) as Hall.
  pose proof (length_filter (λ m, isNil (readAnswer w m)) statusOrder) as Hle.
  change (length statusOrder) with 10 in Hle.
  unfold readyCondition in *.
  destruct (Nat.eqb_spec
              (length (filter (λ m, isNil (readAnswer w m)) statusOrder)) 10)
    as [Hready|Hready]; simpl in *.
  - split; [done|]. intros Hnot. destruct Hnot. by apply Hall.
  - split; [intros Hnil; by apply Hall in Hnil|].
    intros _. repeat split; try done. lia.
Qed.

(** A second [updateOvercommitStatus] that meets the same answers of the
    reads and of the label leaves the status as the first left it, whatever
    the clock says by then: the transition time is not moved. *)
Theorem updateOvercommitStatus_stable (w w' : StatusWorld) (status : OvercommitStatus) :
  (∀ m, readAnswer w' m = readAnswer w m) →
  statusLabelAnswer w' = statusLabelAnswer w →
  (updateOvercommitStatus names podWebhookName w'
     (updateOvercommitStatus names podWebhookName w status).1).1
  = (updateOvercommitStatus names podWebhookName w status).1.
Proof.
  intros Hreads Hlabel. rewrite !updateOvercommitStatus_run; cbn [fst snd].
  assert (Hrows : statusRow names podWebhookName w' <$> statusOrder
                  = statusRow names podWebhookName w <$> statusOrder).
  { apply list_fmap_ext. intros _ m _. unfold statusRow.
    by rewrite Hreads, Hlabel. }
  assert (Hready : length (filter (λ m, isNil (readAnswer w' m)) statusOrder)
                   = length (filter (λ m, isNil (readAnswer w m)) statusOrder)).
  { f_equal. apply list_filter_iff. intros m. by rewrite Hreads. }
  rewrite Hrows, Hready. clear Hrows Hready.
  set (c := readyCondition _ 10 (Some (clock w 0))).
  set (c' := readyCondition _ 10 (Some (clock w' 0))).
  assert (Hsame : sameContent c c').
  { unfold c, c', readyCondition. by destruct (_ =? 10)%nat. }
  destruct (setCondition_find (clock w) 1
              (withResources status
                 (Some (statusRow names podWebhookName w <$> statusOrder))) c)
    as (conditions & i & merged & -> & Hfind & (Hmt & Hms & Hmr & Hmm)).
  destruct Hsame as (Htype & Hstatus & Hreason & Hmessage).
  assert (Hmerged : sameContent merged c') by (repeat split; congruence).
  unfold setCondition.
  assert (Hzero : IsZero (LastTransitionTime c') = false)
    by (unfold c', readyCondition; by destruct (_ =? 10)%nat).
  rewrite Hzero. simpl. rewrite setConditionRange_spec.
  erewrite list_find_ext; [rewrite Hfind|by intros e; simpl; rewrite Htype].
  rewrite (mergedCondition_same _ _ _ Hmerged).
  by rewrite list_insert_id by (by apply list_find_Some in Hfind as [? _]).
Qed.

End status_properties.

Lemma updateOvercommitStatus_stable_witness :
  (updateOvercommitStatus sampleNames id statusWorldLater
     (updateOvercommitStatus sampleNames id statusWorldSample statusEmpty).1).1
  = (updateOvercommitStatus sampleNames id statusWorldSample statusEmpty).1.
Proof.
  apply updateOvercommitStatus_stable; [by intros m | reflexivity].
Defined.

(** * The singleton reconciler's mutate function for deployments, again *)

Section upsert_properties.
Context (SetControllerReference :
           Overcommit → list OwnerReference → error + list OwnerReference).

Ltac singleton_tests :=
  repeat match goal with
         | |- context [if ?b then _ else _] => destruct b eqn:?; simpl
         end;
  try match goal with
      | |- context [SetControllerReference ?owner ?refs] =>
          destruct (SetControllerReference owner refs) as [?err|?newRefs]; simpl
      end.

Ltac singleton_read :=
  repeat match goal with
         | H : negb _ = false |- _ => apply negb_false_iff in H
         | H : negb _ = true |- _ => apply negb_true_iff in H
         | H : bool_decide (_ ≠ _) = false |- _ =>
             apply bool_decide_eq_false in H; apply dec_stable in H
         | H : bool_decide (_ ≠ _) = true |- _ => apply bool_decide_eq_true in H
         | H : bool_decide (_ = _) = true |- _ => apply bool_decide_eq_true in H
         end.

Lemma mutateDeployment_in_sync (overcommit : Overcommit) (generated : Deployment)
    (image : string) (obj : Deployment) :
  Containers (Spec generated) ≠ [] → Containers (Spec obj) ≠ [] →
  CreationTimestampIsZero obj = false →
  deploymentInSync (withSpec generated (setContainer0Image (Spec generated) image)) obj
  = true →
  mutateDeployment SetControllerReference overcommit generated image obj = Done obj.
Proof.
  intros Hgen Hobj Hzero Hsync. unfold deploymentInSync in Hsync.
  unfold mutateDeployment.
  rewrite (bool_decide_eq_false_2 _ Hgen), Hzero, (bool_decide_eq_false_2 _ Hobj).
  destruct generated as [gz grefs glabels gannotations
                           [greplicas gta gtl gns gtol [|g0 gs]]]; [done|].
  destruct obj as [oz orefs olabels oannotations
                     [oreplicas ota otl ons otol [|o0 os]]]; [done|].
  unfold setContainer0Image, withSpec, withContainers, container0 in *.
  simpl in *.
  repeat (apply andb_prop in Hsync as [Hsync ?]). singleton_read.
  repeat first
    [ progress simpl
    | match goal with
      | H : ?t = true |- context [?t] => rewrite H
      | H : ?a = ?b |- context [bool_decide (?a ≠ ?b)] =>
          rewrite (bool_decide_eq_false_2 (a ≠ b)) by (by intros ?)
      end ].
  done.
Qed.

Lemma mutateDeployment_done (overcommit : Overcommit) (generated : Deployment)
    (image : string) (obj obj' : Deployment) :
  CreationTimestampIsZero obj = false →
  mutateDeployment SetControllerReference overcommit generated image obj = Done obj' →
  deploymentInSync (withSpec generated (setContainer0Image (Spec generated) image)) obj'
  = true
  ∧ CreationTimestampIsZero obj' = false ∧ Containers (Spec obj') ≠ [].
Proof.
  intros Hzero. unfold mutateDeployment, setControllerReference.
  destruct generated as [gz grefs glabels gannotations
                           [greplicas gta gtl gns gtol [|g0 gs]]]; [done|].
  destruct obj as [oz orefs olabels oannotations
                     [oreplicas ota otl ons otol [|o0 os]]];
    simpl in Hzero; subst oz; [done|].
  rewrite !bool_decide_eq_false_2 by done. simpl.
  unfold setContainer0Image, setContainer0Env, withSpec, withContainers,
    withTemplateAnnotations, withTemplateLabels, withNodeSelector, withTolerations,
    container0; simpl.
  singleton_tests; try discriminate;
    intros [= <-]; unfold deploymentInSync; simpl; singleton_read;
    rewrite ?envVarsEqual_refl, ?mapsEqual_refl, ?TolerationsEqual_refl;
    repeat match goal with H : _ = true |- _ => rewrite H end;
    by rewrite ?bool_decide_eq_true_2.
Qed.

(** On an existing deployment with a container the mutate function of the
    singleton reconciler changes nothing, and asks for no controller
    reference, when image and env of the first container, template
    annotations, template labels, node selector and tolerations compare as
    equal to the generated deployment with the operator's image; and
    whatever it leaves, when it succeeds, compares as equal in all of them,
    so that a second pass changes nothing. *)
Theorem mutateDeployment_converges (overcommit : Overcommit) (generated : Deployment)
    (image : string) (obj : Deployment) :
  Containers (Spec generated) ≠ [] → Containers (Spec obj) ≠ [] →
  CreationTimestampIsZero obj = false →
  let desired := withSpec generated (setContainer0Image (Spec generated) image) in
  (deploymentInSync desired obj = true →
     mutateDeployment SetControllerReference overcommit generated image obj = Done obj)
  ∧ (∀ obj',
       mutateDeployment SetControllerReference overcommit generated image obj
       = Done obj' →
       deploymentInSync desired obj' = true
       ∧ mutateDeployment SetControllerReference overcommit generated image obj'
         = Done obj').
Proof.
  intros Hgen Hobj Hzero desired. split; [by apply mutateDeployment_in_sync|].
  intros obj' Hdone.
  destruct (mutateDeployment_done _ _ _ _ _ Hzero Hdone) as (Hsync & Hzero' & Hobj').
  split; [done|]. by apply mutateDeployment_in_sync.
Qed.

End upsert_properties.

Lemma mutateDeployment_converges_witness :
  match mutateDeployment sampleSetControllerReference overcommitClean
          deploymentGenerated "registry/operator:2.0.0" deploymentObserved with
  | Done obj' =>
      Image (container0 (Spec obj')) = "registry/operator:2.0.0"
      ∧ mutateDeployment sampleSetControllerReference overcommitClean
          deploymentGenerated "registry/operator:2.0.0" obj' = Done obj'
  | _ => False
  end.
Proof.
  destruct (mutateDeployment sampleSetControllerReference overcommitClean
              deploymentGenerated "registry/operator:2.0.0" deploymentObserved)
    as [obj'| |] eqn:Hdone; [|by vm_compute in Hdone..].
  split; [by vm_compute in Hdone; injection Hdone as <-|].
  by apply (mutateDeployment_converges sampleSetControllerReference overcommitClean
              deploymentGenerated "registry/operator:2.0.0" deploymentObserved).
Defined.
